(** * secure-api-client: the request-orchestration pipeline

    A shallow embedding of the TypeScript sources (client, auth, cache,
    crypto, stream, errors, types) and the properties of the pipeline
    proved over it.

    Layout of the development:
    - [Js]       the fragment of JavaScript values the client handles,
                 with [JSON.stringify], [String(..)] and truthiness;
    - [Aio]      a small monad for [async] functions: code runs
                 synchronously up to an [await], where it suspends and any
                 other code may run before it is resumed;
    - the data model of [types.ts] and the collaborators the client is
      handed (URL, JSON.parse, jose, WebCrypto, fetch);
    - [errors.ts], [cache.ts], [auth.ts], [stream.ts], [client.ts], and
      further down [crypto.ts] over WebCrypto;
    - the event loop on which several [request] calls interleave, and
      [Scenario], concrete clients and servers to run it on;
    - the vocabulary of the statements: what a client's code may change
      in the world, and the invariant of the event loop;
    - the facts about each part, and the theorems about the pipeline. *)

From stdpp Require Import base gmap strings list pretty.
From Stdlib Require Import ZArith Ascii String.
From Stdlib Require Import Strings.Byte.

Local Set Warnings "-register-all".
Local Open Scope string_scope.
Local Open Scope Z_scope.

(* ===================================================================== *)
(** * JavaScript values *)
(* ===================================================================== *)

Module Js.

(** The values that flow through the client: request bodies, decoded
  responses, token objects, thrown values. Numbers are restricted to the
  integers a JavaScript number holds exactly and prints in decimal, the
  safe integers; objects are association lists in insertion order. A
  [JBlob] is a Blob or a File: its bytes and its type. *)
Inductive JsValue : Type :=
| JUndefined
| JNull
| JBool (b : bool)
| JNum (n : Z)
| JBigInt (n : Z)
| JStr (s : string)
| JBytes (b : list byte)                    (* Uint8Array *)
| JFormData (parts : list (string * string))
| JBlob (data : list byte) (type : string)
| JArr (items : list JsValue)
| JObj (props : list (string * JsValue)).

Definition JsObj := list (string * JsValue).

(** ToBoolean: what [if (v)], [!v] and [v && ..] test. Every object,
  a zero-length Uint8Array included, is truthy. *)
Definition truthy (v : JsValue) : bool :=
match v with
| JUndefined | JNull => false
| JBool b => b
| JNum n | JBigInt n => negb (n =? 0)
| JStr s => negb (String.eqb s "")
| JBytes _ | JFormData _ | JBlob _ _ | JArr _ | JObj _ => true
end.

(** [v ?? d] *)
Definition nullish (v : JsValue) : bool :=
match v with JUndefined | JNull => true | _ => false end.

Definition coalesce (v d : JsValue) : JsValue := if nullish v then d else v.

(** Property read [o.k]: [undefined] when the key is absent. *)
Fixpoint obj_get (k : string) (o : JsObj) : JsValue :=
match o with
| [] => JUndefined
| (k', v) :: o' => if String.eqb k k' then v else obj_get k o'
end.

(** [k in o] *)
Fixpoint obj_has (k : string) (o : JsObj) : bool :=
match o with
| [] => false
| (k', _) :: o' => String.eqb k k' || obj_has k o'
end.

(** Property write [o[k] = v]: an existing key keeps its place. *)
Fixpoint obj_set {V : Type} (k : string) (v : V) (o : list (string * V))
: list (string * V) :=
match o with
| [] => [(k, v)]
| (k', v') :: o' =>
    if String.eqb k k' then (k, v) :: o' else (k', v') :: obj_set k v o'
end.

(** Object spread [{...a, ...b}]: the keys of [b] are written over [a]
  one by one. *)
Definition spread {V : Type} (a b : list (string * V)) : list (string * V) :=
fold_left (fun acc kv => obj_set kv.1 kv.2 acc) b a.

Fixpoint join (sep : string) (l : list string) : string :=
match l with
| [] => ""
| [s] => s
| s :: l' => s +:+ sep +:+ join sep l'
end.

(** [String(v)] and template-literal interpolation. *)
Fixpoint to_string (v : JsValue) : string :=
match v with
| JUndefined => "undefined"
| JNull => "null"
| JBool true => "true"
| JBool false => "false"
| JNum n | JBigInt n => pretty n
| JStr s => s
| JBytes b => join "," (map (fun x => pretty (Z.of_N (Byte.to_N x))) b)
| JFormData _ => "[object FormData]"
| JBlob _ _ => "[object Blob]"
| JArr items =>
    join "," ((fix each (l : list JsValue) : list string :=
                 match l with
                 | [] => []
                 | x :: l' =>
                     (if nullish x then "" else to_string x) :: each l'
                 end) items)
| JObj _ => "[object Object]"
end.

(** ** JSON.stringify *)

Definition hex_digit (n : N) : ascii :=
ascii_of_N (if (n <? 10)%N then 48 + n else 87 + n)%N.

Definition dquote : string := String (ascii_of_N 34) "".

(** QuoteJSONString, one character at a time. *)
Definition json_escape (c : ascii) : string :=
let n := N_of_ascii c in
if (n =? 34)%N then "\" +:+ dquote
else if (n =? 92)%N then "\\"
else if (n =? 8)%N then "\b"
else if (n =? 12)%N then "\f"
else if (n =? 10)%N then "\n"
else if (n =? 13)%N then "\r"
else if (n =? 9)%N then "\t"
else if (n <? 32)%N then
  "\u00" +:+ String (hex_digit (n / 16)%N) (String (hex_digit (n mod 16)%N) "")
else String c "".

Fixpoint json_escape_all (s : string) : string :=
match s with
| EmptyString => ""
| String c s' => json_escape c +:+ json_escape_all s'
end.

Definition json_quote (s : string) : string :=
dquote +:+ json_escape_all s +:+ dquote.

(** What [JSON.stringify] gives: text, [undefined], or a TypeError. *)
Inductive Serialized : Type :=
| SText (s : string)
| SUndefined
| SThrow (message : string).

(** A typed array serializes as an object keyed by its indices. *)
Fixpoint indexed_bytes (i : Z) (b : list byte) : list string :=
match b with
| [] => []
| x :: b' =>
    (json_quote (pretty i) +:+ ":" +:+ pretty (Z.of_N (Byte.to_N x)))
      :: indexed_bytes (i + 1) b'
end.

Fixpoint JSON_stringify (v : JsValue) : Serialized :=
match v with
| JUndefined => SUndefined
| JNull => SText "null"
| JBool true => SText "true"
| JBool false => SText "false"
| JNum n => SText (pretty n)
| JBigInt _ => SThrow "Do not know how to serialize a BigInt"
| JStr s => SText (json_quote s)
| JBytes b => SText ("{" +:+ join "," (indexed_bytes 0 b) +:+ "}")
| JFormData _ => SText "{}"
| JBlob _ _ => SText "{}"
| JArr items =>
    (* an element that has no serialization is written as null *)
    match (fix each (l : list JsValue) : string + list string :=
             match l with
             | [] => inr []
             | x :: l' =>
                 match JSON_stringify x, each l' with
                 | SThrow m, _ => inl m
                 | _, inl m => inl m
                 | SText t, inr ts => inr (t :: ts)
                 | SUndefined, inr ts => inr ("null" :: ts)
                 end
             end) items with
    | inl m => SThrow m
    | inr ts => SText ("[" +:+ join "," ts +:+ "]")
    end
| JObj props =>
    (* a property that has no serialization is left out *)
    match (fix each (l : list (string * JsValue)) : string + list string :=
             match l with
             | [] => inr []
             | (k, x) :: l' =>
                 match JSON_stringify x, each l' with
                 | SThrow m, _ => inl m
                 | _, inl m => inl m
                 | SText t, inr ts =>
                     inr ((json_quote k +:+ ":" +:+ t) :: ts)
                 | SUndefined, inr ts => inr ts
                 end
             end) props with
    | inl m => SThrow m
    | inr ts => SText ("{" +:+ join "," ts +:+ "}")
    end
end.

(** [s.includes(needle)] *)
Definition includes (needle s : string) : bool :=
match String.index 0 needle s with Some _ => true | None => false end.

End Js.
Export Js.

(* ===================================================================== *)
(** * Asynchronous code *)
(* ===================================================================== *)

(** An [async] function runs synchronously until its first [await]; there
    it suspends, and the event loop may run any other code before it
    resumes the function in whatever the world has become. [W] is the
    world (all mutable state), [E] the type of thrown values. *)
Module Aio.
Section Aio.
Context {W E : Type}.

Inductive Settled (A : Type) : Type :=
| Fulfilled (a : A)
| Rejected (e : E).

(** A started computation: settled, or suspended at an [await]. Resumed
  in world [w] it leaves the world [eff w] and goes on as [next w]. *)
Inductive Async (A : Type) : Type :=
| Done (r : Settled A)
| Await (eff : W -> W) (next : W -> Async A).

(** Code about to run: from the current world, the world it leaves and
  the point it reached. *)
Definition Run (A : Type) : Type := W -> W * Async A.

Global Arguments Fulfilled {A} a.
Global Arguments Rejected {A} e.
Global Arguments Done {A} r.
Global Arguments Await {A} eff next.

Definition ret {A} (a : A) : Run A := fun w => (w, Done (Fulfilled a)).
Definition throw {A} (e : E) : Run A := fun w => (w, Done (Rejected e)).
Definition settle {A} (r : Settled A) : Run A := fun w => (w, Done r).

(** Synchronous access to the world. *)
Definition gets {A} (f : W -> A) : Run A :=
fun w => (w, Done (Fulfilled (f w))).
Definition modify (f : W -> W) : Run unit :=
fun w => (f w, Done (Fulfilled tt)).

Definition suspend {A} (body : Run A) : Async A :=
Await (fun w => (body w).1) (fun w => (body w).2).

Definition resume {A} (t : Async A) : Run A :=
fun w =>
  match t with
  | Done r => (w, Done r)
  | Await eff next => (eff w, next w)
  end.

Fixpoint bindA {A B} (t : Async A) (f : A -> Run B) : Run B :=
fun w =>
  match t with
  | Done (Fulfilled a) => f a w
  | Done (Rejected e) => (w, Done (Rejected e))
  | Await eff next =>
      (w, Await (fun w' => (bindA (next w') f (eff w')).1)
                (fun w' => (bindA (next w') f (eff w')).2))
  end.

Definition bind {A B} (m : Run A) (f : A -> Run B) : Run B :=
fun w => bindA (m w).2 f (m w).1.

(** [try { m } catch (e) { h e }] *)
Fixpoint catchA {A} (t : Async A) (h : E -> Run A) : Run A :=
fun w =>
  match t with
  | Done (Fulfilled a) => (w, Done (Fulfilled a))
  | Done (Rejected e) => h e w
  | Await eff next =>
      (w, Await (fun w' => (catchA (next w') h (eff w')).1)
                (fun w' => (catchA (next w') h (eff w')).2))
  end.

Definition try_catch {A} (m : Run A) (h : E -> Run A) : Run A :=
fun w => catchA (m w).2 h (m w).1.

(** [try { m } finally { fin }], for a [fin] that is synchronous and
  does not throw. *)
Fixpoint finallyA {A} (t : Async A) (fin : W -> W) : Run A :=
fun w =>
  match t with
  | Done r => (fin w, Done r)
  | Await eff next =>
      (w, Await (fun w' => (finallyA (next w') fin (eff w')).1)
                (fun w' => (finallyA (next w') fin (eff w')).2))
  end.

Definition try_finally {A} (m : Run A) (fin : W -> W) : Run A :=
fun w => finallyA (m w).2 fin (m w).1.

(** The continuation of an [await] runs in a later turn of the loop,
  also when the awaited value is already there, and also when the
  awaited promise rejects. *)
Fixpoint laterA {A} (t : Async A) : Async A :=
match t with
| Done r => Await (fun w => w) (fun _ => Done r)
| Await eff next => Await eff (fun w => laterA (next w))
end.

(** [await m]: the operand starts synchronously. *)
Definition await {A} (m : Run A) : Run A :=
fun w => ((m w).1, laterA (m w).2).

(** ** Running to the end with nothing interleaved *)
Fixpoint finish {A} (t : Async A) (w : W) : W * Settled A :=
match t with
| Done r => (w, r)
| Await eff next => finish (next w) (eff w)
end.

Definition run_alone {A} (m : Run A) (w : W) : W * Settled A :=
finish (m w).2 (m w).1.

(** ** Properties over every interleaving *)

(** [t] can settle as [r]: some sequence of worlds at its resumptions
  leads there. *)
Inductive settles {A} : Async A -> Settled A -> Prop :=
| settles_done r : settles (Done r) r
| settles_step eff next w r :
  settles (next w) r -> settles (Await eff next) r.

(** Whatever the worlds at the resumptions, [t] settles in [P]. *)
Fixpoint always {A} (P : Settled A -> Prop) (t : Async A) : Prop :=
match t with
| Done r => P r
| Await _ next => forall w, always P (next w)
end.

(** Every change [t] makes to the world is within the relation [R]. *)
Fixpoint within {A} (R : W -> W -> Prop) (t : Async A) : Prop :=
match t with
| Done _ => True
| Await eff next => forall w, R w (eff w) /\ within R (next w)
end.

Definition run_within {A} (R : W -> W -> Prop) (m : Run A) : Prop :=
forall w, R w (m w).1 /\ within R (m w).2.

Definition run_always {A} (P : Settled A -> Prop) (m : Run A) : Prop :=
forall w, always P (m w).2.

(** [t] raises the measure [size] of the world by at most [n] in all. *)
Fixpoint spends {A} (size : W -> nat) (n : nat) (t : Async A) : Prop :=
match t with
| Done _ => True
| Await eff next =>
    forall w, exists d, (d <= n)%nat /\ size (eff w) = (size w + d)%nat
                        /\ spends size (n - d) (next w)
end.

Definition run_spends {A} (size : W -> nat) (n : nat) (m : Run A) : Prop :=
forall w, exists d, (d <= n)%nat /\ size (m w).1 = (size w + d)%nat
                    /\ spends size (n - d) (m w).2.
End Aio.

Global Arguments Settled : clear implicits.
Global Arguments Async : clear implicits.
Global Arguments Run : clear implicits.

Declare Scope aio_scope.
Delimit Scope aio_scope with aio.
Notation "x <- m ;; k" := (bind m (fun x => k))
(at level 100, m at next level, right associativity) : aio_scope.
Notation "m ;;; k" := (bind m (fun _ => k))
(at level 100, right associativity) : aio_scope.
End Aio.
Export Aio.
Local Open Scope aio_scope.

(* ===================================================================== *)
(** * Data model (types.ts) *)
(* ===================================================================== *)

Inductive HttpMethod : Type := GET | POST | PUT | DELETE | PATCH | FORMDATA.

Definition method_name (m : HttpMethod) : string :=
  match m with
  | GET => "GET" | POST => "POST" | PUT => "PUT"
  | DELETE => "DELETE" | PATCH => "PATCH" | FORMDATA => "FORMDATA"
  end.

(** [Record<string, string>], and the entries of a [Headers] object with
    their names in lower case. *)
Definition HeaderMap := list (string * string).

(** class ApiError extends Error *)
Record ApiError : Type := mkApiError {
  err_message : string;
  err_code : string;
  err_status : JsValue;
  err_details : JsValue
}.

(** What a [throw] carries, and what a promise rejects with. *)
Inductive Thrown : Type :=
| ThrownApiError (e : ApiError)
| Raised (v : JsValue).

Definition type_error (m : string) : Thrown :=
  Raised (JObj [("name", JStr "TypeError"); ("message", JStr m)]).

(** [ApiResponse]. The [error] of a failure is an object: either the
    shape [{code, message, details}] the client builds, or the decoded
    body of the server when that carries a [code]. *)
Inductive ApiResponse : Type :=
| Success (status : Z) (headers : HeaderMap) (data : JsValue)
| Failure (status : Z) (headers : option HeaderMap) (error : JsObj).

Definition ok (r : ApiResponse) : bool :=
  match r with Success _ _ _ => true | Failure _ _ _ => false end.

Definition status_of (r : ApiResponse) : Z :=
  match r with Success s _ _ | Failure s _ _ => s end.

Abbreviation Outcome := (Settled Thrown).

(** A callback the caller supplies: it returns, or throws. *)
Definition Callback (A : Type) : Type := A -> option Thrown.

Record StreamHandlers : Type := mkHandlers {
  onStart : option (Callback (Z * HeaderMap));
  onChunk : option (Callback JsValue);
  onError : option (Callback Thrown);
  onComplete : option (Callback unit)
}.

Definition no_handlers : StreamHandlers := mkHandlers None None None None.

Record ApiRequest : Type := mkRequest {
  req_url : string;
  req_method : option HttpMethod;
  req_headers : option HeaderMap;
  req_query : option JsObj;
  req_body : JsValue;                 (* [JUndefined] when left out *)
  req_signal : option nat;
  req_cacheKey : option string;
  req_stream : bool;
  req_streamHandlers : option StreamHandlers
}.

(** The body of a response as its reader delivers it: the chunks in
    arrival order, then the end of the stream or an error. *)
Record BodyStream : Type := mkBody {
  chunks : list JsValue;
  failure : option Thrown
}.

Record Response : Type := mkResponse {
  resp_status : Z;
  resp_headers : HeaderMap;
  resp_body : option BodyStream
}.

Definition resp_ok (r : Response) : bool :=
  (200 <=? resp_status r) && (resp_status r <=? 299).

Inductive BodyInit : Type :=
| BodyText (s : string)
| BodyBlob (data : list byte) (type : string)
| BodyValue (v : JsValue).

Record RequestInit : Type := mkInit {
  init_method : string;
  init_headers : HeaderMap;
  init_signal : option nat;
  init_body : option BodyInit
}.

(** [typeof fetch]. The first argument is the number of transport calls
    made before this one: the answer to a call may depend on when it is
    made. *)
Definition Fetch : Type := nat -> string -> RequestInit -> Outcome Response.

Record EncryptionAdapter : Type := mkEncryption {
  encrypt : list byte -> Outcome (list byte);
  decrypt : list byte -> Outcome (list byte)
}.

(** [AuthConfig]. A storage is a reference to a token-storage object;
    the expiry predicate reads the clock. *)
Record AuthConfig : Type := mkAuthConfig {
  cfg_storage : option nat;
  cfg_onRefresh : option (JsObj -> Outcome JsObj);
  cfg_isTokenExpired : option (Z -> JsObj -> bool)
}.

Definition no_auth : AuthConfig := mkAuthConfig None None None.

(** [cache?: CacheAdapter<ApiResponse> | false] *)
Inductive CacheOption : Type :=
| CacheUnset
| CacheOff
| CacheGiven (ref : nat).

Record ClientOptions : Type := mkClientOptions {
  co_baseUrl : option string;
  co_gatewayPath : option string;
  co_fetch : option Fetch;
  co_defaultHeaders : option HeaderMap;
  co_auth : option AuthConfig;
  co_encryption : option EncryptionAdapter;
  co_cache : CacheOption;
  co_cacheTtlMs : option Z;
  co_enableInFlightDedup : option bool
}.

Definition no_options : ClientOptions :=
  mkClientOptions None None None None None None CacheUnset None None.

(* ===================================================================== *)
(** * Collaborators *)
(* ===================================================================== *)

(** What the client takes from the platform and from its dependencies:
    the WHATWG URL class, JSON.parse, jose's decodeJwt, WebCrypto behind
    [AesGcmEncryption], nanoid, and the global fetch. *)
Record Platform : Type := mkPlatform {
  Url : Type;
  URL_new : string -> string -> Outcome Url;
  searchParams_set : string -> string -> Url -> Url;
  URL_toString : Url -> string;
  window_origin : option string;
  JSON_parse : string -> Outcome JsValue;
  decodeJwt : JsValue -> Outcome JsObj;
  AesGcmEncryption : JsValue -> EncryptionAdapter;
  nanoid : nat -> Z -> string;
  global_fetch : Fetch
}.

(* ===================================================================== *)
(** * The world *)
(* ===================================================================== *)

(** One stream-handler invocation. *)
Inductive HandlerCall : Type :=
| CallStart (status : Z) (headers : HeaderMap)
| CallChunk (chunk : JsValue)
| CallError (e : Thrown)
| CallComplete.

(** What the client does to its collaborators, in order. *)
Inductive Event : Type :=
| EvFetch (target : string) (init : RequestInit)
| EvGetTokens (storage : nat)
| EvSetTokens (storage : nat) (tokens : JsObj)
| EvClearTokens (storage : nat)
| EvRefresh (current : JsObj)
| EvEncrypt (data : list byte)
| EvDecrypt (data : list byte)
| EvHandler (call : HandlerCall)
| EvGetReader                       (* response.body.getReader() *)
| EvRead                            (* reader.read() *)
| EvReleaseLock
| EvUnhandledRejection (e : Thrown). (* a rejection nobody handles *)

Record CacheEntry : Type := mkEntry {
  value : ApiResponse;
  expiresAt : option Z
}.

(** An [LRUCache] of the lru-cache package: the entries from the most to
    the least recently used, at most [lru_max] of them. *)
Record LruCache : Type := mkLru {
  lru_max : nat;
  lru_entries : list (string * CacheEntry)
}.

(** All mutable state. Objects live in the world and are referred to by
    reference, so two clients may share a storage or a cache.
    [reactions] are the [finally] callbacks waiting for a promise. *)
Record World : Type := mkWorld {
  now : Z;                                      (* Date.now() *)
  entropy : nat;
  next_ref : nat;
  stores : gmap nat JsObj;                      (* MemoryTokenStorage *)
  caches : gmap nat LruCache;                   (* LruCacheAdapter *)
  registries : gmap nat (gmap string nat);      (* InFlightDeduper *)
  reactions : list (nat * nat * string);        (* promise, registry, key *)
  trace : list Event
}.

Definition set_entropy (f : nat -> nat) (w : World) : World :=
  mkWorld (now w) (f (entropy w)) (next_ref w) (stores w) (caches w)
          (registries w) (reactions w) (trace w).
Definition set_next_ref (f : nat -> nat) (w : World) : World :=
  mkWorld (now w) (entropy w) (f (next_ref w)) (stores w) (caches w)
          (registries w) (reactions w) (trace w).
Definition set_stores (f : gmap nat JsObj -> gmap nat JsObj) (w : World)
  : World :=
  mkWorld (now w) (entropy w) (next_ref w) (f (stores w)) (caches w)
          (registries w) (reactions w) (trace w).
Definition set_caches (f : gmap nat LruCache -> gmap nat LruCache)
  (w : World) : World :=
  mkWorld (now w) (entropy w) (next_ref w) (stores w) (f (caches w))
          (registries w) (reactions w) (trace w).
Definition set_registries
  (f : gmap nat (gmap string nat) -> gmap nat (gmap string nat))
  (w : World) : World :=
  mkWorld (now w) (entropy w) (next_ref w) (stores w) (caches w)
          (f (registries w)) (reactions w) (trace w).
Definition set_reactions
  (f : list (nat * nat * string) -> list (nat * nat * string))
  (w : World) : World :=
  mkWorld (now w) (entropy w) (next_ref w) (stores w) (caches w)
          (registries w) (f (reactions w)) (trace w).
Definition set_now (f : Z -> Z) (w : World) : World :=
  mkWorld (f (now w)) (entropy w) (next_ref w) (stores w) (caches w)
          (registries w) (reactions w) (trace w).

(** Append to the trace. *)
Definition emit (e : Event) (w : World) : World :=
  mkWorld (now w) (entropy w) (next_ref w) (stores w) (caches w)
          (registries w) (reactions w) (trace w ++ [e])%list.

Abbreviation Job := (Run World Thrown).
Abbreviation Task := (Async World Thrown).

(** A synchronous call that returns or throws. *)
Definition lift {A} (r : Outcome A) : Job A := settle r.

Definition is_fetch (e : Event) : bool :=
  match e with EvFetch _ _ => true | _ => false end.

(** The calls handed to the transport so far. *)
Definition transport_calls (w : World) : list Event :=
  filter (fun e => is_fetch e = true) (trace w).

(* ===================================================================== *)
(** * errors.ts *)
(* ===================================================================== *)

(** [typeof v === "object" && v]: a non-null object. *)
Definition is_object (v : JsValue) : bool :=
  match v with
  | JBytes _ | JFormData _ | JBlob _ _ | JArr _ | JObj _ => true
  | _ => false
  end.

(** [k in v] for a non-null object of the fragment: only plain objects
    carry named keys. *)
Definition has_key (k : string) (v : JsValue) : bool :=
  match v with JObj props => obj_has k props | _ => false end.

Definition get_key (k : string) (v : JsValue) : JsValue :=
  match v with JObj props => obj_get k props | _ => JUndefined end.

Definition toApiError (e : Thrown) (fallbackCode : string) : ApiError :=
  match e with
  | ThrownApiError a => a
  | Raised v =>
      if is_object v && has_key "message" v then
        mkApiError
          (to_string (coalesce (get_key "message" v) (JStr "Unknown error")))
          (to_string (coalesce (get_key "code" v) (JStr fallbackCode)))
          (match get_key "status" v with JNum n => JNum n | _ => JUndefined end)
          (get_key "details" v)
      else mkApiError (to_string v) fallbackCode JUndefined JUndefined
  end.

Definition makeErrorShape (error : ApiError) : JsObj :=
  [("code", JStr (err_code error));
   ("message", JStr (err_message error));
   ("details", err_details error)].

(* ===================================================================== *)
(** * cache.ts *)
(* ===================================================================== *)

Module Lru.
(** The operations of lru-cache the adapter uses. *)
Fixpoint find (k : string) (l : list (string * CacheEntry))
  : option CacheEntry :=
  match l with
  | [] => None
  | (k', e) :: l' => if String.eqb k k' then Some e else find k l'
  end.

Fixpoint remove (k : string) (l : list (string * CacheEntry))
  : list (string * CacheEntry) :=
  match l with
  | [] => []
  | (k', e) :: l' =>
      if String.eqb k k' then remove k l' else (k', e) :: remove k l'
  end.

(** A hit becomes the most recently used entry. *)
Definition get (k : string) (c : LruCache) : option CacheEntry * LruCache :=
  match find k (lru_entries c) with
  | None => (None, c)
  | Some e => (Some e, mkLru (lru_max c) ((k, e) :: remove k (lru_entries c)))
  end.

(** A write becomes the most recently used entry; beyond [lru_max] the
    least recently used ones go. *)
Definition set (k : string) (e : CacheEntry) (c : LruCache) : LruCache :=
  mkLru (lru_max c) (take (lru_max c) ((k, e) :: remove k (lru_entries c))).

Definition delete (k : string) (c : LruCache) : LruCache :=
  mkLru (lru_max c) (remove k (lru_entries c)).

Definition clear (c : LruCache) : LruCache := mkLru (lru_max c) [].
End Lru.

Module LruCacheAdapter.
(** [constructor(max = 500)] *)
Definition new (max : option nat) : LruCache :=
  mkLru (default 500%nat max) [].

Definition expired (t : Z) (e : CacheEntry) : bool :=
  match expiresAt e with
  | Some x => negb (x =? 0) && (x <=? t)
  | None => false
  end.

(** [get(key)], at clock [t] *)
Definition get (t : Z) (key : string) (c : LruCache)
  : option ApiResponse * LruCache :=
  match Lru.get key c with
  | (None, c') => (None, c')
  | (Some entry, c') =>
      if expired t entry then (None, Lru.delete key c')
      else (Some (value entry), c')
  end.

(** [set(key, value, ttlMs?)], at clock [t] *)
Definition set (t : Z) (key : string) (v : ApiResponse) (ttlMs : option Z)
  (c : LruCache) : LruCache :=
  let expiresAt :=
    match ttlMs with
    | Some ttl => if ttl =? 0 then None else Some (t + ttl)
    | None => None
    end in
  Lru.set key (mkEntry v expiresAt) c.

Definition delete (key : string) (c : LruCache) : LruCache :=
  Lru.delete key c.

Definition clear (c : LruCache) : LruCache := Lru.clear c.
End LruCacheAdapter.

(** The cache object behind a reference; a dangling reference reads as a
    new cache. *)
Definition cache_at (ref : nat) (w : World) : LruCache :=
  default (LruCacheAdapter.new None) (caches w !! ref).

Definition cache_get (ref : nat) (key : string) : Job (option ApiResponse) :=
  fun w =>
    let '(hit, c') := LruCacheAdapter.get (now w) key (cache_at ref w) in
    (set_caches (insert ref c') w, Done (Fulfilled hit)).

Definition cache_set (ref : nat) (key : string) (v : ApiResponse)
  (ttlMs : option Z) : Job unit :=
  modify (fun w =>
    set_caches
      (insert ref (LruCacheAdapter.set (now w) key v ttlMs (cache_at ref w))) w).

Module InFlightDeduper.
Definition registry_at (ref : nat) (w : World) : gmap string nat :=
  default ∅ (registries w !! ref).

(** [get(key)] *)
Definition get (ref : nat) (key : string) : Job (option nat) :=
  gets (fun w => registry_at ref w !! key).

(** [set(key, promise)]: the entry, and the [finally] callback that
    will delete [key] once [promise] has settled. Nobody holds the
    promise [finally] returns, so when [promise] rejects that rejection
    is not handled. *)
Definition set (ref : nat) (key : string) (promise : nat) : Job unit :=
  modify (fun w =>
    set_reactions (fun l => (l ++ [(promise, ref, key)])%list)
      (set_registries (insert ref (<[key := promise]> (registry_at ref w))) w)).

(** The body of that callback: [this.map.delete(key)]. *)
Definition on_settled (ref : nat) (key : string) (w : World) : World :=
  set_registries (insert ref (delete key (registry_at ref w))) w.
End InFlightDeduper.

(* ===================================================================== *)
(** * auth.ts *)
(* ===================================================================== *)

Module MemoryTokenStorage.
Definition empty : JsObj := [("accessToken", JNull); ("refreshToken", JNull)].

Definition tokens_at (ref : nat) (w : World) : JsObj :=
  default empty (stores w !! ref).

Definition getTokens (ref : nat) : Job JsObj :=
  fun w => (emit (EvGetTokens ref) w, Done (Fulfilled (tokens_at ref w))).

Definition setTokens (ref : nat) (tokens : JsObj) : Job unit :=
  modify (fun w =>
    emit (EvSetTokens ref tokens)
      (set_stores (insert ref (spread (tokens_at ref w) tokens)) w)).

Definition clear (ref : nat) : Job unit :=
  modify (fun w =>
    emit (EvClearTokens ref) (set_stores (insert ref empty) w)).
End MemoryTokenStorage.

(** [accessTokenExpiresAt] is a number when it is there. *)
Definition defaultIsTokenExpired (t : Z) (meta : JsObj) : bool :=
  let x := obj_get "accessTokenExpiresAt" meta in
  if negb (truthy x) then false
  else match x with JNum n => n <=? t | _ => false end.

Record AuthManager : Type := mkAuth {
  storage : nat;
  onRefresh : option (JsObj -> Outcome JsObj);
  isExpired : Z -> JsObj -> bool
}.

Section Auth.
Context (P : Platform).

(** The metadata [enrichMetadata] derives: a token that does not decode
    has no expiry. *)
Definition token_metadata (tokens : JsObj) : JsObj :=
  let accessToken := obj_get "accessToken" tokens in
  let decoded :=
    if truthy accessToken then
      match decodeJwt P accessToken with
      | Fulfilled payload =>
          (JObj payload,
           match obj_get "exp" payload with
           | JNum n => JNum (n * 1000)
           | _ => JUndefined
           end)
      | Rejected _ => (JNull, JUndefined)
      end
    else (JNull, JUndefined) in
  [("payload", decoded.1); ("accessTokenExpiresAt", decoded.2)].

Definition enrichMetadata (tokens : JsObj) : Job JsObj :=
  ret (token_metadata tokens).

Definition AuthManager_setTokens (a : AuthManager) (tokens : JsObj)
  : Job unit :=
  meta <- await (enrichMetadata tokens) ;;
  await (MemoryTokenStorage.setTokens (storage a) (spread tokens meta)).

Definition AuthManager_clear (a : AuthManager) : Job unit :=
  await (MemoryTokenStorage.clear (storage a)).

Definition call_onRefresh (f : JsObj -> Outcome JsObj) (current : JsObj)
  : Job JsObj :=
  fun w => (emit (EvRefresh current) w, Done (f current)).

Definition getValidAccessToken (a : AuthManager) : Job JsValue :=
  tokens <- await (MemoryTokenStorage.getTokens (storage a)) ;;
  if negb (truthy (obj_get "accessToken" tokens)) then ret JNull
  else
    meta <- await (enrichMetadata tokens) ;;
    t <- gets now ;;
    if negb (isExpired a t meta) then ret (obj_get "accessToken" tokens)
    else
      match onRefresh a with
      | Some refresh =>
          if truthy (obj_get "refreshToken" tokens) then
            updated <- await (call_onRefresh refresh
                          [("accessToken", obj_get "accessToken" tokens);
                           ("refreshToken", obj_get "refreshToken" tokens)]) ;;
            await (AuthManager_setTokens a updated) ;;;
            ret (obj_get "accessToken" updated)
          else ret JNull
      | None => ret JNull
      end.
End Auth.

(** [new AuthManager(config)]: a storage of its own unless one is given. *)
Definition AuthManager_new (config : AuthConfig) : World -> World * AuthManager :=
  fun w =>
    let '(w', ref) :=
      match cfg_storage config with
      | Some ref => (w, ref)
      | None =>
          (set_next_ref S
             (set_stores (insert (next_ref w) MemoryTokenStorage.empty) w),
           next_ref w)
      end in
    (w', mkAuth ref (cfg_onRefresh config)
                (default defaultIsTokenExpired (cfg_isTokenExpired config))).

(* ===================================================================== *)
(** * stream.ts *)
(* ===================================================================== *)

(** [h?.(x)]: nothing happens without a handler; with one, the call is
    made and may throw. *)
Definition invoke {A} (h : option (Callback A)) (x : A) (call : HandlerCall)
  : Job unit :=
  match h with
  | None => ret tt
  | Some f =>
      fun w =>
        (emit (EvHandler call) w,
         Done (match f x with
               | None => Fulfilled tt
               | Some e => Rejected e
               end))
  end.

(** [reader.read()]: the read is asked for now, what it gives is there
    when the [await] resumes. *)
Definition read {A} (r : Outcome A) : Job A :=
  fun w => (emit EvRead w, Done r).

(** The [while (true)] loop over [reader.read()]: one await per read. *)
Fixpoint read_all (onChunk : option (Callback JsValue)) (rest : list JsValue)
  (ending : option Thrown) : Job unit :=
  match rest with
  | [] =>
      await (read (match ending with
                   | None => Fulfilled tt        (* done *)
                   | Some e => Rejected e
                   end))
  | v :: rest' =>
      await (read (Fulfilled tt)) ;;;
      (if truthy v then invoke onChunk v (CallChunk v) else ret tt) ;;;
      read_all onChunk rest' ending
  end.

Definition streamResponse (response : Response) (handlers : StreamHandlers)
  : Job unit :=
  invoke (onStart handlers) (resp_status response, resp_headers response)
         (CallStart (resp_status response) (resp_headers response)) ;;;
  match resp_body response with
  | None => invoke (onComplete handlers) tt CallComplete
  | Some body =>
      modify (emit EvGetReader) ;;;
      try_finally
        (try_catch
           (read_all (onChunk handlers) (chunks body) (failure body) ;;;
            invoke (onComplete handlers) tt CallComplete)
           (fun e => invoke (onError handlers) e (CallError e) ;;; throw e))
        (emit EvReleaseLock)
  end.

(* ===================================================================== *)
(** * client.ts *)
(* ===================================================================== *)

Record InternalOptions : Type := mkOptions {
  baseUrl : option string;
  gatewayPath : option string;
  fetch : Fetch;
  defaultHeaders : HeaderMap;
  auth_config : AuthConfig;
  encryption : option EncryptionAdapter;
  cache_option : CacheOption;
  cacheTtlMs : Z;
  enableInFlightDedup : bool
}.

Record ApiClient : Type := mkClient {
  options : InternalOptions;
  auth : AuthManager;
  cache : option nat;          (* [null] when caching is off *)
  inflight : nat
}.

(** What [request] hands back: a promise that is already settled, or one
    that follows the promise [promise]. *)
Inductive Handle : Type :=
| Settles (r : Outcome ApiResponse)
| Follows (promise : nat).

(** The handle, and the execution [request] started, if it started one;
    that execution is the promise the caller named [fresh]. *)
Record Issued : Type := mkIssued {
  handle : Handle;
  spawned : option (Task ApiResponse)
}.

(** Body consumption: [arrayBuffer()], [text()] over a byte stream. *)
Fixpoint collect (l : list JsValue) (ending : option Thrown)
  : Outcome (list byte) :=
  match l with
  | [] => match ending with None => Fulfilled [] | Some e => Rejected e end
  | JBytes b :: l' =>
      match collect l' ending with
      | Fulfilled bs => Fulfilled (b ++ bs)%list
      | Rejected e => Rejected e
      end
  | _ :: _ => Rejected (type_error "Received non-Uint8Array chunk")
  end.

Definition arrayBuffer (r : Response) : Outcome (list byte) :=
  match resp_body r with
  | None => Fulfilled []
  | Some b => collect (chunks b) (failure b)
  end.

Definition text (r : Response) : Outcome string :=
  match arrayBuffer r with
  | Fulfilled bs => Fulfilled (string_of_list_byte bs)
  | Rejected e => Rejected e
  end.

(** [headers.get(name)] for a lower-case [name]. *)
Fixpoint header_get (name : string) (h : HeaderMap) : option string :=
  match h with
  | [] => None
  | (k, v) :: h' => if String.eqb name k then Some v else header_get name h'
  end.

(** A string option that passes [if (s)]. *)
Definition nonempty (s : option string) : option string :=
  match s with
  | Some x => if String.eqb x "" then None else Some x
  | None => None
  end.

Definition encodeJson (v : JsValue) : Outcome (list byte) :=
  match JSON_stringify v with
  | SText s => Fulfilled (list_byte_of_string s)
  | SUndefined => Fulfilled []        (* [encode(undefined)] is empty *)
  | SThrow m => Rejected (type_error m)
  end.

Definition methodToInit (method : HttpMethod) (body : JsValue)
  (encryption : option EncryptionAdapter) : Outcome (option BodyInit) :=
  match method with
  | GET | DELETE => Fulfilled None
  | FORMDATA => Fulfilled (Some (BodyValue body))
  | _ =>
      match encryption with
      | Some _ =>
          match encodeJson body with
          | Fulfilled data =>
              Fulfilled (Some (BodyBlob data "application/octet-stream"))
          | Rejected e => Rejected e
          end
      | None =>
          match JSON_stringify body with
          | SText s => Fulfilled (Some (BodyText s))
          | SUndefined => Fulfilled None
          | SThrow m => Rejected (type_error m)
          end
      end
  end.

Definition defaultHeadersFor (method : HttpMethod)
  (encryption : option EncryptionAdapter) : HeaderMap :=
  let headers : HeaderMap :=
    match method with
    | GET | DELETE | FORMDATA => []
    | _ =>
        [("content-type",
          match encryption with
          | Some _ => "application/octet-stream"
          | None => "application/json"
          end)]
    end in
  obj_set "accept"
    "application/json, application/octet-stream;q=0.8, */*;q=0.5" headers.

Definition call_fetch (f : Fetch) (target : string) (init : RequestInit)
  : Job Response :=
  fun w =>
    (emit (EvFetch target init) w,
     Done (f (List.length (transport_calls w)) target init)).

Definition call_encrypt (enc : EncryptionAdapter) (data : list byte)
  : Job (list byte) :=
  fun w => (emit (EvEncrypt data) w, Done (encrypt enc data)).

Definition call_decrypt (enc : EncryptionAdapter) (data : list byte)
  : Job (list byte) :=
  fun w => (emit (EvDecrypt data) w, Done (decrypt enc data)).

Section Client.
Context (P : Platform).

Definition buildUrl (baseUrl : option string) (path : string)
  (query : option JsObj) : Outcome string :=
  match URL_new P path
          (default (default "http://localhost" (window_origin P)) baseUrl)
  with
  | Rejected e => Rejected e
  | Fulfilled url =>
      Fulfilled
        (URL_toString P
           (fold_left
              (fun u kv =>
                 if nullish kv.2 then u
                 else searchParams_set P kv.1 (to_string kv.2) u)
              (default [] query) url))
  end.

Definition decodeJson (data : list byte) : Outcome JsValue :=
  JSON_parse P (string_of_list_byte data).

Definition json (r : Response) : Outcome JsValue :=
  match text r with
  | Fulfilled s => JSON_parse P s
  | Rejected e => Rejected e
  end.

(** [new ApiClient(options)] *)
Definition ApiClient_new (opts : option ClientOptions)
  : World -> World * ApiClient :=
  fun w =>
    let o := default no_options opts in
    let options :=
      mkOptions (co_baseUrl o) (co_gatewayPath o)
                (default (global_fetch P) (co_fetch o))
                (default [] (co_defaultHeaders o))
                (default no_auth (co_auth o))
                (co_encryption o)
                (co_cache o)
                (default 10000 (co_cacheTtlMs o))
                (default true (co_enableInFlightDedup o)) in
    let '(w1, auth) := AuthManager_new (auth_config options) w in
    let '(w2, cache) :=
      match cache_option options with
      | CacheOff => (w1, None)
      | CacheGiven ref => (w1, Some ref)
      | CacheUnset =>
          (set_next_ref S
             (set_caches (insert (next_ref w1) (LruCacheAdapter.new None)) w1),
           Some (next_ref w1))
      end in
    (set_next_ref S (set_registries (insert (next_ref w2) ∅) w2),
     mkClient options auth cache (next_ref w2)).

Definition setTokens (c : ApiClient) (accessToken refreshToken : JsValue)
  : Job unit :=
  await (AuthManager_setTokens P (auth c)
           [("accessToken", accessToken);
            ("refreshToken", coalesce refreshToken JNull)]).

Definition clearTokens (c : ApiClient) : Job unit :=
  await (AuthManager_clear (auth c)).

(** [{ ...this.options, encryption: enc }] read as [ClientOptions] *)
Definition with_encryption_options (o : InternalOptions)
  (enc : EncryptionAdapter) : ClientOptions :=
  mkClientOptions (baseUrl o) (gatewayPath o) (Some (fetch o))
                  (Some (defaultHeaders o)) (Some (auth_config o))
                  (Some enc) (cache_option o) (Some (cacheTtlMs o))
                  (Some (enableInFlightDedup o)).

Definition withEncryption (c : ApiClient) (secret : JsValue)
  : World -> World * ApiClient :=
  let enc := AesGcmEncryption P secret in
  ApiClient_new (Some (with_encryption_options (options c) enc)).

(** [body instanceof Blob]: the bytes of a body that is a Blob, be it
    the one [methodToInit] made or a Blob or File of the caller. *)
Definition as_blob (body : option BodyInit) : option (list byte) :=
  match body with
  | Some (BodyBlob data _) => Some data
  | Some (BodyValue (JBlob data _)) => Some data
  | _ => None
  end.

Definition fresh_id : Job string :=
  fun w => (set_entropy S w, Done (Fulfilled (nanoid P (entropy w) 12))).

(** The encryption block: a Blob payload is encrypted, and in gateway
    mode wrapped with its routing data and encrypted again. *)
Definition seal (c : ApiClient) (url : string) (method : HttpMethod)
  (init : RequestInit) : Job RequestInit :=
  match encryption (options c), as_blob (init_body init) with
  | Some enc, Some data =>
      arrayBuffer <- await (ret data) ;;
      encrypted <- await (call_encrypt enc arrayBuffer) ;;
      match nonempty (gatewayPath (options c)) with
      | Some _ =>
          id <- fresh_id ;;
          envelope <- lift (encodeJson
                        (JObj [("id", JStr id);
                               ("url", JStr url);
                               ("method", JStr (method_name method));
                               ("headers",
                                JObj (map (fun kv => (kv.1, JStr kv.2))
                                          (init_headers init)));
                               ("payload", JBytes encrypted)])) ;;
          cipher <- await (call_encrypt enc envelope) ;;
          ret (mkInit (init_method init) (init_headers init)
                      (init_signal init)
                      (Some (BodyBlob cipher "application/octet-stream")))
      | None =>
          ret (mkInit (init_method init) (init_headers init)
                      (init_signal init)
                      (Some (BodyBlob encrypted "application/octet-stream")))
      end
  | _, _ => ret init
  end.

(** Where the call goes: the gateway when one is configured. *)
Definition target_of (c : ApiClient) (url : string) : Job string :=
  match nonempty (gatewayPath (options c)) with
  | Some g => lift (buildUrl (baseUrl (options c)) g None)
  | None => ret url
  end.

(** The [try] block of [execute] up to the transport call: the init
    and the target the call will be made with. *)
Definition prepare (c : ApiClient) (url : string) (method : HttpMethod)
  (req : ApiRequest) (headers : HeaderMap) : Job (string * RequestInit) :=
  body <- lift (methodToInit method (req_body req) (encryption (options c))) ;;
  init <- seal c url method
            (mkInit (match method with FORMDATA => "POST" | m => method_name m end)
                    headers (req_signal req) body) ;;
  target <- target_of c url ;;
  ret (target, init).

(** The [try] block of [execute] that ends in the transport call. *)
Definition transport (c : ApiClient) (url : string) (method : HttpMethod)
  (req : ApiRequest) (headers : HeaderMap) : Job Response :=
  call <- prepare c url method req headers ;;
  await (call_fetch (fetch (options c)) call.1 call.2).

Definition relay (req : ApiRequest) (response : Response) : Job ApiResponse :=
  try_catch
    (await (streamResponse response
              (default no_handlers (req_streamHandlers req))) ;;;
     ret (Success (resp_status response) (resp_headers response) JUndefined))
    (fun e =>
       ret (Failure (resp_status response) (Some (resp_headers response))
                    (makeErrorShape (toApiError e "ERR_STREAM")))).

Definition decode (c : ApiClient) (response : Response) : Job ApiResponse :=
  try_catch
    (let contentType :=
       default "" (header_get "content-type" (resp_headers response)) in
     data <-
       match includes "application/octet-stream" contentType,
             encryption (options c) with
       | true, Some enc =>
           buf <- await (lift (arrayBuffer response)) ;;
           dec <- await (call_decrypt enc buf) ;;
           lift (decodeJson dec)
       | _, _ =>
           if includes "application/json" contentType then
             await (lift (json response))
           else
             text <- await (lift (text response)) ;;
             ret (JStr text)
       end ;;
     if negb (resp_ok response) then
       let shape : JsObj :=
         match data with
         | JObj props =>
             if obj_has "code" props then props
             else [("code", JStr "ERR_HTTP");
                   ("message", JStr "Request failed");
                   ("details", data)]
         | _ => [("code", JStr "ERR_HTTP");
                 ("message", JStr "Request failed");
                 ("details", data)]
         end in
       ret (Failure (resp_status response) (Some (resp_headers response))
                    shape)
     else
       ret (Success (resp_status response) (resp_headers response) data))
    (fun e =>
       ret (Failure (resp_status response) (Some (resp_headers response))
                    (makeErrorShape (toApiError e "ERR_DECODE")))).

(** The headers before the Auth Coordinator is asked. *)
Definition merged_headers (c : ApiClient) (method : HttpMethod)
  (req : ApiRequest) : HeaderMap :=
  spread (spread (defaultHeadersFor method (encryption (options c)))
                 (defaultHeaders (options c)))
         (default [] (req_headers req)).

Definition with_bearer (token : JsValue) (headers : HeaderMap) : HeaderMap :=
  if truthy token then
    obj_set "authorization" ("Bearer " +:+ to_string token) headers
  else headers.

(** What [execute] does once the Auth Coordinator has answered. *)
Definition execute_with (c : ApiClient) (url : string) (method : HttpMethod)
  (req : ApiRequest) (token : JsValue) : Job ApiResponse :=
  let headers := with_bearer token (merged_headers c method req) in
  sent <-
    try_catch
      (response <- transport c url method req headers ;;
       ret (inl response))
      (fun e =>
         ret (inr (Failure 0 None
                     (makeErrorShape (toApiError e "ERR_NETWORK"))))) ;;
  match sent with
  | inr failed => ret failed
  | inl response =>
      if req_stream req then relay req response else decode c response
  end.

Definition execute (c : ApiClient) (url : string) (method : HttpMethod)
  (req : ApiRequest) : Job ApiResponse :=
  token <- await (getValidAccessToken P (auth c)) ;;
  execute_with c url method req token.

Definition cacheKey_of (method : HttpMethod) (url : string)
  (req : ApiRequest) : Outcome string :=
  match req_cacheKey req with
  | Some k => Fulfilled k
  | None =>
      match JSON_stringify (coalesce (req_body req) JNull) with
      | SText s =>
          Fulfilled (method_name method +:+ ":" +:+ url +:+ ":" +:+ s)
      | SUndefined =>
          Fulfilled (method_name method +:+ ":" +:+ url +:+ ":undefined")
      | SThrow m => Rejected (type_error m)
      end
  end.

(** The callback of [execute(..).then(res => ..)]:
    [if (this.cache && res.ok) this.cache.set(cacheKey, res, ttl)]. *)
Definition cache_write (c : ApiClient) (cacheKey : string) (res : ApiResponse)
  : Job unit :=
  match cache c with
  | Some ref =>
      if ok res then
        cache_set ref cacheKey res (Some (cacheTtlMs (options c)))
      else ret tt
  | None => ret tt
  end.

(** [execute(..).then(res => ..)]: the cache write on settlement. *)
Definition exec (c : ApiClient) (url : string) (method : HttpMethod)
  (req : ApiRequest) (cacheKey : string) : Job ApiResponse :=
  res <- await (execute c url method req) ;;
  cache_write c cacheKey res ;;;
  ret res.

(** [if (this.cache) { const cached = this.cache.get(cacheKey); .. }] *)
Definition cache_lookup (c : ApiClient) (cacheKey : string) (w : World)
  : World * option ApiResponse :=
  match cache c with
  | Some ref =>
      let '(hit, c') :=
        LruCacheAdapter.get (now w) cacheKey (cache_at ref w) in
      (set_caches (insert ref c') w, hit)
  | None => (w, None)
  end.

(** [if (enableInFlightDedup) { const inFlight = this.inflight.get(..) }] *)
Definition registered (c : ApiClient) (cacheKey : string) (w : World)
  : option nat :=
  if enableInFlightDedup (options c) then
    InFlightDeduper.registry_at (inflight c) w !! cacheKey
  else None.

(** [if (enableInFlightDedup) this.inflight.set(cacheKey, exec)] *)
Definition register (c : ApiClient) (cacheKey : string) (promise : nat)
  (w : World) : World :=
  if enableInFlightDedup (options c) then
    (InFlightDeduper.set (inflight c) cacheKey promise w).1
  else w.

(** [request(req)]. It has no [await] of its own: it runs in one go up
    to the first suspension of [execute]. [fresh] names the promise
    [exec]. *)
Definition request (c : ApiClient) (req : ApiRequest) (fresh : nat)
  : World -> World * Issued :=
  fun w =>
    let method := default GET (req_method req) in
    match buildUrl (baseUrl (options c)) (req_url req) (req_query req) with
    | Rejected e => (w, mkIssued (Settles (Rejected e)) None)
    | Fulfilled url =>
        match cacheKey_of method url req with
        | Rejected e => (w, mkIssued (Settles (Rejected e)) None)
        | Fulfilled cacheKey =>
            match (cache_lookup c cacheKey w).2 with
            | Some res =>
                ((cache_lookup c cacheKey w).1,
                 mkIssued (Settles (Fulfilled res)) None)
            | None =>
                match registered c cacheKey (cache_lookup c cacheKey w).1 with
                | Some inFlight =>
                    ((cache_lookup c cacheKey w).1,
                     mkIssued (Follows inFlight) None)
                | None =>
                    let started :=
                      exec c url method req cacheKey
                           (cache_lookup c cacheKey w).1 in
                    (register c cacheKey fresh started.1,
                     mkIssued (Follows fresh) (Some started.2))
                end
            end
        end
    end.
End Client.


(* ===================================================================== *)
(** * The event loop *)
(* ===================================================================== *)

(** One thread runs everything. A turn of the loop is one of: code that
    creates a client or calls one of its operations; the resumption of a
    suspended execution; or time passing. When a turn is over, the
    [finally] callbacks of the promises that have settled run, before any
    other turn. *)
Inductive Action : Type :=
| New (opts : option ClientOptions)
| Encrypted (i : nat) (secret : JsValue)          (* clients[i].withEncryption *)
| Call (i : nat) (req : ApiRequest)               (* clients[i].request *)
| SetTokens (i : nat) (accessToken refreshToken : JsValue)
| ClearTokens (i : nat)
| Resume (promise : nat)
| Chore (j : nat)
| Elapse (d : Z).

(** [pending] are the executions of [request] suspended at an await,
    by the promise each one is; [settled] the promises that have settled;
    [chores] the token operations under way; [handles] what each
    [request] call returned, in call order; [spent] counts, for each
    execution, the calls it has handed to the transport. *)
Record Loop : Type := mkLoop {
  world : World;
  clients : list ApiClient;
  pending : gmap nat (Task ApiResponse);
  settled : gmap nat (Outcome ApiResponse);
  chores : list (Task unit);
  next_promise : nat;
  handles : list Handle;
  spent : gmap nat nat
}.

Definition calls (w : World) : nat := List.length (transport_calls w).

Definition boot (t : Z) : Loop :=
  mkLoop (mkWorld t 0 0 ∅ ∅ ∅ [] []) [] ∅ ∅ [] 0 [] ∅.

(** Where promise [p] stands after running up to [t]. *)
Definition park (p : nat) (t : Task ApiResponse)
  (pending : gmap nat (Task ApiResponse))
  (settled : gmap nat (Outcome ApiResponse))
  : gmap nat (Task ApiResponse) * gmap nat (Outcome ApiResponse) :=
  match t with
  | Done r => (delete p pending, <[p := r]> settled)
  | Await _ _ => (<[p := t]> pending, settled)
  end.

(** The code of a turn. *)
Definition turn (P : Platform) (a : Action) (L : Loop) : option Loop :=
  match a with
  | New opts =>
      let '(w, c) := ApiClient_new P opts (world L) in
      Some (mkLoop w (clients L ++ [c])%list (pending L) (settled L)
                   (chores L) (next_promise L) (handles L) (spent L))
  | Encrypted i secret =>
      c ← clients L !! i;
      let '(w, c') := withEncryption P c secret (world L) in
      Some (mkLoop w (clients L ++ [c'])%list (pending L) (settled L)
                   (chores L) (next_promise L) (handles L) (spent L))
  | Call i req =>
      c ← clients L !! i;
      let p := next_promise L in
      let '(w, issued) := request P c req p (world L) in
      match spawned issued with
      | None =>
          Some (mkLoop w (clients L) (pending L) (settled L) (chores L)
                       (S p) (handles L ++ [handle issued])%list (spent L))
      | Some t =>
          let '(pend, sett) := park p t (pending L) (settled L) in
          Some (mkLoop w (clients L) pend sett (chores L) (S p)
                       (handles L ++ [handle issued])%list
                       (<[p := (calls w - calls (world L))%nat]> (spent L)))
      end
  | SetTokens i accessToken refreshToken =>
      c ← clients L !! i;
      let started := setTokens P c accessToken refreshToken (world L) in
      Some (mkLoop started.1 (clients L) (pending L) (settled L)
                   (chores L ++ [started.2])%list (next_promise L)
                   (handles L) (spent L))
  | ClearTokens i =>
      c ← clients L !! i;
      let started := clearTokens c (world L) in
      Some (mkLoop started.1 (clients L) (pending L) (settled L)
                   (chores L ++ [started.2])%list (next_promise L)
                   (handles L) (spent L))
  | Resume p =>
      t ← pending L !! p;
      match t with
      | Done _ => None
      | Await eff next =>
          let w := eff (world L) in
          let '(pend, sett) := park p (next (world L)) (pending L) (settled L) in
          Some (mkLoop w (clients L) pend sett (chores L) (next_promise L)
                       (handles L)
                       (<[p := (default 0%nat (spent L !! p)
                                + (calls w - calls (world L)))%nat]> (spent L)))
      end
  | Chore j =>
      t ← chores L !! j;
      match t with
      | Done _ => None
      | Await eff next =>
          Some (mkLoop (eff (world L)) (clients L) (pending L) (settled L)
                       (<[j := next (world L)]> (chores L)) (next_promise L)
                       (handles L) (spent L))
      end
  | Elapse d =>
      if 0 <=? d then
        Some (mkLoop (set_now (Z.add d) (world L)) (clients L) (pending L)
                     (settled L) (chores L) (next_promise L) (handles L)
                     (spent L))
      else None
  end.

(** A [finally] callback whose promise has settled. *)
Definition due (settled : gmap nat (Outcome ApiResponse))
  (x : nat * nat * string) : Prop :=
  is_Some (settled !! x.1.1).

(** One such callback runs: it leaves the pending callbacks, deletes
    its key, and the promise [finally] returned settles as the promise
    did -- a rejection that nobody handles. *)
Definition finally_runs (settled : gmap nat (Outcome ApiResponse))
  (w : World) (x : nat * nat * string) : World :=
  let w' :=
    InFlightDeduper.on_settled x.1.2 x.2
      (set_reactions (filter (fun y => y <> x)) w) in
  match settled !! x.1.1 with
  | Some (Rejected e) => emit (EvUnhandledRejection e) w'
  | _ => w'
  end.

Definition set_world (w : World) (L : Loop) : Loop :=
  mkLoop w (clients L) (pending L) (settled L) (chores L) (next_promise L)
         (handles L) (spent L).

(** The end of a turn: the callbacks that are due run, in the order in
    which they were registered. *)
Definition checkpoint (L : Loop) : Loop :=
  set_world (fold_left (finally_runs (settled L))
                       (filter (due (settled L)) (reactions (world L)))
                       (world L)) L.

Definition step (P : Platform) (a : Action) (L : Loop) : option Loop :=
  checkpoint <$> turn P a L.

Fixpoint run (P : Platform) (acts : list Action) (L : Loop) : option Loop :=
  match acts with
  | [] => Some L
  | a :: acts' => L' ← step P a L; run P acts' L'
  end.

(** The states the loop can be in. *)
Inductive reachable (P : Platform) : Loop -> Prop :=
| reachable_boot t : reachable P (boot t)
| reachable_step a L L' :
    reachable P L -> step P a L = Some L' -> reachable P L'.

(** What the caller holding [h] has got so far. *)
Definition observed (L : Loop) (h : Handle) : option (Outcome ApiResponse) :=
  match h with
  | Settles r => Some r
  | Follows p => settled L !! p
  end.

(* ===================================================================== *)
(** * Scenarios *)
(* ===================================================================== *)

(** Concrete collaborators on which the definitions can be run. *)
Module Scenario.

(** A URL as its text up to the query, and the query parameters. *)
Definition render (u : string * list (string * string)) : string :=
  match u.2 with
  | [] => u.1
  | q => u.1 +:+ "?" +:+ join "&" (map (fun kv => kv.1 +:+ "=" +:+ kv.2) q)
  end.

(** Resolution of an absolute path against an origin; anything else is
    refused. *)
Definition resolve (path base : string)
  : Outcome (string * list (string * string)) :=
  if String.prefix "/" path then Fulfilled (base +:+ path, [])
  else Rejected (type_error "Invalid URL").

Definition parse_table (table : list (string * JsValue)) (s : string)
  : Outcome JsValue :=
  match obj_get s table with
  | JUndefined => Rejected (Raised (JObj [("name", JStr "SyntaxError");
                                          ("message", JStr "Unexpected token")]))
  | v => Fulfilled v
  end.

(** Two tokens are known: one long expired, one good for long. *)
Definition jwt (token : JsValue) : Outcome JsObj :=
  match token with
  | JStr "expired.jwt" => Fulfilled [("exp", JNum 1)]
  | JStr "valid.jwt" => Fulfilled [("exp", JNum 4102444800)]
  | _ => Rejected (type_error "Invalid JWT")
  end.

Definition nonce : list byte := repeat Byte.x00 12.

(** Stands for AES-GCM: a nonce in front of the reversed payload. *)
Definition sealing (secret : JsValue) : EncryptionAdapter :=
  mkEncryption (fun d => Fulfilled (nonce ++ rev d)%list)
               (fun d => Fulfilled (rev (drop 12 d))).

Definition unreachable : Fetch :=
  fun _ _ _ => Rejected (type_error "fetch failed").

Definition platform (table : list (string * JsValue)) : Platform :=
  mkPlatform (string * list (string * string)) resolve
             (fun k v u => (u.1, obj_set k v u.2)) render None
             (parse_table table) jwt sealing
             (fun n _ => "id" +:+ pretty (Z.of_nat n)) unreachable.

Definition user_json : string :=
  "{" +:+ dquote +:+ "userId" +:+ dquote +:+ ":" +:+ dquote +:+ "u1"
      +:+ dquote +:+ "}".

Definition std : Platform :=
  platform [(user_json, JObj [("userId", JStr "u1")])].

Definition json_body (s : string) : option BodyStream :=
  Some (mkBody [JBytes (list_byte_of_string s)] None).

(** A server that answers every call with 200 and the user document. *)
Definition serving : Fetch :=
  fun _ _ _ =>
    Fulfilled (mkResponse 200 [("content-type", "application/json")]
                          (json_body user_json)).

Definition get (url : string) : ApiRequest :=
  mkRequest url (Some GET) None None JUndefined None None false None.

Definition post (url : string) (body : JsValue) : ApiRequest :=
  mkRequest url (Some POST) None None body None None false None.

Definition upload (url : string) (body : JsValue) : ApiRequest :=
  mkRequest url (Some FORMDATA) None None body None None false None.

Definition options_for (f : Fetch) : ClientOptions :=
  mkClientOptions (Some "https://api.example.com") None (Some f) None None
                  None CacheUnset None None.

(** An expiry predicate that finds every token expired, and a refresh
    callback whose refresh endpoint refuses. *)
Definition refusing_auth : AuthConfig :=
  mkAuthConfig None
    (Some (fun _ => Rejected (Raised (JObj [("message", JStr "refresh refused")]))))
    (Some (fun _ _ => true)).

Definition options_refusing (f : Fetch) : ClientOptions :=
  mkClientOptions (Some "https://api.example.com") None (Some f) None
                  (Some refusing_auth) None CacheUnset None None.

Definition gateway_options (f : Fetch) : ClientOptions :=
  mkClientOptions (Some "https://api.example.com") (Some "/gateway") (Some f)
                  None None (Some (sealing (JStr "s3cret"))) CacheUnset None
                  None.

(** Resume promise [p] as long as it is suspended ([n] turns at most). *)
Fixpoint drive (P : Platform) (n : nat) (p : nat) (L : Loop) : Loop :=
  match n with
  | O => L
  | S n' =>
      match step P (Resume p) L with
      | Some L' => drive P n' p L'
      | None => L
      end
  end.

Fixpoint drive_chore (P : Platform) (n : nat) (j : nat) (L : Loop) : Loop :=
  match n with
  | O => L
  | S n' =>
      match step P (Chore j) L with
      | Some L' => drive_chore P n' j L'
      | None => L
      end
  end.

(** Handlers that are all there and only listen. *)
Definition listening : StreamHandlers :=
  mkHandlers (Some (fun _ => None)) (Some (fun _ => None))
             (Some (fun _ => None)) (Some (fun _ => None)).

Definition world0 : World := mkWorld 1000 0 0 ∅ ∅ ∅ [] [].

(** A 200 response whose body delivers the given chunks. *)
Definition streaming (chunks : list JsValue) : Response :=
  mkResponse 200 [] (Some (mkBody chunks None)).

(** A client over [serving] with its default cache, and the world in
    which that cache holds the answer to GET /users/me. *)
Definition cached_client : ApiClient :=
  (ApiClient_new std (Some (options_for serving)) world0).2.

Definition user_result : ApiResponse :=
  Success 200 [("content-type", "application/json")]
          (JObj [("userId", JStr "u1")]).

Definition cached_world : World :=
  (cache_set 1 "GET:https://api.example.com/users/me:null" user_result
             (Some 10000)
             (ApiClient_new std (Some (options_for serving)) world0).1).1.

(** A POST that carries a header of the caller. *)
Definition keyed_post : ApiRequest :=
  mkRequest "/users/42" (Some POST) (Some [("x-api-key", "k-123")]) None
            (JObj [("name", JStr "a")]) None None false None.

(** The run of the gateway example: an encrypting client behind a
    gateway sends [keyed_post]. *)
Definition gateway_run : option Loop :=
  drive std 20 0
    <$> run std [New (Some (gateway_options serving)); Call 0 keyed_post]
            (boot 1000).

(** Target and headers of every call handed to the transport. *)
Definition on_the_wire (L : Loop) : list (string * HeaderMap) :=
  omap (fun e => match e with
                 | EvFetch target init => Some (target, init_headers init)
                 | _ => None
                 end)
       (trace (world L)).

(** A client whose stored token has expired and that has no refresh
    callback, with the world it lives in. *)
Definition stale_client : ApiClient :=
  (ApiClient_new std (Some (options_for serving)) world0).2.

Definition stale_world : World :=
  set_stores (insert 0%nat [("accessToken", JStr "expired.jwt");
                            ("refreshToken", JNull)])
             (ApiClient_new std (Some (options_for serving)) world0).1.


(** A client whose token has expired and whose refresh endpoint
    refuses: the tokens are set, then GET /users/me is requested and the
    execution is resumed until it settles. *)
Definition refused_run : option Loop :=
  L ← run std [New (Some (options_refusing serving));
               SetTokens 0 (JStr "expired.jwt") (JStr "refresh-1")]
          (boot 1000);
  L ← step std (Call 0 (get "/users/me")) (drive_chore std 20 0 L);
  Some (drive std 20 0 L).


Definition refusal : Thrown :=
  Raised (JObj [("message", JStr "refresh refused")]).

(** The run of the first example: a client is created, GET /users/me
    is requested and its execution resumed until it settles. *)
Definition served_run : Loop :=
  drive std 20 0
    (default (boot 1000)
       (run std [New (Some (options_for serving)); Call 0 (get "/users/me")]
            (boot 1000))).


Definition users_me_key : string := "GET:https://api.example.com/users/me:null".

End Scenario.

(* ===================================================================== *)
(** * Vocabulary of the properties *)
(* ===================================================================== *)

(** Append several events to the trace. *)
Definition emit_all (evs : list Event) (w : World) : World :=
  mkWorld (now w) (entropy w) (next_ref w) (stores w) (caches w)
          (registries w) (reactions w) (trace w ++ evs)%list.

(** The handler invocation [h?.(..)] makes, if any. *)
Definition heard {A} (h : option (Callback A)) (call : HandlerCall)
  : list Event :=
  match h with
  | Some _ => [EvHandler call]
  | None => []
  end.

(** A handler that never throws. *)
Definition quiet {A} (h : option (Callback A)) : Prop :=
  forall f x, h = Some f -> f x = None.

(** What the relay does as the chunks [l] arrive: a read for each, and
    after the read the handler call for the chunk it gave, when the chunk
    passes [deliver]. *)
Definition arrivals (deliver : JsValue -> bool)
  (onChunk : option (Callback JsValue)) (l : list JsValue) : list Event :=
  flat_map (fun v => EvRead :: (if deliver v then heard onChunk (CallChunk v)
                                else []))
           l.

(** What the relay does over a stream that ends gracefully, when the
    chunks that pass [deliver] are the ones handed to [onChunk]: onStart,
    then the reader is taken and the chunks are read and handed on one by
    one, then the read that finds the end, onComplete, and the release of
    the reader. *)
Definition relayed (deliver : JsValue -> bool) (response : Response)
  (handlers : StreamHandlers) : list Event :=
  (heard (onStart handlers)
         (CallStart (resp_status response) (resp_headers response)) ++
   match resp_body response with
   | None => heard (onComplete handlers) CallComplete
   | Some body =>
       EvGetReader ::
       arrivals deliver (onChunk handlers) (chunks body) ++
       EvRead :: heard (onComplete handlers) CallComplete ++ [EvReleaseLock]
   end)%list.

(** A chunk that holds at least one byte. *)
Definition non_empty_chunk (v : JsValue) : bool :=
  match v with
  | JBytes (_ :: _) => true
  | _ => false
  end.

(** ** What the code of a client does to the world *)

(** Every entry of every cache holds a Success. *)
Definition cache_ok (c : LruCache) : Prop :=
  Forall (fun ke => ok (value ke.2) = true) (lru_entries c).

Definition caches_ok (w : World) : Prop :=
  forall ref c, caches w !! ref = Some c -> cache_ok c.

(** The elementary changes the asynchronous code of client [c] makes:
    an event emitted (one that satisfies [Φ]), an id drawn, the tokens
    of its own storage replaced, a Success written to its own cache. *)
Inductive prim (Φ : Event -> Prop) (c : ApiClient) : World -> World -> Prop :=
| prim_emit e w : Φ e -> prim Φ c w (emit e w)
| prim_entropy w : prim Φ c w (set_entropy S w)
| prim_store tokens w :
    prim Φ c w (set_stores (insert (storage (auth c)) tokens) w)
| prim_cache ref key v ttl w :
    cache c = Some ref -> ok v = true ->
    prim Φ c w
      (set_caches
         (insert ref (LruCacheAdapter.set (now w) key v ttl (cache_at ref w)))
         w).

Definition does (Φ : Event -> Prop) (c : ApiClient)
  : World -> World -> Prop := rtc (prim Φ c).

Definition any_event (e : Event) : Prop := True.
Definition no_fetch (e : Event) : Prop := is_fetch e = false.



(** Where [target_of] may send a call meant for [url]. *)
Definition target_ok (P : Platform) (c : ApiClient) (url target : string)
  : Prop :=
  match nonempty (gatewayPath (options c)) with
  | Some g => buildUrl P (baseUrl (options c)) g None = Fulfilled target
  | None => target = url
  end.

(** The code of a client leaves the clock, the allocator, the
    registries and the pending callbacks alone, and every storage and
    cache but its own. *)
Definition framed (c : ApiClient) (w w' : World) : Prop :=
  now w' = now w /\ next_ref w' = next_ref w /\
  registries w' = registries w /\ reactions w' = reactions w /\
  (forall r, r <> storage (auth c) -> stores w' !! r = stores w !! r) /\
  (forall r, cache c <> Some r -> caches w' !! r = caches w !! r).

(** Settled with a Result: not a rejection. *)
Definition fulfilled {A} (r : Outcome A) : Prop := exists a, r = Fulfilled a.

(** How an execution stands to the transport when it has run: it handed
    over one call, with headers [headers] and a target [target_of]
    allows, among events that are no transport calls; or it handed over
    none and its Result is the failure with status 0. *)
Definition called_once (P : Platform) (c : ApiClient) (url : string)
  (headers : HeaderMap) (before after : list Event) : Prop :=
  exists evs target init rest,
    after = (before ++ evs ++ EvFetch target init :: rest)%list /\
    Forall no_fetch evs /\ Forall no_fetch rest /\
    init_headers init = headers /\ target_ok P c url target.

(** ** Two clients *)

(** What can be seen through client [c] is as it was: the tokens of its
    storage and the content of its cache. *)
Definition untouched (c : ApiClient) (w w' : World) : Prop :=
  MemoryTokenStorage.tokens_at (storage (auth c)) w'
    = MemoryTokenStorage.tokens_at (storage (auth c)) w /\
  (forall r, cache c = Some r -> cache_at r w' = cache_at r w).

(** The objects of [c] were allocated in [w]. *)
Definition allocated (c : ApiClient) (w : World) : Prop :=
  (storage (auth c) < next_ref w)%nat /\
  (forall r, cache c = Some r -> (r < next_ref w)%nat) /\
  (inflight c < next_ref w)%nat.

(** Two clients that share no storage, cache or registry. *)
Definition apart (c c' : ApiClient) : Prop :=
  storage (auth c) <> storage (auth c') /\
  (forall r r', cache c = Some r -> cache c' = Some r' -> r <> r') /\
  inflight c <> inflight c'.

(** ** The event loop *)

(** Transport calls made so far by the execution that is promise [p]. *)
Definition spent_of (L : Loop) (p : nat) : nat := default 0%nat (spent L !! p).

(** A suspended execution: it is code of some client, and may hand at
    most [n] more calls to the transport. *)
Definition task_ok (n : nat) (t : Task ApiResponse) : Prop :=
  exists c, within (does any_event c) t /\ spends calls n t.

(** What holds of every state of the loop. *)
Record sound (L : Loop) : Prop := mkSound {
  sound_caches : caches_ok (world L);
  sound_pending :
    forall p t, pending L !! p = Some t -> task_ok (1 - spent_of L p) t;
  sound_spent : forall p, (spent_of L p <= 1)%nat;
  sound_chores :
    Forall (fun t => exists c, within (does any_event c) t) (chores L);
  sound_callback :
    forall p ref key,
      (p, ref, key) ∈ reactions (world L) ->
      InFlightDeduper.registry_at ref (world L) !! key = Some p /\
      (is_Some (pending L !! p) \/ is_Some (settled L !! p));
  sound_entry :
    forall ref key p,
      InFlightDeduper.registry_at ref (world L) !! key = Some p ->
      (p, ref, key) ∈ reactions (world L);
  sound_nodup : NoDup (reactions (world L));
  sound_promise :
    forall p, is_Some (pending L !! p) \/ is_Some (settled L !! p) ->
              (p < next_promise L)%nat;
  sound_once : forall p, is_Some (pending L !! p) -> settled L !! p = None;
  sound_clients :
    forall c, c ∈ clients L -> (inflight c < next_ref (world L))%nat;
  sound_refs :
    forall ref, (next_ref (world L) <= ref)%nat ->
                registries (world L) !! ref = None
}.

(** No [finally] callback waits for a promise that has settled. *)
Definition live (L : Loop) : Prop :=
  forall x, x ∈ reactions (world L) -> is_Some (pending L !! x.1.1).

(* ===================================================================== *)
(** * crypto.ts *)
(* ===================================================================== *)

(** WebCrypto as [AesGcmEncryption] uses it: [crypto.subtle.importKey]
    for raw PBKDF2 key material, [crypto.subtle.deriveKey] with a salt
    and an iteration count (SHA-256, to an AES-GCM key of 256 bits),
    [crypto.getRandomValues] on a new array of a given length -- its
    first argument is the state of the generator --, and AES-GCM
    [encrypt] and [decrypt] under a key and an iv. *)
Record WebCrypto : Type := mkWebCrypto {
  KeyMaterial : Type;
  CryptoKey : Type;
  importKey : list byte -> Outcome KeyMaterial;
  deriveKey : list byte -> Z -> KeyMaterial -> Outcome CryptoKey;
  getRandomValues : nat -> nat -> list byte;
  subtle_encrypt : CryptoKey -> list byte -> list byte -> Outcome (list byte);
  subtle_decrypt : CryptoKey -> list byte -> list byte -> Outcome (list byte)
}.

(** [string | ArrayBuffer | Uint8Array] *)
Inductive Secret : Type :=
| SecretText (s : string)
| SecretBuffer (b : list byte)
| SecretBytes (b : list byte).

(** [a.slice(from, to)] for indices that are not negative; without [to]
    the slice runs to the end. *)
Definition slice (from : nat) (to : option nat) (a : list byte) : list byte :=
  drop from (take (default (List.length a) to) a).

Module AesGcm.
Section AesGcm.
Context (C : WebCrypto).

Definition concat (a b : list byte) : list byte := (a ++ b)%list.

(** The instance: its key promise, as what that promise settles as.
    Deriving the key reads and changes nothing of the world. *)
Record AesGcmEncryption : Type := mkAesGcm {
  keyPromise : Outcome (CryptoKey C);
  ivLength : nat
}.

Definition derive (secret : Secret) : Outcome (CryptoKey C) :=
  let data :=
    match secret with
    | SecretText s => list_byte_of_string s       (* textEncoder.encode *)
    | SecretBytes b => b
    | SecretBuffer b => b                         (* new Uint8Array(secret) *)
    end in
  match importKey C data with
  | Rejected e => Rejected e
  | Fulfilled keyMaterial =>
      deriveKey C (list_byte_of_string "secure-api-client") 100000 keyMaterial
  end.

Definition new (secret : Secret) : AesGcmEncryption :=
  mkAesGcm (derive secret) 12.

Definition random (n : nat) : Job (list byte) :=
  fun w => (set_entropy S w, Done (Fulfilled (getRandomValues C (entropy w) n))).

Definition encrypt (a : AesGcmEncryption) (data : list byte)
  : Job (list byte) :=
  key <- await (lift (keyPromise a)) ;;
  iv <- random (ivLength a) ;;
  buf <- await (lift (subtle_encrypt C key iv data)) ;;
  ret (concat iv buf).

Definition decrypt (a : AesGcmEncryption) (data : list byte)
  : Job (list byte) :=
  key <- await (lift (keyPromise a)) ;;
  let iv := slice 0 (Some (ivLength a)) data in
  let ciphertext := slice (ivLength a) None data in
  buf <- await (lift (subtle_decrypt C key iv ciphertext)) ;;
  ret buf.
End AesGcm.

(** A stand-in for WebCrypto to run the definitions on: it takes any
    secret but the empty one, the key is the length of the secret, the
    generator counts, and the cipher adds the first byte of the iv and
    the key to every byte. *)
Module Toy.
Definition shift (k : nat) (iv : list byte) : N :=
  (N.of_nat k + match iv with x :: _ => Byte.to_N x | [] => 0 end)%N.

Definition add (n : N) (x : byte) : byte :=
  default Byte.x00 (Byte.of_N ((Byte.to_N x + n) mod 256)%N).

Definition sub (n : N) (x : byte) : byte :=
  default Byte.x00 (Byte.of_N ((Byte.to_N x + 256 - n mod 256) mod 256)%N).

Definition crypto : WebCrypto :=
  mkWebCrypto (list byte) nat
    (fun data => match data with
                 | [] => Rejected (type_error "empty key")
                 | _ => Fulfilled data
                 end)
    (fun _ _ keyMaterial => Fulfilled (List.length keyMaterial))
    (fun state n => repeat (add (N.of_nat state) Byte.x01) n)
    (fun key iv data => Fulfilled (map (add (shift key iv)) data))
    (fun key iv data => Fulfilled (map (sub (shift key iv)) data)).
End Toy.
End AesGcm.

(* ===================================================================== *)
(** * More scenarios and vocabulary *)
(* ===================================================================== *)

(** Auth Coordinators over the token storage 0: one whose refresh
    callback answers with a new access token and no refresh token, one
    whose callback refuses; and a world in which that storage holds an
    expired access token and a refresh token. *)
Module RefreshScenario.
Definition renewing : AuthManager :=
  mkAuth 0 (Some (fun _ => Fulfilled [("accessToken", JStr "valid.jwt")]))
         defaultIsTokenExpired.

Definition refusing : AuthManager :=
  mkAuth 0 (Some (fun _ => Rejected Scenario.refusal)) defaultIsTokenExpired.

Definition world : World :=
  set_stores (insert 0%nat [("accessToken", JStr "expired.jwt");
                            ("refreshToken", JStr "refresh-1")])
             Scenario.world0.
End RefreshScenario.

Definition is_release (e : Event) : bool :=
  match e with EvReleaseLock => true | _ => false end.

(** Handlers whose chunk handler throws on the chunk that holds the one
    byte 2. *)
Definition choking : StreamHandlers :=
  mkHandlers None
    (Some (fun v => match v with
                    | JBytes [Byte.x02] => Some Scenario.refusal
                    | _ => None
                    end))
    (Some (fun _ => None)) (Some (fun _ => None)).

(** What a Result returned for [response] may be: a Success only
    when [allowed], with the status and headers of the response; a
    Failure with them and an error that has a [code]. *)
Definition answers (allowed : bool) (data_ok : JsValue -> Prop)
  (response : Response) (r : Outcome ApiResponse) : Prop :=
  match r with
  | Fulfilled (Success s h d) =>
      allowed = true /\ s = resp_status response /\
      h = resp_headers response /\ data_ok d
  | Fulfilled (Failure s h e) =>
      s = resp_status response /\ h = Some (resp_headers response) /\
      obj_has "code" e = true
  | Rejected _ => False
  end.

(** The method as it is put on the wire. *)
Definition wire_method (method : HttpMethod) : string :=
  match method with FORMDATA => "POST" | m => method_name m end.

(** What [init] may be when it is handed to the transport for a request
    [req] made with [method] by a client with the capability
    [encryption]. *)
Definition on_wire_ok (method : HttpMethod) (req : ApiRequest)
  (encryption : option EncryptionAdapter) (init : RequestInit) : Prop :=
  init_method init = wire_method method /\
  init_signal init = req_signal req /\
  match method with
  | GET | DELETE => init_body init = None
  | FORMDATA =>
      match encryption, req_body req with
      | Some _, JBlob _ _ =>
          exists cipher,
            init_body init = Some (BodyBlob cipher "application/octet-stream")
      | _, _ => init_body init = Some (BodyValue (req_body req))
      end
  | _ =>
      match encryption with
      | Some _ =>
          exists cipher,
            init_body init = Some (BodyBlob cipher "application/octet-stream")
      | None =>
          init_body init
          = match JSON_stringify (req_body req) with
            | SText s => Some (BodyText s)
            | _ => None
            end
      end
  end.

(** A client without cache and without deduplication, and the world it
    is created in. *)
Definition bare_options : ClientOptions :=
  mkClientOptions (Some "https://api.example.com") None
                  (Some Scenario.serving) None None None CacheOff None
                  (Some false).

Definition bare_client : ApiClient :=
  (ApiClient_new Scenario.std (Some bare_options) Scenario.world0).2.

Definition bare_world : World :=
  (ApiClient_new Scenario.std (Some bare_options) Scenario.world0).1.

(** The world in which [Scenario.cached_client] was created. *)
Definition served_world : World :=
  (ApiClient_new Scenario.std (Some (Scenario.options_for Scenario.serving))
                 Scenario.world0).1.

(** Options that name a token storage and a cache adapter. *)
Definition sharing_options : ClientOptions :=
  mkClientOptions (Some "https://api.example.com") None
                  (Some Scenario.serving) None
                  (Some (mkAuthConfig (Some 0%nat) None None)) None
                  (CacheGiven 1) None None.

(** The value last written under [name], when the entries of [h] are
    written one after the other. *)
Definition last_written (name : string) (h : HeaderMap) : option string :=
  header_get name (rev h).

(** An encrypting client behind the gateway /gateway. *)
Definition gateway_client : ApiClient :=
  (ApiClient_new Scenario.std
     (Some (Scenario.gateway_options Scenario.serving)) Scenario.world0).2.


(** The bodies of the calls handed to the transport, in call order. *)
Definition bodies_on_the_wire (w : World) : list (option BodyInit) :=
  omap (fun e => match e with
                 | EvFetch _ init => Some (init_body init)
                 | _ => None
                 end)
       (trace w).

(** ** More runs *)
Module Cases.
Import Scenario.

(** A POST whose payload cannot be built, under a cache key of the
    caller; and the run in which it is asked twice before anything
    settles, and the execution is then resumed until it settles. *)
Definition unsendable : ApiRequest :=
  mkRequest "/ledger" (Some POST) None None (JBigInt 10) None (Some "ledger")
            false None.

Definition unsendable_twice : option Loop :=
  drive std 20 0
    <$> run std [New (Some (options_for serving)); Call 0 unsendable;
                 Call 0 unsendable]
            (boot 1000).

(** The build failure as a Result. *)
Definition unsendable_result : ApiResponse :=
  Failure 0 None
    (makeErrorShape
       (toApiError (type_error "Do not know how to serialize a BigInt")
                   "ERR_NETWORK")).

(** Two uploads of different form data to one URL: asked one right after
    the other, and asked one after the other has settled. *)
Definition form_a : JsValue := JFormData [("file", "a.png")].
Definition form_b : JsValue := JFormData [("file", "b.png")].

Definition uploads_together : option Loop :=
  drive std 20 0
    <$> run std [New (Some (options_for serving));
                 Call 0 (upload "/upload" form_a);
                 Call 0 (upload "/upload" form_b)]
            (boot 1000).

Definition uploads_in_turn : option Loop :=
  L ← run std [New (Some (options_for serving));
               Call 0 (upload "/upload" form_a)]
          (boot 1000);
  step std (Call 0 (upload "/upload" form_b)) (drive std 20 0 L).



(** A client that was given a cache of capacity two, as
    [new LruCacheAdapter(2)] makes it; the world in which that cache
    holds the answers to GET /a and, more recent, to GET /b. *)
Definition small_cache_options : ClientOptions :=
  mkClientOptions (Some "https://api.example.com") None (Some serving) None
                  None None (CacheGiven 0) None None.

Definition small_cache_start : World :=
  mkWorld 1000 0 1 ∅ {[0%nat := LruCacheAdapter.new (Some 2%nat)]} ∅ [] [].

Definition small_cache_client : ApiClient :=
  (ApiClient_new std (Some small_cache_options) small_cache_start).2.

Definition key_of (path : string) : string :=
  "GET:https://api.example.com" +:+ path +:+ ":null".

Definition small_cache_world : World :=
  (cache_set 0 (key_of "/b") user_result (Some 10000)
     (cache_set 0 (key_of "/a") user_result (Some 10000)
        (ApiClient_new std (Some small_cache_options) small_cache_start).1).1).1.

(** The keys a cache holds, the most recently used first. *)
Definition keys_of (ref : nat) (w : World) : list string :=
  map fst (lru_entries (cache_at ref w)).

End Cases.

(* ===================================================================== *)
(** * Facts about asynchronous code *)
(* ===================================================================== *)

Module AioFacts.
Section AioFacts.
Context {W E : Type}.
Implicit Types (w : W).

(** ** Running alone *)

Lemma finish_bindA {A B} (t : Async W E A) (f : A -> Run W E B) w :
  finish (bindA t f w).2 (bindA t f w).1 =
  match finish t w with
  | (w', Fulfilled a) => run_alone (f a) w'
  | (w', Rejected e) => (w', Rejected e)
  end.
Proof.
  revert w. induction t as [[a | e] | eff next IH]; intros w; simpl; auto.
Qed.

Lemma run_alone_bind {A B} (m : Run W E A) (f : A -> Run W E B) w :
  run_alone (bind m f) w =
  match run_alone m w with
  | (w', Fulfilled a) => run_alone (f a) w'
  | (w', Rejected e) => (w', Rejected e)
  end.
Proof. unfold run_alone at 1, bind. apply finish_bindA. Qed.

Lemma finish_catchA {A} (t : Async W E A) (h : E -> Run W E A) w :
  finish (catchA t h w).2 (catchA t h w).1 =
  match finish t w with
  | (w', Fulfilled a) => (w', Fulfilled a)
  | (w', Rejected e) => run_alone (h e) w'
  end.
Proof.
  revert w. induction t as [[a | e] | eff next IH]; intros w; simpl; auto.
Qed.

Lemma run_alone_catch {A} (m : Run W E A) (h : E -> Run W E A) w :
  run_alone (try_catch m h) w =
  match run_alone m w with
  | (w', Fulfilled a) => (w', Fulfilled a)
  | (w', Rejected e) => run_alone (h e) w'
  end.
Proof. unfold run_alone at 1, try_catch. apply finish_catchA. Qed.

Lemma finish_finallyA {A} (t : Async W E A) (fin : W -> W) w :
  finish (finallyA t fin w).2 (finallyA t fin w).1 =
  ((fin (finish t w).1), (finish t w).2).
Proof.
  revert w. induction t as [r | eff next IH]; intros w; simpl; auto.
Qed.

Lemma run_alone_finally {A} (m : Run W E A) (fin : W -> W) w :
  run_alone (try_finally m fin) w =
  (fin (run_alone m w).1, (run_alone m w).2).
Proof. unfold run_alone, try_finally. apply finish_finallyA. Qed.

Lemma finish_laterA {A} (t : Async W E A) w :
  finish (laterA t) w = finish t w.
Proof. revert w. induction t as [r | eff next IH]; intros w; simpl; auto. Qed.

Lemma run_alone_await {A} (m : Run W E A) w :
  run_alone (await m) w = run_alone m w.
Proof. unfold run_alone, await. simpl. apply finish_laterA. Qed.

Lemma run_alone_ret {A} (a : A) w :
  run_alone (ret a : Run W E A) w = (w, Fulfilled a).
Proof. reflexivity. Qed.

Lemma run_alone_gets {A} (f : W -> A) w :
  run_alone (gets f : Run W E A) w = (w, Fulfilled (f w)).
Proof. reflexivity. Qed.

Lemma run_alone_modify (f : W -> W) w :
  run_alone (modify f : Run W E unit) w = (f w, Fulfilled tt).
Proof. reflexivity. Qed.

Lemma run_alone_settle {A} (r : Settled E A) w :
  run_alone (settle r : Run W E A) w = (w, r).
Proof. reflexivity. Qed.

(** ** Changes within a relation *)

Lemma within_weaken {A} (R R' : W -> W -> Prop) (t : Async W E A) :
  (forall w w', R w w' -> R' w w') -> within R t -> within R' t.
Proof.
  intros HR. induction t as [r | eff next IH]; simpl; auto.
  intros H w. destruct (H w). split; auto.
Qed.

Lemma run_within_weaken {A} (R R' : W -> W -> Prop) (m : Run W E A) :
  (forall w w', R w w' -> R' w w') -> run_within R m -> run_within R' m.
Proof.
  intros HR H w. destruct (H w). split; eauto using within_weaken.
Qed.

Section Preorder.
Context (R : W -> W -> Prop) `{!PreOrder R}.

Lemma within_bindA {A B} (t : Async W E A) (f : A -> Run W E B) w :
  within R t -> (forall a, run_within R (f a)) ->
  R w (bindA t f w).1 /\ within R (bindA t f w).2.
Proof.
  intros Ht Hf. revert w.
  induction t as [[a | e] | eff next IH]; intros w; simpl.
  - apply Hf.
  - split; [reflexivity | exact I].
  - split; [reflexivity |]. intros w'. destruct (Ht w') as [H1 H2].
    destruct (IH w' H2 (eff w')) as [H3 H4]. split; [| exact H4].
    etransitivity; eauto.
Qed.

Lemma run_within_bind {A B} (m : Run W E A) (f : A -> Run W E B) :
  run_within R m -> (forall a, run_within R (f a)) -> run_within R (bind m f).
Proof.
  intros Hm Hf w. unfold bind. destruct (Hm w) as [H1 H2].
  destruct (within_bindA (m w).2 f (m w).1 H2 Hf) as [H3 H4].
  split; [etransitivity; eauto | exact H4].
Qed.

Lemma within_catchA {A} (t : Async W E A) (h : E -> Run W E A) w :
  within R t -> (forall e, run_within R (h e)) ->
  R w (catchA t h w).1 /\ within R (catchA t h w).2.
Proof.
  intros Ht Hh. revert w.
  induction t as [[a | e] | eff next IH]; intros w; simpl.
  - split; [reflexivity | exact I].
  - apply Hh.
  - split; [reflexivity |]. intros w'. destruct (Ht w') as [H1 H2].
    destruct (IH w' H2 (eff w')) as [H3 H4]. split; [| exact H4].
    etransitivity; eauto.
Qed.

Lemma run_within_catch {A} (m : Run W E A) (h : E -> Run W E A) :
  run_within R m -> (forall e, run_within R (h e)) ->
  run_within R (try_catch m h).
Proof.
  intros Hm Hh w. unfold try_catch. destruct (Hm w) as [H1 H2].
  destruct (within_catchA (m w).2 h (m w).1 H2 Hh) as [H3 H4].
  split; [etransitivity; eauto | exact H4].
Qed.

Lemma within_finallyA {A} (t : Async W E A) (fin : W -> W) w :
  within R t -> (forall w, R w (fin w)) ->
  R w (finallyA t fin w).1 /\ within R (finallyA t fin w).2.
Proof.
  intros Ht Hfin. revert w.
  induction t as [r | eff next IH]; intros w; simpl.
  - split; [apply Hfin | exact I].
  - split; [reflexivity |]. intros w'. destruct (Ht w') as [H1 H2].
    destruct (IH w' H2 (eff w')) as [H3 H4]. split; [| exact H4].
    etransitivity; eauto.
Qed.

Lemma run_within_finally {A} (m : Run W E A) (fin : W -> W) :
  run_within R m -> (forall w, R w (fin w)) ->
  run_within R (try_finally m fin).
Proof.
  intros Hm Hfin w. unfold try_finally. destruct (Hm w) as [H1 H2].
  destruct (within_finallyA (m w).2 fin (m w).1 H2 Hfin) as [H3 H4].
  split; [etransitivity; eauto | exact H4].
Qed.

Lemma within_laterA {A} (t : Async W E A) :
  within R t -> within R (laterA t).
Proof.
  induction t as [r | eff next IH]; simpl.
  - intros _ w. split; [reflexivity | exact I].
  - intros H w. destruct (H w). split; auto.
Qed.

Lemma run_within_await {A} (m : Run W E A) :
  run_within R m -> run_within R (await m).
Proof.
  intros Hm w. destruct (Hm w). split; [assumption |].
  simpl. by apply within_laterA.
Qed.

Lemma run_within_ret {A} (a : A) : run_within R (ret a : Run W E A).
Proof. intros w. split; [reflexivity | exact I]. Qed.

Lemma run_within_throw {A} (e : E) : run_within R (throw e : Run W E A).
Proof. intros w. split; [reflexivity | exact I]. Qed.

Lemma run_within_settle {A} (r : Settled E A) :
  run_within R (settle r : Run W E A).
Proof. intros w. split; [reflexivity | exact I]. Qed.

Lemma run_within_gets {A} (f : W -> A) : run_within R (gets f : Run W E A).
Proof. intros w. split; [reflexivity | exact I]. Qed.

Lemma run_within_modify (f : W -> W) :
  (forall w, R w (f w)) -> run_within R (modify f : Run W E unit).
Proof. intros H w. split; [apply H | exact I]. Qed.

(** A step that changes the world once and is done. *)
Lemma run_within_once {A} (f : W -> W) (g : W -> Settled E A) :
  (forall w, R w (f w)) -> run_within R (fun w => (f w, Done (g w))).
Proof. intros H w. split; [apply H | exact I]. Qed.
(** Sequencing when something is known of the value handed on. *)
Lemma within_bindA_post {A B} (Q : A -> Prop) (t : Async W E A)
  (f : A -> Run W E B) w :
  within R t ->
  always (fun r => forall a, r = Fulfilled a -> Q a) t ->
  (forall a, Q a -> run_within R (f a)) ->
  R w (bindA t f w).1 /\ within R (bindA t f w).2.
Proof.
  intros Ht Hq Hf. revert w.
  induction t as [[a | e] | eff next IH]; intros w; simpl.
  - apply Hf. by apply Hq.
  - split; [reflexivity | exact I].
  - split; [reflexivity |]. intros w'. destruct (Ht w') as [H1 H2].
    destruct (IH w' H2 (Hq w') (eff w')) as [H3 H4]. split; [| exact H4].
    etransitivity; eauto.
Qed.

Lemma run_within_bind_post {A B} (Q : A -> Prop) (m : Run W E A)
  (f : A -> Run W E B) :
  run_within R m ->
  run_always (fun r => forall a, r = Fulfilled a -> Q a) m ->
  (forall a, Q a -> run_within R (f a)) ->
  run_within R (bind m f).
Proof.
  intros Hm Hq Hf w. unfold bind. destruct (Hm w) as [H1 H2].
  destruct (within_bindA_post Q (m w).2 f (m w).1 H2 (Hq w) Hf) as [H3 H4].
  split; [etransitivity; eauto | exact H4].
Qed.
(** Running alone is one of the interleavings. *)
Lemma within_finish {A} (t : Async W E A) w :
  within R t -> R w (finish t w).1.
Proof.
  revert w. induction t as [r | eff next IH]; intros w; simpl.
  - reflexivity.
  - intros H. destruct (H w) as [H1 H2]. etransitivity; eauto.
Qed.

Lemma run_within_alone {A} (m : Run W E A) w :
  run_within R m -> R w (run_alone m w).1.
Proof.
  intros H. destruct (H w) as [H1 H2]. unfold run_alone.
  etransitivity; [exact H1 | by apply within_finish].
Qed.
End Preorder.

(** ** How a computation can settle *)

Lemma settles_laterA {A} (t : Async W E A) r :
  settles (laterA t) r -> settles t r.
Proof.
  induction t as [r0 | eff next IH]; simpl; intros H.
  - inversion H; subst. assumption.
  - inversion H; subst. econstructor. eauto.
Qed.

Lemma settles_bindA {A B} (t : Async W E A) (f : A -> Run W E B) w r :
  settles (bindA t f w).2 r ->
  (exists e, r = Rejected e /\ settles t (Rejected e)) \/
  (exists a w', settles t (Fulfilled a) /\ settles (f a w').2 r).
Proof.
  revert w. induction t as [[a | e] | eff next IH]; intros w; simpl; intros H.
  - right. exists a, w. split; [constructor | assumption].
  - inversion H; subst. left. eexists. split; [reflexivity | constructor].
  - inversion H as [| ? ? w' ? H']; subst.
    destruct (IH _ _ H') as [(e & -> & He) | (a & w'' & Ha & Hr)].
    + left. eexists. split; [reflexivity | econstructor; eauto].
    + right. exists a, w''. split; [econstructor; eauto | assumption].
Qed.

Lemma always_settles {A} (Q : Settled E A -> Prop) (t : Async W E A) r :
  always Q t -> settles t r -> Q r.
Proof.
  intros Ht Hs. induction Hs as [| eff next w r Hs IH]; simpl in *; auto.
Qed.

Lemma always_weaken {A} (Q Q' : Settled E A -> Prop) (t : Async W E A) :
  (forall r, Q r -> Q' r) -> always Q t -> always Q' t.
Proof. intros HQ. induction t as [r | eff next IH]; simpl; auto. Qed.

Lemma always_bindA {A B} (Q : Settled E B -> Prop) (t : Async W E A)
  (f : A -> Run W E B) w :
  always (fun r => match r with
                   | Fulfilled a => run_always Q (f a)
                   | Rejected e => Q (Rejected e)
                   end) t ->
  always Q (bindA t f w).2.
Proof.
  revert w. induction t as [[a | e] | eff next IH]; intros w; simpl; intros H.
  - apply H.
  - assumption.
  - intros w'. apply IH, H.
Qed.

Lemma always_catchA {A} (Q : Settled E A -> Prop) (t : Async W E A)
  (h : E -> Run W E A) w :
  (forall a, Q (Fulfilled a)) -> (forall e, run_always Q (h e)) ->
  always Q (catchA t h w).2.
Proof.
  intros Ha Hh. revert w.
  induction t as [[a | e] | eff next IH]; intros w; simpl; auto.
  apply Hh.
Qed.

Lemma run_always_catch {A} (Q : Settled E A -> Prop) (m : Run W E A)
  (h : E -> Run W E A) :
  (forall a, Q (Fulfilled a)) -> (forall e, run_always Q (h e)) ->
  run_always Q (try_catch m h).
Proof. intros Ha Hh w. unfold try_catch. by apply always_catchA. Qed.

Lemma run_always_bind {A B} (Q : Settled E B -> Prop) (m : Run W E A)
  (f : A -> Run W E B) :
  run_always (fun r => match r with
                       | Fulfilled a => run_always Q (f a)
                       | Rejected e => Q (Rejected e)
                       end) m ->
  run_always Q (bind m f).
Proof. intros Hm w. unfold bind. apply always_bindA, Hm. Qed.

Lemma run_always_ret {A} (Q : Settled E A -> Prop) (a : A) :
  Q (Fulfilled a) -> run_always Q (ret a : Run W E A).
Proof. intros H w. exact H. Qed.

(** A postcondition that holds of every rejection is kept by sequencing,
    whatever comes first. *)
Lemma always_bindA_any {A B} (Q : Settled E B -> Prop) (t : Async W E A)
  (f : A -> Run W E B) w :
  (forall a, run_always Q (f a)) -> (forall e, Q (Rejected e)) ->
  always Q (bindA t f w).2.
Proof.
  intros Hf He. revert w.
  induction t as [[a | e] | eff next IH]; intros w; simpl; auto.
  apply Hf.
Qed.

Lemma run_always_bind_any {A B} (Q : Settled E B -> Prop) (m : Run W E A)
  (f : A -> Run W E B) :
  (forall a, run_always Q (f a)) -> (forall e, Q (Rejected e)) ->
  run_always Q (bind m f).
Proof. intros Hf He w. unfold bind. by apply always_bindA_any. Qed.

Lemma run_always_weaken {A} (Q Q' : Settled E A -> Prop) (m : Run W E A) :
  (forall r, Q r -> Q' r) -> run_always Q m -> run_always Q' m.
Proof. intros HQ Hm w. eapply always_weaken; [exact HQ | apply Hm]. Qed.

(** Sequencing when something is known of the value handed on. *)
Lemma run_always_bind_post {A B} (K : A -> Prop) (Q : Settled E B -> Prop)
  (m : Run W E A) (f : A -> Run W E B) :
  run_always (fun r => forall a, r = Fulfilled a -> K a) m ->
  (forall a, K a -> run_always Q (f a)) -> (forall e, Q (Rejected e)) ->
  run_always Q (bind m f).
Proof.
  intros Hm Hf He. apply run_always_bind.
  eapply run_always_weaken; [| exact Hm].
  intros [a | e] H; [apply Hf; by apply H | apply He].
Qed.

Lemma always_laterA {A} (Q : Settled E A -> Prop) (t : Async W E A) :
  always Q t -> always Q (laterA t).
Proof. induction t as [r | eff next IH]; simpl; auto. Qed.

Lemma run_always_await {A} (Q : Settled E A -> Prop) (m : Run W E A) :
  run_always Q m -> run_always Q (await m).
Proof. intros H w. simpl. apply always_laterA, H. Qed.

Lemma run_always_settle {A} (Q : Settled E A -> Prop) (r : Settled E A) :
  Q r -> run_always Q (settle r : Run W E A).
Proof. intros H w. exact H. Qed.

Lemma always_finish {A} (Q : Settled E A -> Prop) (t : Async W E A) w :
  always Q t -> Q (finish t w).2.
Proof. revert w. induction t as [r | eff next IH]; intros w; simpl; auto. Qed.

Lemma run_always_alone {A} (Q : Settled E A -> Prop) (m : Run W E A) w :
  run_always Q m -> Q (run_alone m w).2.
Proof. intros H. unfold run_alone. apply always_finish, H. Qed.

(** ** Spending *)

Section Spending.
Context (size : W -> nat).

Lemma spends_mono {A} (n n' : nat) (t : Async W E A) :
  (n <= n')%nat -> spends size n t -> spends size n' t.
Proof.
  revert n n'. induction t as [r | eff next IH]; simpl; auto.
  intros n n' Hn H w. destruct (H w) as (d & Hd & Hsz & Hsp).
  exists d. split; [lia |]. split; [assumption |].
  eapply IH; [| exact Hsp]. lia.
Qed.

Lemma within_spends {A} (t : Async W E A) :
  within (fun w w' => size w' = size w) t -> spends size 0 t.
Proof.
  induction t as [r | eff next IH]; simpl; auto.
  intros H w. destruct (H w) as [H1 H2]. exists 0%nat.
  split; [lia |]. split; [lia |]. simpl. auto.
Qed.

Lemma run_within_spends {A} (m : Run W E A) :
  run_within (fun w w' => size w' = size w) m -> run_spends size 0 m.
Proof.
  intros H w. destruct (H w) as [H1 H2]. exists 0%nat.
  split; [lia |]. split; [lia |]. simpl. by apply within_spends.
Qed.

Lemma spends_bindA {A B} (n1 n2 : nat) (t : Async W E A)
  (f : A -> Run W E B) w :
  spends size n1 t -> (forall a, run_spends size n2 (f a)) ->
  exists d, (d <= n1 + n2)%nat /\ size (bindA t f w).1 = (size w + d)%nat
            /\ spends size (n1 + n2 - d) (bindA t f w).2.
Proof.
  intros Ht Hf. revert n1 w Ht.
  induction t as [[a | e] | eff next IH]; intros n1 w Ht; simpl.
  - destruct (Hf a w) as (d & Hd & Hsz & Hsp). exists d.
    split; [lia |]. split; [assumption |].
    eapply spends_mono; [| exact Hsp]. lia.
  - exists 0%nat. split; [lia |]. split; [lia | exact I].
  - exists 0%nat. split; [lia |]. split; [lia |].
    intros w'. destruct (Ht w') as (d & Hd & Hsz & Hsp).
    destruct (IH w' (n1 - d)%nat (eff w') Hsp) as (d' & Hd' & Hsz' & Hsp').
    exists (d + d')%nat. split; [lia |]. split; [lia |].
    eapply spends_mono; [| exact Hsp']. lia.
Qed.

Lemma run_spends_bind {A B} (n1 n2 : nat) (m : Run W E A)
  (f : A -> Run W E B) :
  run_spends size n1 m -> (forall a, run_spends size n2 (f a)) ->
  run_spends size (n1 + n2) (bind m f).
Proof.
  intros Hm Hf w. unfold bind. destruct (Hm w) as (d & Hd & Hsz & Hsp).
  destruct (spends_bindA (n1 - d) n2 (m w).2 f (m w).1 Hsp Hf)
    as (d' & Hd' & Hsz' & Hsp').
  exists (d + d')%nat. split; [lia |]. split; [lia |].
  eapply spends_mono; [| exact Hsp']. lia.
Qed.

Lemma spends_catchA {A} (n : nat) (t : Async W E A) (h : E -> Run W E A) w :
  spends size n t -> (forall e, run_spends size 0 (h e)) ->
  exists d, (d <= n)%nat /\ size (catchA t h w).1 = (size w + d)%nat
            /\ spends size (n - d) (catchA t h w).2.
Proof.
  intros Ht Hh. revert n w Ht.
  induction t as [[a | e] | eff next IH]; intros n w Ht; simpl.
  - exists 0%nat. split; [lia |]. split; [lia | exact I].
  - destruct (Hh e w) as (d & Hd & Hsz & Hsp). exists d.
    split; [lia |]. split; [assumption |].
    eapply spends_mono; [| exact Hsp]. lia.
  - exists 0%nat. split; [lia |]. split; [lia |].
    intros w'. destruct (Ht w') as (d & Hd & Hsz & Hsp).
    destruct (IH w' (n - d)%nat (eff w') Hsp) as (d' & Hd' & Hsz' & Hsp').
    exists (d + d')%nat. split; [lia |]. split; [lia |].
    eapply spends_mono; [| exact Hsp']. lia.
Qed.

Lemma run_spends_catch {A} (n : nat) (m : Run W E A) (h : E -> Run W E A) :
  run_spends size n m -> (forall e, run_spends size 0 (h e)) ->
  run_spends size n (try_catch m h).
Proof.
  intros Hm Hh w. unfold try_catch. destruct (Hm w) as (d & Hd & Hsz & Hsp).
  destruct (spends_catchA (n - d) (m w).2 h (m w).1 Hsp Hh)
    as (d' & Hd' & Hsz' & Hsp').
  exists (d + d')%nat. split; [lia |]. split; [lia |].
  eapply spends_mono; [| exact Hsp']. lia.
Qed.

Lemma spends_laterA {A} (n : nat) (t : Async W E A) :
  spends size n t -> spends size n (laterA t).
Proof.
  revert n. induction t as [r | eff next IH]; intros n; simpl.
  - intros _ w. exists 0%nat. split; [lia |]. split; [lia | exact I].
  - intros H w. destruct (H w) as (d & Hd & Hsz & Hsp).
    exists d. split; [lia |]. split; [assumption |]. by apply IH.
Qed.

Lemma run_spends_await {A} (n : nat) (m : Run W E A) :
  run_spends size n m -> run_spends size n (await m).
Proof.
  intros Hm w. destruct (Hm w) as (d & Hd & Hsz & Hsp).
  exists d. split; [lia |]. split; [assumption |].
  simpl. by apply spends_laterA.
Qed.
End Spending.

End AioFacts.
End AioFacts.

(** ** Tactics for code written with the combinators *)

Module AioTactics.
Import AioFacts.

(** One structural step on a goal [run_within R code]. *)
Ltac within_step :=
  lazymatch goal with
  | |- run_within ?R (bind _ _) => apply (run_within_bind R); [| intros ?]
  | |- run_within ?R (await _) => apply (run_within_await R)
  | |- run_within ?R (try_catch _ _) =>
      apply (run_within_catch R); [| intros ?]
  | |- run_within ?R (try_finally _ _) => apply (run_within_finally R)
  | |- run_within ?R (ret _) => apply (run_within_ret R)
  | |- run_within ?R (throw _) => apply (run_within_throw R)
  | |- run_within ?R (settle _) => apply (run_within_settle R)
  | |- run_within ?R (lift _) => apply (run_within_settle R)
  | |- run_within ?R (gets _) => apply (run_within_gets R)
  | |- run_within _ (match ?x with _ => _ end) => destruct x eqn:?
  | |- run_within _ (let _ := _ in _) => cbv zeta
  end.

Ltac within_go tac := repeat (first [solve [tac] | within_step]).

(** One structural step on a goal [run_always Q code], for a [Q] that
    holds of every rejection. *)
Ltac always_step :=
  lazymatch goal with
  | |- run_always _ (bind _ _) =>
      apply run_always_bind_any; [intros ? | intros ?]
  | |- run_always _ (await _) => apply run_always_await
  | |- run_always _ (try_catch _ _) =>
      apply run_always_catch; [intros ? | intros ?]
  | |- run_always _ (ret _) => apply run_always_ret
  | |- run_always _ (settle _) => apply run_always_settle
  | |- run_always _ (lift _) => apply run_always_settle
  | |- run_always _ (match ?x with _ => _ end) => destruct x eqn:?
  | |- run_always _ (let _ := _ in _) => cbv zeta
  end.

Ltac always_go tac := repeat (first [solve [tac] | always_step]).

End AioTactics.

(* ===================================================================== *)
(** * The trace *)
(* ===================================================================== *)

Module TraceFacts.

Lemma emit_all_nil (w : World) : emit_all [] w = w.
Proof. destruct w. unfold emit_all. simpl. by rewrite app_nil_r. Qed.

Lemma emit_all_app (a b : list Event) (w : World) :
  emit_all b (emit_all a w) = emit_all (a ++ b) w.
Proof. unfold emit_all. simpl. by rewrite app_assoc. Qed.

Lemma emit_one (e : Event) (w : World) : emit e w = emit_all [e] w.
Proof. reflexivity. Qed.

End TraceFacts.

(* ===================================================================== *)
(** * The stream relay *)
(* ===================================================================== *)

Module StreamFacts.
Import AioFacts TraceFacts.

Lemma run_alone_invoke {A} (h : option (Callback A)) (x : A)
  (call : HandlerCall) (w : World) :
  quiet h ->
  run_alone (invoke h x call) w = (emit_all (heard h call) w, Fulfilled tt).
Proof.
  intros Hq. destruct h as [f |]; simpl.
  - unfold run_alone. simpl. by rewrite (Hq f x eq_refl).
  - unfold run_alone. simpl. by rewrite emit_all_nil.
Qed.

Lemma run_alone_read {A} (r : Outcome A) (w : World) :
  run_alone (await (read r)) w = (emit EvRead w, r).
Proof. by rewrite run_alone_await. Qed.

(** The read loop over a stream that ends well reads every chunk and
    hands on the truthy ones, in order, then reads the end. *)
Lemma run_alone_read_all (onChunk : option (Callback JsValue))
  (l : list JsValue) (w : World) :
  quiet onChunk ->
  run_alone (read_all onChunk l None) w =
  (emit_all (arrivals truthy onChunk l ++ [EvRead]) w, Fulfilled tt).
Proof.
  intros Hq. revert w. induction l as [| v l IH]; intros w.
  - simpl. by rewrite run_alone_read, emit_one.
  - cbn [read_all]. unfold arrivals. cbn [flat_map].
    rewrite run_alone_bind, run_alone_read, run_alone_bind.
    destruct (truthy v).
    + rewrite run_alone_invoke by assumption. rewrite IH.
      rewrite emit_one, !emit_all_app. unfold arrivals.
      by rewrite <- ?app_assoc.
    + rewrite run_alone_ret. rewrite IH. rewrite emit_one, !emit_all_app.
      reflexivity.
Qed.

End StreamFacts.

(* ===================================================================== *)
(** * What the code of a client does to the world *)
(* ===================================================================== *)

Module DoesFacts.
Import AioFacts AioTactics.

Global Instance does_preorder (Φ : Event -> Prop) (c : ApiClient) :
  PreOrder (does Φ c).
Proof. unfold does. apply _. Qed.

Section DoesFacts.
Context (P : Platform) (Φ : Event -> Prop) (c : ApiClient).

Lemma does_emit (e : Event) (w : World) : Φ e -> does Φ c w (emit e w).
Proof. intros H. apply rtc_once. by constructor. Qed.

Lemma does_entropy (w : World) : does Φ c w (set_entropy S w).
Proof. apply rtc_once. constructor. Qed.

Lemma does_store (e : Event) (tokens : JsObj) (w : World) :
  Φ e ->
  does Φ c w (emit e (set_stores (insert (storage (auth c)) tokens) w)).
Proof.
  intros H. eapply rtc_l; [apply prim_store |]. apply rtc_once.
  by constructor.
Qed.

Lemma does_cache (ref : nat) (key : string) (v : ApiResponse)
  (ttl : option Z) (w : World) :
  cache c = Some ref -> ok v = true ->
  does Φ c w
    (set_caches
       (insert ref (LruCacheAdapter.set (now w) key v ttl (cache_at ref w))) w).
Proof. intros H1 H2. apply rtc_once. by constructor. Qed.

(** The code that makes no transport call. *)
Context (quiet_events : forall e, no_fetch e -> Φ e).

Lemma admits_quiet (e : Event) : is_fetch e = false -> Φ e.
Proof. apply quiet_events. Qed.

Ltac leaf :=
  first
    [ apply (run_within_once (does Φ c)); intros ?;
      first [ apply does_entropy
            | apply does_emit; apply admits_quiet; reflexivity
            | apply does_store; apply admits_quiet; reflexivity ]
    | apply (run_within_modify (does Φ c)); intros ?;
      first [ apply does_emit; apply admits_quiet; reflexivity
            | apply does_store; apply admits_quiet; reflexivity ] ].

Lemma enrichMetadata_does (tokens : JsObj) :
  run_within (does Φ c) (enrichMetadata P tokens).
Proof. unfold enrichMetadata. within_go leaf. Qed.

Lemma AuthManager_setTokens_does (tokens : JsObj) :
  run_within (does Φ c) (AuthManager_setTokens P (auth c) tokens).
Proof.
  unfold AuthManager_setTokens, MemoryTokenStorage.setTokens.
  within_go ltac:(first [leaf | apply enrichMetadata_does]).
Qed.

Lemma getValidAccessToken_does :
  run_within (does Φ c) (getValidAccessToken P (auth c)).
Proof.
  unfold getValidAccessToken, MemoryTokenStorage.getTokens, call_onRefresh.
  within_go ltac:(first [leaf | apply enrichMetadata_does
                        | apply AuthManager_setTokens_does]).
Qed.

Lemma setTokens_does (accessToken refreshToken : JsValue) :
  run_within (does Φ c) (setTokens P c accessToken refreshToken).
Proof.
  unfold setTokens. within_go ltac:(apply AuthManager_setTokens_does).
Qed.

Lemma clearTokens_does : run_within (does Φ c) (clearTokens c).
Proof.
  unfold clearTokens, AuthManager_clear, MemoryTokenStorage.clear.
  within_go leaf.
Qed.

Lemma invoke_does {A} (h : option (Callback A)) (x : A) (call : HandlerCall) :
  run_within (does Φ c) (invoke h x call).
Proof. unfold invoke. within_go leaf. Qed.

Lemma read_all_does (onChunk : option (Callback JsValue)) (l : list JsValue)
  (ending : option Thrown) :
  run_within (does Φ c) (read_all onChunk l ending).
Proof.
  induction l as [| v l IH]; simpl; unfold read.
  - within_go leaf.
  - within_go ltac:(first [leaf | apply invoke_does | apply IH]).
Qed.

Lemma streamResponse_does (response : Response) (handlers : StreamHandlers) :
  run_within (does Φ c) (streamResponse response handlers).
Proof.
  unfold streamResponse.
  within_go ltac:(first [leaf | apply invoke_does | apply read_all_does]).
  intros w. apply does_emit, admits_quiet. reflexivity.
Qed.

Lemma relay_does (req : ApiRequest) (response : Response) :
  run_within (does Φ c) (relay req response).
Proof. unfold relay. within_go ltac:(apply streamResponse_does). Qed.

Lemma decode_does (response : Response) :
  run_within (does Φ c) (decode P c response).
Proof. unfold decode, call_decrypt. within_go leaf. Qed.

Lemma seal_does (url : string) (method : HttpMethod) (init : RequestInit) :
  run_within (does Φ c) (seal P c url method init).
Proof. unfold seal, call_encrypt, fresh_id. within_go leaf. Qed.

Lemma target_of_does (url : string) :
  run_within (does Φ c) (target_of P c url).
Proof. unfold target_of. within_go leaf. Qed.

(** [seal] changes the body of the init it is given, nothing else. *)
Lemma seal_keeps (url : string) (method : HttpMethod) (init : RequestInit) :
  run_always (fun r => forall a, r = Fulfilled a ->
                init_headers a = init_headers init /\
                init_method a = init_method init /\
                init_signal a = init_signal init)
             (seal P c url method init).
Proof.
  unfold seal.
  always_go ltac:(first [ discriminate
                        | intros ? [= <-]; auto ]).
Qed.

Lemma target_of_ok (url : string) :
  run_always (fun r => forall a, r = Fulfilled a -> target_ok P c url a)
             (target_of P c url).
Proof.
  unfold target_of, target_ok.
  destruct (nonempty (gatewayPath (options c))) as [g |].
  - apply run_always_settle. auto.
  - apply run_always_ret. by intros ? [= <-].
Qed.

Lemma prepare_does (url : string) (method : HttpMethod) (req : ApiRequest)
  (headers : HeaderMap) :
  run_within (does Φ c) (prepare P c url method req headers).
Proof.
  unfold prepare.
  apply (run_within_bind (does Φ c)); [apply (run_within_settle (does Φ c)) |].
  intros body.
  apply (run_within_bind (does Φ c)); [apply seal_does |]. intros init.
  apply (run_within_bind (does Φ c)); [apply target_of_does |]. intros target.
  apply (run_within_ret (does Φ c)).
Qed.

(** The call [prepare] gets ready carries the headers it was given and
    goes where [target_of] sends it. *)
Lemma prepare_keeps (url : string) (method : HttpMethod) (req : ApiRequest)
  (headers : HeaderMap) :
  run_always (fun r => forall a, r = Fulfilled a ->
                target_ok P c url a.1 /\ init_headers a.2 = headers)
             (prepare P c url method req headers).
Proof.
  unfold prepare. apply run_always_bind_any; [| discriminate]. intros body.
  eapply run_always_bind_post; [apply seal_keeps | | discriminate].
  intros init (Hh & _ & _). simpl in Hh.
  eapply run_always_bind_post; [apply target_of_ok | | discriminate].
  intros target Ht. simpl in Ht.
  apply run_always_ret. by intros a [= <-].
Qed.

Lemma transport_does (url : string) (method : HttpMethod) (req : ApiRequest)
  (headers : HeaderMap) :
  (forall target init,
     target_ok P c url target -> init_headers init = headers ->
     Φ (EvFetch target init)) ->
  run_within (does Φ c) (transport P c url method req headers).
Proof.
  intros Hfetch. unfold transport.
  eapply (run_within_bind_post (does Φ c));
    [apply prepare_does | apply prepare_keeps |].
  intros [target init] [Ht Hh]. simpl in Ht, Hh.
  apply (run_within_await (does Φ c)). unfold call_fetch.
  apply (run_within_once (does Φ c)). intros w. apply does_emit. auto.
Qed.

Lemma execute_with_does (url : string) (method : HttpMethod)
  (req : ApiRequest) (token : JsValue) :
  (forall target init,
     target_ok P c url target ->
     init_headers init = with_bearer token (merged_headers c method req) ->
     Φ (EvFetch target init)) ->
  run_within (does Φ c) (execute_with P c url method req token).
Proof.
  intros Hfetch. unfold execute_with.
  apply (run_within_bind (does Φ c)).
  - apply (run_within_catch (does Φ c)).
    + apply (run_within_bind (does Φ c)); [by apply transport_does |].
      intros response. apply (run_within_ret (does Φ c)).
    + intros e. apply (run_within_ret (does Φ c)).
  - intros [response | failed].
    + destruct (req_stream req); [apply relay_does | apply decode_does].
    + apply (run_within_ret (does Φ c)).
Qed.

Lemma execute_does_when (url : string) (method : HttpMethod)
  (req : ApiRequest) :
  (forall token target init,
     target_ok P c url target ->
     init_headers init = with_bearer token (merged_headers c method req) ->
     Φ (EvFetch target init)) ->
  run_within (does Φ c) (execute P c url method req).
Proof.
  intros Hfetch. unfold execute.
  apply (run_within_bind (does Φ c)).
  - apply (run_within_await (does Φ c)), getValidAccessToken_does.
  - intros token. apply execute_with_does, Hfetch.
Qed.

End DoesFacts.

(** With every event allowed. *)
Section Everything.
Context (P : Platform) (c : ApiClient).

Lemma execute_does (url : string) (method : HttpMethod) (req : ApiRequest) :
  run_within (does any_event c) (execute P c url method req).
Proof. by apply execute_does_when. Qed.

Lemma exec_does (url : string) (method : HttpMethod) (req : ApiRequest)
  (key : string) :
  run_within (does any_event c) (exec P c url method req key).
Proof.
  unfold exec.
  apply (run_within_bind (does any_event c));
    [apply (run_within_await (does any_event c)), execute_does |].
  intros res.
  apply (run_within_bind (does any_event c));
    [| intros ?; apply (run_within_ret (does any_event c))].
  unfold cache_write, cache_set.
  destruct (cache c) as [ref |] eqn:Hc;
    [destruct (ok res) eqn:Hres |];
    try apply (run_within_ret (does any_event c)).
  apply (run_within_modify (does any_event c)). intros w.
  by apply does_cache.
Qed.
End Everything.

End DoesFacts.

(* ===================================================================== *)
(** * The cache *)
(* ===================================================================== *)

Module CacheFacts.

Lemma find_remove_ne (k key : string) (l : list (string * CacheEntry)) :
  k <> key -> Lru.find k (Lru.remove key l) = Lru.find k l.
Proof.
  intros Hne. induction l as [| [k' e] l IH]; simpl; [reflexivity |].
  destruct (String.eqb_spec key k') as [-> | Hk'].
  - rewrite IH. destruct (String.eqb_spec k k'); [contradiction | reflexivity].
  - simpl. by rewrite IH.
Qed.

(** A hit moves its entry to the front and leaves every lookup as it
    was. *)
Lemma find_touch (k key : string) (e : CacheEntry)
  (l : list (string * CacheEntry)) :
  Lru.find key l = Some e ->
  Lru.find k ((key, e) :: Lru.remove key l) = Lru.find k l.
Proof.
  intros H. simpl. destruct (String.eqb_spec k key) as [-> | Hne].
  - by rewrite H.
  - by apply find_remove_ne.
Qed.

Lemma find_ok (k : string) (e : CacheEntry) (l : list (string * CacheEntry)) :
  Forall (fun ke => ok (value ke.2) = true) l ->
  Lru.find k l = Some e -> ok (value e) = true.
Proof.
  induction l as [| [k' e'] l IH]; simpl; [discriminate |].
  intros Hl. inversion Hl; subst.
  destruct (String.eqb k k'); [intros [= <-]; assumption | auto].
Qed.

Lemma remove_ok (k : string) (l : list (string * CacheEntry)) :
  Forall (fun ke => ok (value ke.2) = true) l ->
  Forall (fun ke => ok (value ke.2) = true) (Lru.remove k l).
Proof.
  induction l as [| [k' e'] l IH]; simpl; [auto |].
  intros Hl. inversion Hl; subst. destruct (String.eqb k k'); auto.
Qed.

Lemma new_ok : cache_ok (LruCacheAdapter.new None).
Proof. constructor. Qed.

Lemma get_ok (t : Z) (key : string) (c : LruCache) :
  cache_ok c -> cache_ok (LruCacheAdapter.get t key c).2.
Proof.
  unfold cache_ok, LruCacheAdapter.get, Lru.get. intros Hc.
  destruct (Lru.find key (lru_entries c)) as [e |] eqn:Hf; simpl; [| exact Hc].
  assert (Forall (fun ke => ok (value ke.2) = true)
                 ((key, e) :: Lru.remove key (lru_entries c))) as Hl.
  { constructor; [by eapply find_ok | by apply remove_ok]. }
  destruct (LruCacheAdapter.expired t e); simpl; [| exact Hl].
  exact (remove_ok key _ Hl).
Qed.

(** What [get] returns was stored. *)
Lemma get_stored (t : Z) (key : string) (c : LruCache) (v : ApiResponse) :
  (LruCacheAdapter.get t key c).1 = Some v ->
  exists e, Lru.find key (lru_entries c) = Some e /\ value e = v.
Proof.
  unfold LruCacheAdapter.get, Lru.get.
  destruct (Lru.find key (lru_entries c)) as [e |]; simpl; [| discriminate].
  destruct (LruCacheAdapter.expired t e); simpl; [discriminate |].
  intros [= <-]. eauto.
Qed.

Lemma set_ok (t : Z) (key : string) (v : ApiResponse) (ttl : option Z)
  (c : LruCache) :
  ok v = true -> cache_ok c -> cache_ok (LruCacheAdapter.set t key v ttl c).
Proof.
  unfold cache_ok, LruCacheAdapter.set, Lru.set. simpl. intros Hv Hc.
  apply Forall_take. constructor; [exact Hv | by apply remove_ok].
Qed.

Lemma cache_at_ok (ref : nat) (w : World) : caches_ok w -> cache_ok (cache_at ref w).
Proof.
  intros Hw. unfold cache_at.
  destruct (caches w !! ref) as [c |] eqn:Hc; simpl; [by eapply Hw | apply new_ok].
Qed.

Lemma cache_at_insert (ref : nat) (c : LruCache) (w : World) :
  cache_at ref (set_caches (insert ref c) w) = c.
Proof. unfold cache_at. simpl. by rewrite lookup_insert_eq. Qed.

Lemma caches_ok_insert (ref : nat) (c : LruCache) (w : World) :
  cache_ok c -> caches_ok w -> caches_ok (set_caches (insert ref c) w).
Proof.
  intros Hc Hw r c'. simpl. rewrite lookup_insert.
  case_decide; [intros [= <-]; assumption | apply Hw].
Qed.

End CacheFacts.

(* ===================================================================== *)
(** * Frame *)
(* ===================================================================== *)

Module FrameFacts.
Import CacheFacts.

Section FrameFacts.
Context (Φ : Event -> Prop) (c : ApiClient).

Lemma prim_framed (w w' : World) : prim Φ c w w' -> framed c w w'.
Proof.
  intros H. destruct H as [e w _ | w | tokens w | ref key v ttl w Hc Hv];
    unfold framed; simpl; repeat split; auto.
  - intros r Hr. by rewrite lookup_insert_ne.
  - intros r Hr. rewrite lookup_insert_ne; [reflexivity | congruence].
Qed.

Lemma does_framed (w w' : World) : does Φ c w w' -> framed c w w'.
Proof.
  intros H. induction H as [w | w w1 w2 H1 _ IH].
  - unfold framed. repeat split; auto.
  - apply prim_framed in H1.
    destruct H1 as (A1 & A2 & A3 & A4 & A5 & A6).
    destruct IH as (B1 & B2 & B3 & B4 & B5 & B6).
    unfold framed. repeat split; try congruence.
    + intros r Hr. rewrite B5, A5; auto.
    + intros r Hr. rewrite B6, A6; auto.
Qed.

Lemma prim_caches_ok (w w' : World) :
  prim Φ c w w' -> caches_ok w -> caches_ok w'.
Proof.
  intros H Hw. destruct H as [e w _ | w | tokens w | ref key v ttl w Hc Hv];
    try exact Hw.
  apply caches_ok_insert; [| exact Hw].
  apply set_ok; [exact Hv | by apply cache_at_ok].
Qed.

Lemma does_caches_ok (w w' : World) :
  does Φ c w w' -> caches_ok w -> caches_ok w'.
Proof.
  intros H. induction H as [w | w w1 w2 H1 _ IH]; [auto |].
  intros Hw. apply IH. by eapply prim_caches_ok.
Qed.

Lemma prim_trace (w w' : World) :
  prim Φ c w w' ->
  exists evs, trace w' = (trace w ++ evs)%list /\ Forall Φ evs.
Proof.
  intros H. destruct H as [e w He | w | tokens w | ref key v ttl w Hc Hv];
    simpl.
  - exists [e]. split; [reflexivity | by constructor].
  - exists []. split; [by rewrite app_nil_r | constructor].
  - exists []. split; [by rewrite app_nil_r | constructor].
  - exists []. split; [by rewrite app_nil_r | constructor].
Qed.

Lemma does_trace (w w' : World) :
  does Φ c w w' ->
  exists evs, trace w' = (trace w ++ evs)%list /\ Forall Φ evs.
Proof.
  intros H. induction H as [w | w w1 w2 H1 _ IH].
  - exists []. split; [by rewrite app_nil_r | constructor].
  - destruct (prim_trace _ _ H1) as (e1 & E1 & F1).
    destruct IH as (e2 & E2 & F2).
    exists (e1 ++ e2)%list. split; [| by apply Forall_app].
    by rewrite E2, E1, app_assoc.
Qed.
End FrameFacts.

(** Events that are no transport calls leave the count of calls. *)
Lemma calls_quiet (w w' : World) (evs : list Event) :
  trace w' = (trace w ++ evs)%list -> Forall no_fetch evs ->
  calls w' = calls w.
Proof.
  intros Ht Hf. unfold calls, transport_calls. rewrite Ht, filter_app.
  assert (filter (fun e => is_fetch e = true) evs = []) as ->.
  { clear Ht. induction Hf as [| e evs He _ IH]; [reflexivity |].
    rewrite filter_cons. unfold no_fetch in He.
    destruct (decide (is_fetch e = true)); [congruence | exact IH]. }
  by rewrite app_nil_r.
Qed.

Lemma does_calls (c : ApiClient) (w w' : World) :
  does no_fetch c w w' -> calls w' = calls w.
Proof.
  intros H. destruct (does_trace _ _ _ _ H) as (evs & Ht & Hf).
  by eapply calls_quiet.
Qed.

End FrameFacts.

(* ===================================================================== *)
(** * The transport block, run alone *)
(* ===================================================================== *)

Module TransportFacts.
Import AioFacts AioTactics DoesFacts FrameFacts.

Section TransportFacts.
Context (P : Platform) (c : ApiClient).

(** Code that makes no transport call, run alone, adds events that are
    no transport calls. *)
Lemma quiet_alone {A} (m : Job A) (w : World) :
  run_within (does no_fetch c) m ->
  exists evs, trace (run_alone m w).1 = (trace w ++ evs)%list /\
              Forall no_fetch evs.
Proof.
  intros H. eapply does_trace.
  apply (run_within_alone (does no_fetch c)), H.
Qed.

Lemma relay_fulfils (req : ApiRequest) (response : Response) :
  run_always fulfilled (relay req response).
Proof.
  unfold relay. apply run_always_catch.
  - intros a. by exists a.
  - intros e. apply run_always_ret. by eexists.
Qed.

Lemma decode_fulfils (response : Response) :
  run_always fulfilled (decode P c response).
Proof.
  unfold decode. apply run_always_catch.
  - intros a. by exists a.
  - intros e. apply run_always_ret. by eexists.
Qed.

(** Once the Auth Coordinator has answered, the execution ends in a
    Result, whatever runs in between. *)
Lemma execute_with_fulfils (url : string) (method : HttpMethod)
  (req : ApiRequest) (token : JsValue) :
  run_always fulfilled (execute_with P c url method req token).
Proof.
  unfold execute_with. apply run_always_bind.
  apply run_always_catch.
  - intros [response | failed].
    + destruct (req_stream req); [apply relay_fulfils | apply decode_fulfils].
    + apply run_always_ret. by eexists.
  - intros e. apply run_always_ret. apply run_always_ret. by eexists.
Qed.

(** The transport block, run alone: when the call could be got ready
    it is made, once and as it was got ready; when not, nothing is
    sent. *)
Lemma transport_run (url : string) (method : HttpMethod) (req : ApiRequest)
  (headers : HeaderMap) (w : World) :
  run_alone (transport P c url method req headers) w
  = match run_alone (prepare P c url method req headers) w with
    | (w1, Fulfilled call) =>
        (emit (EvFetch call.1 call.2) w1,
         fetch (options c) (calls w1) call.1 call.2)
    | (w1, Rejected e) => (w1, Rejected e)
    end.
Proof.
  unfold transport. rewrite run_alone_bind.
  destruct (run_alone (prepare P c url method req headers) w)
    as [w1 [call | e]]; [| reflexivity].
  by rewrite run_alone_await.
Qed.

Lemma prepare_alone (url : string) (method : HttpMethod) (req : ApiRequest)
  (headers : HeaderMap) (w : World) :
  (exists evs,
     trace (run_alone (prepare P c url method req headers) w).1
       = (trace w ++ evs)%list /\ Forall no_fetch evs) /\
  (forall call,
     (run_alone (prepare P c url method req headers) w).2 = Fulfilled call ->
     target_ok P c url call.1 /\ init_headers call.2 = headers).
Proof.
  split.
  - apply quiet_alone, prepare_does. auto.
  - apply (run_always_alone _ _ w (prepare_keeps P c url method req headers)).
Qed.

Lemma transport_alone (url : string) (method : HttpMethod) (req : ApiRequest)
  (headers : HeaderMap) (w : World) :
  (exists evs target init,
     trace (run_alone (transport P c url method req headers) w).1
       = (trace w ++ evs ++ [EvFetch target init])%list /\
     Forall no_fetch evs /\ init_headers init = headers /\
     target_ok P c url target) \/
  (exists e,
     (run_alone (transport P c url method req headers) w).2 = Rejected e /\
     calls (run_alone (transport P c url method req headers) w).1 = calls w).
Proof.
  rewrite transport_run.
  destruct (prepare_alone url method req headers w)
    as [(evs & Ht & Hq) Hk].
  destruct (run_alone (prepare P c url method req headers) w)
    as [w1 [[target init] | e]]; simpl in Ht, Hk.
  - destruct (Hk _ eq_refl) as [Hg Hh]. simpl in Hg, Hh.
    left. exists evs, target, init. simpl. rewrite Ht, app_assoc. auto.
  - right. exists e. split; [reflexivity |]. by eapply calls_quiet.
Qed.

Lemma execute_with_alone (url : string) (method : HttpMethod)
  (req : ApiRequest) (token : JsValue) (w : World) :
  exists res,
    (run_alone (execute_with P c url method req token) w).2 = Fulfilled res /\
    (called_once P c url (with_bearer token (merged_headers c method req))
       (trace w)
       (trace (run_alone (execute_with P c url method req token) w).1) \/
     (calls (run_alone (execute_with P c url method req token) w).1 = calls w
      /\ exists err, res = Failure 0 None err)).
Proof.
  unfold execute_with. set (headers := with_bearer _ _).
  rewrite run_alone_bind, run_alone_catch, run_alone_bind.
  destruct (transport_alone url method req headers w)
    as [(evs & target & init & Ht & Hq & Hh & Hg) | (e & Hr & Hc)].
  - destruct (run_alone (transport P c url method req headers) w)
      as [w1 [response | e]]; simpl in Ht.
    + rewrite run_alone_ret.
      set (rest := if req_stream req then relay req response
                   else decode P c response).
      assert (run_within (does no_fetch c) rest) as Hd.
      { unfold rest. destruct (req_stream req);
          [apply relay_does | apply decode_does]; auto. }
      assert (run_always fulfilled rest) as Hf.
      { unfold rest. destruct (req_stream req);
          [apply relay_fulfils | apply decode_fulfils]. }
      destruct (quiet_alone rest w1 Hd) as (evs' & Ht' & Hq').
      destruct (run_always_alone _ _ w1 Hf) as [res Hres].
      exists res. split; [exact Hres |]. left.
      exists evs, target, init, evs'. rewrite Ht', Ht.
      rewrite <- !app_assoc. simpl. auto.
    + rewrite !run_alone_ret. eexists. split; [reflexivity |]. left.
      exists evs, target, init, []. simpl. rewrite Ht.
      repeat split; auto.
  - destruct (run_alone (transport P c url method req headers) w)
      as [w1 r]; simpl in Hr, Hc. subst r.
    rewrite !run_alone_ret. eexists. split; [reflexivity |]. right.
    simpl. split; [exact Hc | by eexists].
Qed.




End TransportFacts.
End TransportFacts.

(* ===================================================================== *)
(** * Headers *)
(* ===================================================================== *)

Module HeaderFacts.

Lemma header_get_set (k k' v : string) (h : HeaderMap) :
  header_get k (obj_set k' v h)
  = if String.eqb k k' then Some v else header_get k h.
Proof.
  induction h as [| [k0 v0] h IH]; simpl.
  - reflexivity.
  - destruct (String.eqb_spec k' k0) as [-> | Hne]; simpl.
    + destruct (String.eqb k k0); reflexivity.
    + rewrite IH. destruct (String.eqb_spec k k0) as [-> | Hne'].
      * destruct (String.eqb_spec k0 k'); [congruence | reflexivity].
      * reflexivity.
Qed.



End HeaderFacts.

(* ===================================================================== *)
(** * The gateway *)
(* ===================================================================== *)

Module GatewayFacts.
Import AioFacts.

Section GatewayFacts.
Context (P : Platform) (c : ApiClient).







End GatewayFacts.
End GatewayFacts.

(* ===================================================================== *)
(** * The Auth Coordinator, run alone *)
(* ===================================================================== *)

Module AuthFacts.
Import AioFacts.

Section AuthFacts.
Context (P : Platform) (a : AuthManager).

Lemma run_alone_getTokens (w : World) :
  run_alone (MemoryTokenStorage.getTokens (storage a)) w
  = (emit (EvGetTokens (storage a)) w,
     Fulfilled (MemoryTokenStorage.tokens_at (storage a) w)).
Proof. reflexivity. Qed.

(** No access token: none is returned. *)
Lemma no_token (w : World) :
  truthy (obj_get "accessToken" (MemoryTokenStorage.tokens_at (storage a) w))
    = false ->
  run_alone (getValidAccessToken P a) w
  = (emit (EvGetTokens (storage a)) w, Fulfilled JNull).
Proof.
  intros H. unfold getValidAccessToken.
  rewrite run_alone_bind, run_alone_await, run_alone_getTokens.
  by rewrite H.
Qed.

(** A token that has not expired is returned as it is. *)
Lemma live_token (w : World) :
  let tokens := MemoryTokenStorage.tokens_at (storage a) w in
  truthy (obj_get "accessToken" tokens) = true ->
  isExpired a (now w) (token_metadata P tokens) = false ->
  run_alone (getValidAccessToken P a) w
  = (emit (EvGetTokens (storage a)) w,
     Fulfilled (obj_get "accessToken" tokens)).
Proof.
  intros tokens H1 H2. unfold getValidAccessToken.
  rewrite run_alone_bind, run_alone_await, run_alone_getTokens.
  fold tokens. rewrite H1. simpl negb. cbv iota.
  rewrite run_alone_bind, run_alone_await. unfold enrichMetadata.
  rewrite run_alone_ret, run_alone_bind, run_alone_gets.
  simpl now. by rewrite H2.
Qed.


End AuthFacts.
End AuthFacts.

(* ===================================================================== *)
(** * Two clients *)
(* ===================================================================== *)

Module IsolationFacts.
Import AioFacts DoesFacts FrameFacts.

Lemma untouched_refl (c : ApiClient) (w : World) : untouched c w w.
Proof. split; auto. Qed.

Lemma untouched_trans (c : ApiClient) (w1 w2 w3 : World) :
  untouched c w1 w2 -> untouched c w2 w3 -> untouched c w1 w3.
Proof.
  intros [A1 A2] [B1 B2]. split; [congruence |].
  intros r Hr. rewrite B2, A2; auto.
Qed.

Lemma framed_untouched (c c' : ApiClient) (w w' : World) :
  apart c c' -> framed c w w' -> untouched c' w w'.
Proof.
  intros (Hs & Hc & _) (_ & _ & _ & _ & F5 & F6). split.
  - unfold MemoryTokenStorage.tokens_at. rewrite F5; auto.
  - intros r Hr. unfold cache_at. rewrite F6; [reflexivity |].
    intros Hr'. by apply (Hc r r).
Qed.

(** What the code of one client does cannot be seen through a client
    apart from it. *)
Lemma does_untouched (Φ : Event -> Prop) (c c' : ApiClient) (w w' : World) :
  apart c c' -> does Φ c w w' -> untouched c' w w'.
Proof. intros Ha Hd. eapply framed_untouched; eauto using does_framed. Qed.

Lemma apart_sym (c c' : ApiClient) : apart c c' -> apart c' c.
Proof.
  intros (H1 & H2 & H3). repeat split; auto.
  intros r r' Hr Hr' Heq. by apply (H2 r' r).
Qed.

Section Request.
Context (P : Platform).

(** The synchronous part of [request] as well. *)
Lemma cache_lookup_untouched (c c' : ApiClient) (key : string) (w : World) :
  apart c c' -> untouched c' w (cache_lookup c key w).1.
Proof.
  intros Ha. unfold cache_lookup.
  destruct (cache c) as [ref |] eqn:Hc; [| apply untouched_refl].
  destruct (LruCacheAdapter.get (now w) key (cache_at ref w)) as [hit c1].
  simpl. split; [reflexivity |]. intros r Hr. unfold cache_at. simpl.
  rewrite lookup_insert_ne; [reflexivity |].
  destruct Ha as (_ & Ha & _). by apply (Ha ref r).
Qed.

Lemma register_untouched (c c' : ApiClient) (key : string) (p : nat)
  (w : World) : untouched c' w (register c key p w).
Proof.
  unfold register. destruct (enableInFlightDedup (options c));
    [| apply untouched_refl]. split; auto.
Qed.

Lemma request_untouched (c c' : ApiClient) (req : ApiRequest) (fresh : nat)
  (w : World) :
  apart c c' -> untouched c' w (request P c req fresh w).1.
Proof.
  intros Ha. unfold request.
  destruct (buildUrl P _ _ _) as [url | e]; [| apply untouched_refl].
  destruct (cacheKey_of _ url req) as [key | e]; [| apply untouched_refl].
  pose proof (cache_lookup_untouched c c' key w Ha) as H1.
  destruct (cache_lookup c key w).2 as [res |]; [exact H1 |].
  destruct (registered c key _) as [p |]; [exact H1 |].
  simpl. eapply untouched_trans; [exact H1 |].
  eapply untouched_trans; [| apply register_untouched].
  eapply does_untouched; [exact Ha |].
  apply (exec_does P c url (default GET (req_method req)) req key
           (cache_lookup c key w).1).
Qed.
End Request.

End IsolationFacts.

Module VariantFacts.
Import AioFacts DoesFacts IsolationFacts.

Section VariantFacts.
Context (P : Platform).

(** The operations of a client, seen from a client apart from it. *)
Lemma operations_untouched (c c' : ApiClient) :
  apart c c' ->
  (forall a r, run_within (untouched c') (setTokens P c a r)) /\
  run_within (untouched c') (clearTokens c) /\
  (forall req fresh w, untouched c' w (request P c req fresh w).1) /\
  (forall url m req key, run_within (untouched c') (exec P c url m req key)).
Proof.
  intros Ha. split; [| split; [| split]].
  - intros a r.
    eapply run_within_weaken; [intros w w'; by apply does_untouched |].
    apply (setTokens_does P any_event c). by intros.
  - eapply run_within_weaken; [intros w w'; by apply does_untouched |].
    apply (clearTokens_does any_event c). by intros.
  - intros req fresh w. by apply request_untouched.
  - intros url m req key.
    eapply run_within_weaken; [intros w w'; by apply does_untouched |].
    apply exec_does.
Qed.

(** What [withEncryption] returns when the options name no storage and
    no cache. *)
Lemma withEncryption_fresh (c : ApiClient) (secret : JsValue) (w : World) :
  cfg_storage (auth_config (options c)) = None ->
  cache_option (options c) = CacheUnset ->
  withEncryption P c secret w
  = (set_next_ref S
       (set_registries (insert (S (S (next_ref w))) ∅)
          (set_next_ref S
             (set_caches (insert (S (next_ref w)) (LruCacheAdapter.new None))
                (set_next_ref S
                   (set_stores
                      (insert (next_ref w) MemoryTokenStorage.empty) w))))),
     mkClient
       (mkOptions (baseUrl (options c)) (gatewayPath (options c))
                  (fetch (options c)) (defaultHeaders (options c))
                  (auth_config (options c))
                  (Some (AesGcmEncryption P secret)) CacheUnset
                  (cacheTtlMs (options c))
                  (enableInFlightDedup (options c)))
       (mkAuth (next_ref w) (cfg_onRefresh (auth_config (options c)))
               (default defaultIsTokenExpired
                        (cfg_isTokenExpired (auth_config (options c)))))
       (Some (S (next_ref w))) (S (S (next_ref w)))).
Proof.
  intros Hs Hc. unfold withEncryption, ApiClient_new, AuthManager_new.
  simpl. rewrite Hs, Hc. reflexivity.
Qed.

End VariantFacts.
End VariantFacts.

(* ===================================================================== *)
(** * How an execution can settle *)
(* ===================================================================== *)

Module SettleFacts.
Import AioFacts TransportFacts.

Section SettleFacts.
Context (P : Platform) (c : ApiClient).

(** [execute] rejects only with a rejection of the Auth Coordinator. *)
Lemma execute_settles (url : string) (method : HttpMethod) (req : ApiRequest)
  (w : World) (r : Outcome ApiResponse) :
  settles (execute P c url method req w).2 r ->
  fulfilled r \/
  exists e, r = Rejected e /\
            settles (getValidAccessToken P (auth c) w).2 (Rejected e).
Proof.
  unfold execute, bind. intros H.
  apply settles_bindA in H as [(e & -> & He) | (token & w' & _ & Hr)].
  - right. exists e. split; [reflexivity |]. by apply settles_laterA.
  - left. eapply always_settles; [| exact Hr].
    apply execute_with_fulfils.
Qed.

(** The cache write on settlement does not fail. *)
Lemma exec_settles (url : string) (method : HttpMethod) (req : ApiRequest)
  (key : string) (w : World) (r : Outcome ApiResponse) :
  settles (exec P c url method req key w).2 r ->
  fulfilled r \/
  exists e, r = Rejected e /\
            settles (getValidAccessToken P (auth c) w).2 (Rejected e).
Proof.
  unfold exec. unfold bind at 1. intros H.
  apply settles_bindA in H as [(e & -> & He) | (res & w' & _ & Hr)].
  - apply settles_laterA in He.
    apply execute_settles in He as [[a Ha] | He]; [discriminate | by right].
  - left. revert Hr. unfold bind, cache_write, cache_set, modify, ret.
    destruct (cache c) as [ref |]; [destruct (ok res) |]; simpl;
      intros Hr; inversion Hr; subst; by eexists.
Qed.

(** A failure of the transport block is the Result with status 0. *)
Lemma transport_failure (url : string) (method : HttpMethod)
  (req : ApiRequest) (token : JsValue) (w : World) (e : Thrown) :
  (run_alone (transport P c url method req
                (with_bearer token (merged_headers c method req))) w).2
    = Rejected e ->
  (run_alone (execute_with P c url method req token) w).2
    = Fulfilled (Failure 0 None (makeErrorShape (toApiError e "ERR_NETWORK"))).
Proof.
  intros H. unfold execute_with.
  rewrite run_alone_bind, run_alone_catch, run_alone_bind.
  destruct (run_alone (transport P c url method req _) w) as [w1 r].
  simpl in H. subst r. by rewrite !run_alone_ret.
Qed.

(** A failure of the stream relay is a Failure Result with the status
    and headers of the response. *)
Lemma relay_failure (req : ApiRequest) (response : Response) (w : World)
  (e : Thrown) :
  (run_alone (streamResponse response
                (default no_handlers (req_streamHandlers req))) w).2
    = Rejected e ->
  (run_alone (relay req response) w).2
    = Fulfilled (Failure (resp_status response) (Some (resp_headers response))
                         (makeErrorShape (toApiError e "ERR_STREAM"))).
Proof.
  intros H. unfold relay.
  rewrite run_alone_catch, run_alone_bind, run_alone_await.
  destruct (run_alone (streamResponse response _) w) as [w1 r].
  simpl in H. subst r. by rewrite run_alone_ret.
Qed.

End SettleFacts.
End SettleFacts.

(* ===================================================================== *)
(** * Transport calls of one execution *)
(* ===================================================================== *)

Module SpendFacts.
Import AioFacts AioTactics DoesFacts FrameFacts.

Section SpendFacts.
Context (P : Platform) (c : ApiClient).

Lemma quiet_spends {A} (m : Job A) :
  run_within (does no_fetch c) m -> run_spends calls 0 m.
Proof.
  intros H. apply run_within_spends.
  eapply run_within_weaken; [| exact H]. intros w w'. apply does_calls.
Qed.

Lemma calls_emit_fetch (target : string) (init : RequestInit) (w : World) :
  calls (emit (EvFetch target init) w) = (calls w + 1)%nat.
Proof.
  unfold calls, transport_calls. simpl. rewrite filter_app, length_app.
  reflexivity.
Qed.

Lemma call_fetch_spends (f : Fetch) (target : string) (init : RequestInit) :
  run_spends calls 1 (call_fetch f target init).
Proof.
  intros w. exists 1%nat. split; [lia |]. split; [| exact I].
  apply calls_emit_fetch.
Qed.

Lemma transport_spends (url : string) (method : HttpMethod)
  (req : ApiRequest) (headers : HeaderMap) :
  run_spends calls 1 (transport P c url method req headers).
Proof.
  unfold transport.
  apply (run_spends_bind calls 0 1).
  { apply quiet_spends. apply prepare_does. auto. }
  intros call. apply run_spends_await, call_fetch_spends.
Qed.

Lemma execute_with_spends (url : string) (method : HttpMethod)
  (req : ApiRequest) (token : JsValue) :
  run_spends calls 1 (execute_with P c url method req token).
Proof.
  unfold execute_with. apply (run_spends_bind calls 1 0).
  - apply run_spends_catch.
    + apply (run_spends_bind calls 1 0); [apply transport_spends |].
      intros response. apply quiet_spends.
      apply (run_within_ret (does no_fetch c)).
    + intros e. apply quiet_spends.
      apply (run_within_ret (does no_fetch c)).
  - intros [response | failed].
    + apply quiet_spends. destruct (req_stream req);
        [apply relay_does | apply decode_does]; auto.
    + apply quiet_spends. apply (run_within_ret (does no_fetch c)).
Qed.

Lemma execute_spends (url : string) (method : HttpMethod) (req : ApiRequest) :
  run_spends calls 1 (execute P c url method req).
Proof.
  unfold execute. apply (run_spends_bind calls 0 1).
  - apply run_spends_await, quiet_spends, getValidAccessToken_does. auto.
  - intros token. apply execute_with_spends.
Qed.

(** One execution, at most one transport call. *)
Lemma exec_spends (url : string) (method : HttpMethod) (req : ApiRequest)
  (key : string) :
  run_spends calls 1 (exec P c url method req key).
Proof.
  unfold exec. apply (run_spends_bind calls 1 0).
  - apply run_spends_await, execute_spends.
  - intros res. apply quiet_spends. unfold cache_write, cache_set.
    within_go ltac:(apply (run_within_modify (does no_fetch c));
                    intros ?; by apply does_cache).
Qed.

End SpendFacts.
End SpendFacts.

(* ===================================================================== *)
(** * The registry *)
(* ===================================================================== *)

Module RegistryFacts.

Lemma registry_at_eq (ref : nat) (w w' : World) :
  registries w' = registries w ->
  InFlightDeduper.registry_at ref w' = InFlightDeduper.registry_at ref w.
Proof. unfold InFlightDeduper.registry_at. by intros ->. Qed.

Lemma registry_at_set (r ref : nat) (key : string) (p : nat) (w : World) :
  InFlightDeduper.registry_at r (InFlightDeduper.set ref key p w).1
  = if decide (ref = r) then <[key := p]> (InFlightDeduper.registry_at ref w)
    else InFlightDeduper.registry_at r w.
Proof.
  unfold InFlightDeduper.registry_at at 1. simpl. rewrite lookup_insert.
  case_decide; subst; reflexivity.
Qed.

Lemma registry_at_on_settled (r ref : nat) (key : string) (w : World) :
  InFlightDeduper.registry_at r (InFlightDeduper.on_settled ref key w)
  = if decide (ref = r) then delete key (InFlightDeduper.registry_at ref w)
    else InFlightDeduper.registry_at r w.
Proof.
  unfold InFlightDeduper.registry_at at 1. simpl. rewrite lookup_insert.
  case_decide; subst; reflexivity.
Qed.

(** An entry lives in a registry that was allocated. *)
Lemma entry_allocated (ref : nat) (key : string) (p : nat) (w : World) :
  InFlightDeduper.registry_at ref w !! key = Some p ->
  is_Some (registries w !! ref).
Proof.
  unfold InFlightDeduper.registry_at.
  destruct (registries w !! ref); [eauto | simpl].
  by rewrite lookup_empty.
Qed.

End RegistryFacts.

(* ===================================================================== *)
(** * Creating a client *)
(* ===================================================================== *)

Module NewFacts.
Import CacheFacts.

Section NewFacts.
Context (P : Platform).

Lemma AuthManager_new_world (config : AuthConfig) (w : World) :
  now (AuthManager_new config w).1 = now w /\
  reactions (AuthManager_new config w).1 = reactions w /\
  trace (AuthManager_new config w).1 = trace w /\
  caches (AuthManager_new config w).1 = caches w /\
  registries (AuthManager_new config w).1 = registries w /\
  (next_ref w <= next_ref (AuthManager_new config w).1)%nat.
Proof.
  unfold AuthManager_new. destruct (cfg_storage config); simpl;
    repeat split; lia.
Qed.

(** [new ApiClient] allocates a registry of its own, empty, at a
    reference not used before; it leaves the clock, the trace and the
    pending callbacks alone, and the caches hold Successes only if they
    did. *)
Lemma ApiClient_new_world (opts : option ClientOptions) (w : World) :
  now (ApiClient_new P opts w).1 = now w /\
  reactions (ApiClient_new P opts w).1 = reactions w /\
  trace (ApiClient_new P opts w).1 = trace w /\
  (caches_ok w -> caches_ok (ApiClient_new P opts w).1) /\
  (next_ref w <= inflight (ApiClient_new P opts w).2)%nat /\
  (inflight (ApiClient_new P opts w).2
   < next_ref (ApiClient_new P opts w).1)%nat /\
  registries (ApiClient_new P opts w).1
  = <[inflight (ApiClient_new P opts w).2 := ∅]> (registries w).
Proof.
  unfold ApiClient_new.
  set (o := mkOptions _ _ _ _ _ _ _ _ _).
  destruct (AuthManager_new_world (auth_config o) w)
    as (A1 & A2 & A3 & A4 & A5 & A6).
  destruct (AuthManager_new (auth_config o) w) as [w1 a]. simpl in *.
  destruct (co_cache (default no_options opts)); simpl;
    rewrite ?A1, ?A2, ?A3, ?A5; repeat split; try lia; try reflexivity.
  - intros Hw r c0. simpl. rewrite lookup_insert.
    case_decide; [intros [= <-]; apply new_ok |].
    rewrite A4. apply Hw.
  - intros Hw r c0. simpl. rewrite A4. apply Hw.
  - intros Hw r c0. simpl. rewrite A4. apply Hw.
Qed.

End NewFacts.
End NewFacts.

(* ===================================================================== *)
(** * The loop keeps its invariant *)
(* ===================================================================== *)

Module LoopFacts.
Import AioFacts DoesFacts FrameFacts CacheFacts RegistryFacts NewFacts
       SpendFacts.

Lemma boot_sound (t : Z) : sound (boot t).
Proof.
  constructor; simpl.
  - intros ref c. simpl. by rewrite lookup_empty.
  - intros p t0. by rewrite lookup_empty.
  - intros p. unfold spent_of. simpl. rewrite lookup_empty. simpl. lia.
  - constructor.
  - intros p ref key H. by apply elem_of_nil in H.
  - intros ref key p. unfold InFlightDeduper.registry_at. simpl.
    by rewrite !lookup_empty.
  - constructor.
  - intros p [[x H] | [x H]]; by rewrite lookup_empty in H.
  - intros p _. apply lookup_empty.
  - intros c H. by apply elem_of_nil in H.
  - intros ref _. apply lookup_empty.
Qed.

(** A turn that leaves the registries, the pending callbacks, the
    allocator and the promises alone. *)
Lemma sound_update (L : Loop) (w' : World) (chores' : list (Task unit))
  (handles' : list Handle) (np : nat) :
  sound L ->
  registries w' = registries (world L) ->
  reactions w' = reactions (world L) ->
  next_ref w' = next_ref (world L) ->
  caches_ok w' ->
  Forall (fun t => exists c, within (does any_event c) t) chores' ->
  (next_promise L <= np)%nat ->
  sound (mkLoop w' (clients L) (pending L) (settled L) chores' np handles'
                (spent L)).
Proof.
  intros [S1 S2 S3 S4 S5 S6 S7 S8 S9 S10 S11] Hr Hk Hn Hc Hch Hnp.
  constructor; simpl; auto.
  - intros p ref key. rewrite Hk, (registry_at_eq ref _ _ Hr). apply S5.
  - intros ref key p. rewrite Hk, (registry_at_eq ref _ _ Hr). apply S6.
  - by rewrite Hk.
  - intros p Hp. specialize (S8 p Hp). lia.
  - intros c Hin. rewrite Hn. by apply S10.
  - intros ref. rewrite Hn, Hr. apply S11.
Qed.

(** What the code of a client does is such a turn. *)
Lemma does_update (c : ApiClient) (w w' : World) :
  does any_event c w w' ->
  registries w' = registries w /\ reactions w' = reactions w /\
  next_ref w' = next_ref w /\ (caches_ok w -> caches_ok w').
Proof.
  intros H. destruct (does_framed _ _ _ _ H) as (_ & F2 & F3 & F4 & _).
  repeat split; auto. by apply (does_caches_ok _ _ _ _ H).
Qed.

Section Steps.
Context (P : Platform).

Lemma sound_elapse (L L' : Loop) (d : Z) :
  sound L -> turn P (Elapse d) L = Some L' -> sound L'.
Proof.
  intros HS. simpl. destruct (0 <=? d); [| discriminate].
  intros [= <-]. apply sound_update; auto; try apply HS.
Qed.

Lemma sound_chore (L L' : Loop) (j : nat) :
  sound L -> turn P (Chore j) L = Some L' -> sound L'.
Proof.
  intros HS. simpl.
  destruct (chores L !! j) as [[r | eff next] |] eqn:Hj; simpl;
    try discriminate.
  intros [= <-].
  destruct (Forall_lookup_1 _ _ _ _ (sound_chores L HS) Hj) as (c & Hc).
  simpl in Hc. destruct (Hc (world L)) as [Hd Hw].
  destruct (does_update c _ _ Hd) as (U1 & U2 & U3 & U4).
  apply sound_update; auto.
  - apply U4, HS.
  - apply Forall_insert; [apply HS | by exists c].
Qed.

Lemma sound_setTokens (L L' : Loop) (i : nat) (a r : JsValue) :
  sound L -> turn P (SetTokens i a r) L = Some L' -> sound L'.
Proof.
  intros HS. simpl. destruct (clients L !! i) as [c |]; simpl;
    [| discriminate].
  intros [= <-].
  destruct (setTokens_does P any_event c (fun _ _ => I) a r (world L))
    as [Hd Hw].
  destruct (does_update c _ _ Hd) as (U1 & U2 & U3 & U4).
  apply sound_update; auto.
  - apply U4, HS.
  - apply Forall_app. split; [apply HS |]. constructor; [| constructor].
    by exists c.
Qed.

Lemma sound_clearTokens (L L' : Loop) (i : nat) :
  sound L -> turn P (ClearTokens i) L = Some L' -> sound L'.
Proof.
  intros HS. simpl. destruct (clients L !! i) as [c |]; simpl;
    [| discriminate].
  intros [= <-].
  destruct (clearTokens_does any_event c (fun _ _ => I) (world L))
    as [Hd Hw].
  destruct (does_update c _ _ Hd) as (U1 & U2 & U3 & U4).
  apply sound_update; auto.
  - apply U4, HS.
  - apply Forall_app. split; [apply HS |]. constructor; [| constructor].
    by exists c.
Qed.

Lemma registry_at_fresh (r ref : nat) (w w' : World) :
  registries w' = <[ref := ∅]> (registries w) ->
  registries w !! ref = None ->
  InFlightDeduper.registry_at r w' = InFlightDeduper.registry_at r w.
Proof.
  intros Hr Hn. unfold InFlightDeduper.registry_at. rewrite Hr, lookup_insert.
  case_decide; subst; [by rewrite Hn | reflexivity].
Qed.

Lemma sound_client (L : Loop) (opts : option ClientOptions) :
  sound L ->
  sound (mkLoop (ApiClient_new P opts (world L)).1
                (clients L ++ [(ApiClient_new P opts (world L)).2])
                (pending L) (settled L) (chores L) (next_promise L)
                (handles L) (spent L)).
Proof.
  intros [S1 S2 S3 S4 S5 S6 S7 S8 S9 S10 S11].
  destruct (ApiClient_new_world P opts (world L))
    as (N1 & N2 & N3 & N4 & N5 & N6 & N7).
  assert (forall r, InFlightDeduper.registry_at r (ApiClient_new P opts (world L)).1
                    = InFlightDeduper.registry_at r (world L)) as Hreg.
  { intros r. eapply registry_at_fresh; [exact N7 | by apply S11]. }
  constructor; simpl; auto.
  - intros p ref key. rewrite N2, Hreg. apply S5.
  - intros ref key p. rewrite N2, Hreg. apply S6.
  - by rewrite N2.
  - intros c Hin. apply elem_of_app in Hin as [Hin | Hin].
    + specialize (S10 c Hin). lia.
    + apply list_elem_of_singleton in Hin. by subst c.
  - intros ref Href. rewrite N7, lookup_insert_ne by lia. apply S11. lia.
Qed.

Lemma sound_new (L L' : Loop) (opts : option ClientOptions) :
  sound L -> turn P (New opts) L = Some L' -> sound L'.
Proof.
  intros HS. simpl.
  pose proof (sound_client L opts HS) as H.
  destruct (ApiClient_new P opts (world L)) as [w c]. by intros [= <-].
Qed.

Lemma sound_encrypted (L L' : Loop) (i : nat) (secret : JsValue) :
  sound L -> turn P (Encrypted i secret) L = Some L' -> sound L'.
Proof.
  intros HS. simpl. destruct (clients L !! i) as [c |]; simpl;
    [| discriminate].
  unfold withEncryption.
  pose proof (sound_client L
                (Some (with_encryption_options (options c)
                         (AesGcmEncryption P secret))) HS) as H.
  destruct (ApiClient_new P _ (world L)) as [w c']. by intros [= <-].
Qed.

(** Resuming an execution: what it hands to the transport is charged to
    it, and it settles at most once. *)
Lemma sound_resume (L L' : Loop) (p : nat) :
  sound L -> turn P (Resume p) L = Some L' -> sound L'.
Proof.
  intros HS. simpl.
  destruct (pending L !! p) as [[r | eff next] |] eqn:Hp; simpl;
    try discriminate.
  destruct (sound_pending L HS p _ Hp) as (c & Hw & Hsp).
  simpl in Hw, Hsp.
  destruct (Hw (world L)) as [Hd Hnext].
  destruct (Hsp (world L)) as (d & Hd1 & Hd2 & Hd3).
  destruct (does_update c _ _ Hd) as (U1 & U2 & U3 & U4).
  pose proof (sound_spent L HS p) as Hsp1.
  pose proof (sound_once L HS p (mk_is_Some _ _ Hp)) as Hnot.
  assert (calls (eff (world L)) - calls (world L) = d)%nat as Hdiff by lia.
  destruct HS as [S1 S2 S3 S4 S5 S6 S7 S8 S9 S10 S11].
  unfold park. destruct (next (world L)) as [r | eff' next'] eqn:Hn;
    intros [= <-]; constructor; simpl; auto.
  - intros q t. rewrite lookup_delete. case_decide; [discriminate |].
    intros Hq. unfold spent_of. simpl. rewrite lookup_insert_ne by done.
    by apply S2.
  - intros q. unfold spent_of. simpl. rewrite lookup_insert.
    case_decide; subst; simpl; [unfold spent_of in *; lia | apply S3].
  - intros q ref key. rewrite U2, (registry_at_eq ref _ _ U1).
    intros Hin. destruct (S5 q ref key Hin) as [E1 E2]. split; [exact E1 |].
    destruct (decide (p = q)) as [-> | Hne].
    + right. rewrite lookup_insert_eq. eauto.
    + rewrite lookup_delete_ne, lookup_insert_ne by done. exact E2.
  - intros ref key q. rewrite U2, (registry_at_eq ref _ _ U1). apply S6.
  - by rewrite U2.
  - intros q Hq. apply S8. destruct (decide (p = q)) as [-> | Hne].
    + left. eauto.
    + rewrite lookup_delete_ne, lookup_insert_ne in Hq by done. exact Hq.
  - intros q Hq. rewrite lookup_delete in Hq.
    case_decide; [by destruct Hq |]. rewrite lookup_insert_ne by done.
    by apply S9.
  - intros c0 Hin. rewrite U3. by apply S10.
  - intros ref. rewrite U3, U1. apply S11.
  - intros q t. rewrite lookup_insert. case_decide.
    + subst q. intros [= <-]. exists c. split; [exact Hnext |].
      unfold spent_of. simpl. rewrite lookup_insert_eq. simpl.
      replace (1 - (default 0%nat (spent L !! p)
                    + (calls (eff (world L)) - calls (world L))))%nat
        with (1 - spent_of L p - d)%nat by (unfold spent_of; lia).
      exact Hd3.
    + intros Hq. unfold spent_of. simpl. rewrite lookup_insert_ne by done.
      by apply S2.
  - intros q. unfold spent_of. simpl. rewrite lookup_insert.
    case_decide; subst; simpl; [unfold spent_of in *; lia | apply S3].
  - intros q ref key. rewrite U2, (registry_at_eq ref _ _ U1).
    intros Hin. destruct (S5 q ref key Hin) as [E1 E2]. split; [exact E1 |].
    destruct (decide (p = q)) as [-> | Hne].
    + left. rewrite lookup_insert_eq. eauto.
    + rewrite lookup_insert_ne by done. exact E2.
  - intros ref key q. rewrite U2, (registry_at_eq ref _ _ U1). apply S6.
  - by rewrite U2.
  - intros q Hq. apply S8. destruct (decide (p = q)) as [-> | Hne].
    + left. eauto.
    + rewrite lookup_insert_ne in Hq by done. exact Hq.
  - intros q Hq. destruct (decide (p = q)) as [-> | Hne]; [exact Hnot |].
    rewrite lookup_insert_ne in Hq by done. by apply S9.
  - intros c0 Hin. rewrite U3. by apply S10.
  - intros ref. rewrite U3, U1. apply S11.
Qed.

(** A new execution joins the loop as the promise [next_promise]. *)
Lemma sound_spawn (L : Loop) (w' : World) (t : Task ApiResponse) (d : nat)
  (handles' : list Handle) :
  sound L ->
  registries w' = registries (world L) ->
  reactions w' = reactions (world L) ->
  next_ref w' = next_ref (world L) ->
  caches_ok w' ->
  task_ok (1 - d) t -> (d <= 1)%nat ->
  sound (mkLoop w' (clients L)
                (park (next_promise L) t (pending L) (settled L)).1
                (park (next_promise L) t (pending L) (settled L)).2
                (chores L) (S (next_promise L)) handles'
                (<[next_promise L := d]> (spent L))).
Proof.
  intros [S1 S2 S3 S4 S5 S6 S7 S8 S9 S10 S11] Hr Hk Hn Hc Ht Hd.
  set (fresh := next_promise L).
  assert (forall q, is_Some (pending L !! q) \/ is_Some (settled L !! q) ->
                    q <> fresh) as Hfresh.
  { intros q Hq. specialize (S8 q Hq). unfold fresh. lia. }
  assert (pending L !! fresh = None) as Hpf.
  { destruct (pending L !! fresh) eqn:E; [| reflexivity].
    by destruct (Hfresh fresh (or_introl (mk_is_Some _ _ E))). }
  assert (settled L !! fresh = None) as Hsf.
  { destruct (settled L !! fresh) eqn:E; [| reflexivity].
    by destruct (Hfresh fresh (or_intror (mk_is_Some _ _ E))). }
  assert (forall q, q <> fresh ->
            (park fresh t (pending L) (settled L)).1 !! q = pending L !! q /\
            (park fresh t (pending L) (settled L)).2 !! q = settled L !! q)
    as Hother.
  { intros q Hq. unfold park. destruct t; simpl.
    - by rewrite lookup_delete_ne, lookup_insert_ne.
    - by rewrite lookup_insert_ne. }
  constructor; simpl; auto.
  - intros q t0 Hq. unfold spent_of. simpl.
    destruct (decide (q = fresh)) as [-> | Hne].
    + rewrite lookup_insert_eq. simpl.
      unfold park in Hq. destruct t; simpl in Hq.
      * rewrite lookup_delete_eq in Hq. discriminate.
      * rewrite lookup_insert_eq in Hq. injection Hq as <-. exact Ht.
    + rewrite lookup_insert_ne by done.
      destruct (Hother q Hne) as [E _]. rewrite E in Hq. by apply S2.
  - intros q. unfold spent_of. simpl. rewrite lookup_insert.
    case_decide; simpl; [exact Hd | apply S3].
  - intros q ref key. rewrite Hk, (registry_at_eq ref _ _ Hr). intros Hin.
    destruct (S5 q ref key Hin) as [E1 E2]. split; [exact E1 |].
    destruct (Hother q (Hfresh q E2)) as [-> ->]. exact E2.
  - intros ref key q. rewrite Hk, (registry_at_eq ref _ _ Hr). apply S6.
  - by rewrite Hk.
  - intros q Hq. destruct (decide (q = fresh)) as [-> | Hne];
      [unfold fresh; lia |].
    destruct (Hother q Hne) as [E1 E2]. rewrite E1, E2 in Hq.
    specialize (S8 q Hq). lia.
  - intros q Hq. destruct (decide (q = fresh)) as [-> | Hne].
    + unfold park in *. destruct t; simpl in *.
      * rewrite lookup_delete_eq in Hq. by destruct Hq.
      * exact Hsf.
    + destruct (Hother q Hne) as [E1 E2]. rewrite E2. apply S9.
      by rewrite <- E1.
  - intros c Hin. rewrite Hn. by apply S10.
  - intros ref. rewrite Hn, Hr. apply S11.
Qed.

(** Registering a promise under a key that has no entry. *)
Lemma sound_register (L : Loop) (ref : nat) (key : string) (p : nat) :
  sound L ->
  InFlightDeduper.registry_at ref (world L) !! key = None ->
  (ref < next_ref (world L))%nat ->
  is_Some (pending L !! p) \/ is_Some (settled L !! p) ->
  sound (mkLoop (InFlightDeduper.set ref key p (world L)).1 (clients L)
                (pending L) (settled L) (chores L) (next_promise L)
                (handles L) (spent L)).
Proof.
  intros [S1 S2 S3 S4 S5 S6 S7 S8 S9 S10 S11] Hnone Href Hp.
  pose proof (fun r0 => registry_at_set r0 ref key p (world L)) as Hreg.
  assert (reactions (InFlightDeduper.set ref key p (world L)).1
          = (reactions (world L) ++ [(p, ref, key)])%list) as Hk
    by reflexivity.
  assert (caches (InFlightDeduper.set ref key p (world L)).1
          = caches (world L)) as Hc by reflexivity.
  assert (next_ref (InFlightDeduper.set ref key p (world L)).1
          = next_ref (world L)) as Hn by reflexivity.
  assert (registries (InFlightDeduper.set ref key p (world L)).1
          = <[ref := <[key := p]> (InFlightDeduper.registry_at ref (world L))]>
              (registries (world L))) as Hr by reflexivity.
  remember (InFlightDeduper.set ref key p (world L)).1 as w' eqn:Hw'.
  clear Hw'. constructor; simpl; auto.
  - intros r0 c0. rewrite Hc. apply S1.
  - intros q r0 key0. rewrite Hk, Hreg. intros Hq.
    apply elem_of_app in Hq as [Hq | Hq].
    + destruct (S5 q r0 key0 Hq) as [E1 E2]. split; [| exact E2].
      case_decide; [subst r0 | exact E1].
      rewrite lookup_insert_ne; [exact E1 |]. intros <-. congruence.
    + apply list_elem_of_singleton in Hq. injection Hq as -> -> ->.
      split; [| exact Hp]. rewrite decide_True by done.
      apply lookup_insert_eq.
  - intros r0 key0 q. rewrite Hk, Hreg. intros Hq.
    apply elem_of_app. case_decide; [subst r0 | left; by apply S6].
    rewrite lookup_insert in Hq. case_decide.
    + subst key0. injection Hq as <-. right. by apply list_elem_of_singleton.
    + left. by apply S6.
  - rewrite Hk. apply NoDup_app. split; [exact S7 |].
    split; [| apply NoDup_singleton].
    intros x Hx Hx'. apply list_elem_of_singleton in Hx'. subst x.
    destruct (S5 p ref key Hx) as [E _]. congruence.
  - intros c0 Hin. rewrite Hn. by apply S10.
  - intros r0. rewrite Hn, Hr. intros Hr0.
    rewrite lookup_insert_ne by lia. by apply S11.
Qed.

Lemma cache_lookup_world (c : ApiClient) (key : string) (w : World) :
  registries (cache_lookup c key w).1 = registries w /\
  reactions (cache_lookup c key w).1 = reactions w /\
  next_ref (cache_lookup c key w).1 = next_ref w /\
  trace (cache_lookup c key w).1 = trace w /\
  now (cache_lookup c key w).1 = now w /\
  (caches_ok w -> caches_ok (cache_lookup c key w).1).
Proof.
  unfold cache_lookup. destruct (cache c) as [ref |]; [| by repeat split].
  pose proof (get_ok (now w) key (cache_at ref w)) as Hok.
  destruct (LruCacheAdapter.get (now w) key (cache_at ref w)) as [hit c1].
  simpl in *. repeat split. intros Hw.
  apply caches_ok_insert; [| exact Hw]. by apply Hok, cache_at_ok.
Qed.

Lemma register_world (c : ApiClient) (key : string) (p : nat) (w : World) :
  trace (register c key p w) = trace w /\
  caches (register c key p w) = caches w /\
  next_ref (register c key p w) = next_ref w.
Proof.
  unfold register. by destruct (enableInFlightDedup (options c)).
Qed.

(** The four ways [request] can go. *)
Lemma request_cases (c : ApiClient) (req : ApiRequest) (fresh : nat)
  (w : World) :
  (exists e,
     request P c req fresh w = (w, mkIssued (Settles (Rejected e)) None)) \/
  (exists key res,
     request P c req fresh w
     = ((cache_lookup c key w).1, mkIssued (Settles (Fulfilled res)) None) /\
     (cache_lookup c key w).2 = Some res) \/
  (exists key p,
     request P c req fresh w
     = ((cache_lookup c key w).1, mkIssued (Follows p) None) /\
     (cache_lookup c key w).2 = None /\
     registered c key (cache_lookup c key w).1 = Some p) \/
  (exists url key,
     request P c req fresh w
     = (register c key fresh
          (exec P c url (default GET (req_method req)) req key
                (cache_lookup c key w).1).1,
        mkIssued (Follows fresh)
          (Some (exec P c url (default GET (req_method req)) req key
                      (cache_lookup c key w).1).2)) /\
     (cache_lookup c key w).2 = None /\
     registered c key (cache_lookup c key w).1 = None).
Proof.
  unfold request.
  destruct (buildUrl P _ _ _) as [url | e]; [| left; by exists e].
  destruct (cacheKey_of _ url req) as [key | e]; [| left; by exists e].
  destruct (cache_lookup c key w).2 as [res |] eqn:Hhit;
    [right; left; by exists key, res |].
  destruct (registered c key _) as [p |] eqn:Hreg.
  - right; right; left. by exists key, p.
  - right; right; right. by exists url, key.
Qed.

Lemma turn_call (L : Loop) (i : nat) (req : ApiRequest) (c : ApiClient) :
  clients L !! i = Some c ->
  turn P (Call i req) L =
  match spawned (request P c req (next_promise L) (world L)).2 with
  | None =>
      Some (mkLoop (request P c req (next_promise L) (world L)).1
                   (clients L) (pending L) (settled L) (chores L)
                   (S (next_promise L))
                   (handles L ++
                    [handle (request P c req (next_promise L) (world L)).2])%list
                   (spent L))
  | Some t =>
      Some (mkLoop (request P c req (next_promise L) (world L)).1
                   (clients L)
                   (park (next_promise L) t (pending L) (settled L)).1
                   (park (next_promise L) t (pending L) (settled L)).2
                   (chores L) (S (next_promise L))
                   (handles L ++
                    [handle (request P c req (next_promise L) (world L)).2])%list
                   (<[next_promise L :=
                        (calls (request P c req (next_promise L) (world L)).1
                         - calls (world L))%nat]> (spent L)))
  end.
Proof.
  intros Hi. unfold turn. rewrite Hi. simpl.
  destruct (request P c req (next_promise L) (world L)) as [w issued].
  simpl. destruct (spawned issued) as [t |]; [| reflexivity].
  by destruct (park (next_promise L) t (pending L) (settled L)).
Qed.

(** A call of [request]. *)
Lemma sound_call (L L' : Loop) (i : nat) (req : ApiRequest) :
  sound L -> turn P (Call i req) L = Some L' -> sound L'.
Proof.
  intros HS Hstep.
  destruct (clients L !! i) as [c |] eqn:Hi;
    [| simpl in Hstep; by rewrite Hi in Hstep].
  rewrite (turn_call L i req c Hi) in Hstep.
  destruct (request_cases c req (next_promise L) (world L))
    as [(e & Hr) | [(key & res & Hr & _) | [(key & p & Hr & _ & _)
       | (url & key & Hr & _ & Hreg)]]];
    rewrite Hr in Hstep; cbn [fst snd spawned handle] in Hstep.
  - injection Hstep as <-.
    apply sound_update;
      [exact HS | reflexivity | reflexivity | reflexivity
      | apply (sound_caches L HS) | apply (sound_chores L HS) | lia].
  - injection Hstep as <-.
    destruct (cache_lookup_world c key (world L))
      as (C1 & C2 & C3 & C4 & C5 & C6).
    apply sound_update;
      [exact HS | exact C1 | exact C2 | exact C3
      | apply C6, (sound_caches L HS) | apply (sound_chores L HS) | lia].
  - injection Hstep as <-.
    destruct (cache_lookup_world c key (world L))
      as (C1 & C2 & C3 & C4 & C5 & C6).
    apply sound_update;
      [exact HS | exact C1 | exact C2 | exact C3
      | apply C6, (sound_caches L HS) | apply (sound_chores L HS) | lia].
  - destruct (cache_lookup_world c key (world L))
      as (C1 & C2 & C3 & C4 & C5 & C6).
    set (w1 := (cache_lookup c key (world L)).1) in *.
    set (m := default GET (req_method req)) in *.
    destruct (exec_does P c url m req key w1) as [Hd Hw].
    destruct (exec_spends P c url m req key w1) as (d & Hd1 & Hd2 & Hd3).
    destruct (does_update c _ _ Hd) as (U1 & U2 & U3 & U4).
    set (w2 := (exec P c url m req key w1).1) in *.
    set (t := (exec P c url m req key w1).2) in *.
    clearbody w2 t.
    destruct (register_world c key (next_promise L) w2) as (R1 & R2 & R3).
    assert (calls (register c key (next_promise L) w2) - calls (world L)
            = d)%nat as Hcalls.
    { unfold calls, transport_calls in *. rewrite R1. rewrite <- C4. lia. }
    rewrite Hcalls in Hstep. injection Hstep as <-.
    assert (sound (mkLoop w2 (clients L)
                     (park (next_promise L) t (pending L) (settled L)).1
                     (park (next_promise L) t (pending L) (settled L)).2
                     (chores L) (S (next_promise L))
                     (handles L ++ [Follows (next_promise L)])%list
                     (<[next_promise L := d]> (spent L)))) as HS1.
    { apply sound_spawn; try congruence.
      - apply U4, C6, HS.
      - exists c. split; [exact Hw | exact Hd3]. }
    unfold register. unfold registered in Hreg.
    destruct (enableInFlightDedup (options c)); [| exact HS1].
    apply (sound_register _ (inflight c) key (next_promise L) HS1).
    + simpl. rewrite (registry_at_eq _ _ _ U1). exact Hreg.
    + simpl. rewrite U3, C3. apply (sound_clients L HS).
      by eapply list_elem_of_lookup_2.
    + simpl. unfold park. destruct t; simpl.
      * right. rewrite lookup_insert_eq. eauto.
      * left. rewrite lookup_insert_eq. eauto.
Qed.

(** Every turn keeps the invariant. *)
Lemma turn_sound (a : Action) (L L' : Loop) :
  sound L -> turn P a L = Some L' -> sound L'.
Proof.
  destruct a.
  - apply sound_new.
  - apply sound_encrypted.
  - apply sound_call.
  - apply sound_setTokens.
  - apply sound_clearTokens.
  - apply sound_resume.
  - apply sound_chore.
  - apply sound_elapse.
Qed.




(** ** The end of a turn *)

Lemma set_world_same (L : Loop) : set_world (world L) L = L.
Proof. by destruct L. Qed.

(** What one [finally] callback does to the world. *)
Lemma finally_runs_world (s : gmap nat (Outcome ApiResponse)) (w : World)
  (x : nat * nat * string) :
  reactions (finally_runs s w x) = filter (fun y => y <> x) (reactions w) /\
  (forall r,
     InFlightDeduper.registry_at r (finally_runs s w x)
     = if decide (x.1.2 = r)
       then delete x.2 (InFlightDeduper.registry_at x.1.2 w)
       else InFlightDeduper.registry_at r w) /\
  caches (finally_runs s w x) = caches w /\
  stores (finally_runs s w x) = stores w /\
  now (finally_runs s w x) = now w /\
  next_ref (finally_runs s w x) = next_ref w /\
  registries (finally_runs s w x)
  = <[x.1.2 := delete x.2 (InFlightDeduper.registry_at x.1.2 w)]>
      (registries w) /\
  transport_calls (finally_runs s w x) = transport_calls w.
Proof.
  assert (forall r w0,
            registries w0
            = <[x.1.2 := delete x.2 (InFlightDeduper.registry_at x.1.2 w)]>
                (registries w) ->
            InFlightDeduper.registry_at r w0
            = if decide (x.1.2 = r)
              then delete x.2 (InFlightDeduper.registry_at x.1.2 w)
              else InFlightDeduper.registry_at r w) as Hreg.
  { intros r w0 Hw0. unfold InFlightDeduper.registry_at at 1.
    rewrite Hw0, lookup_insert. case_decide; subst; reflexivity. }
  unfold finally_runs.
  destruct (s !! x.1.1) as [[res | e] |];
    (split; [reflexivity |]; split; [intros r; by apply Hreg |];
     repeat (split; [reflexivity |])); try reflexivity.
  unfold transport_calls. simpl. rewrite filter_app. simpl.
  by rewrite app_nil_r.
Qed.

(** The [finally] callback of a promise removes its entry and nothing
    else. *)
Lemma sound_finally (L : Loop) (x : nat * nat * string) :
  sound L -> x ∈ reactions (world L) ->
  sound (set_world (finally_runs (settled L) (world L) x) L).
Proof.
  intros [S1 S2 S3 S4 S5 S6 S7 S8 S9 S10 S11] Hin.
  destruct (finally_runs_world (settled L) (world L) x)
    as (Hk & Hreg & Hc & _ & _ & Hn & Hr & _).
  destruct x as [[p ref] key]. simpl in Hreg, Hr.
  destruct (S5 p ref key Hin) as [Hentry _].
  unfold set_world.
  remember (finally_runs (settled L) (world L) (p, ref, key)) as w' eqn:Hw'.
  clear Hw'. constructor; simpl; auto.
  - intros r0 c0. rewrite Hc. apply S1.
  - intros q r0 key0. rewrite Hk, Hreg. intros Hq.
    apply list_elem_of_filter in Hq as [Hne Hq].
    destruct (S5 q r0 key0 Hq) as [E1 E2]. split; [| exact E2].
    case_decide; [subst r0 | exact E1].
    rewrite lookup_delete_ne; [exact E1 |]. intros <-.
    apply Hne. f_equal. f_equal. congruence.
  - intros r0 key0 q. rewrite Hk, Hreg. intros Hq.
    apply list_elem_of_filter.
    assert (InFlightDeduper.registry_at r0 (world L) !! key0 = Some q
            /\ (r0, key0) <> (ref, key)) as [E1 E2].
    { case_decide; [subst r0 | split; [exact Hq | congruence]].
      rewrite lookup_delete in Hq. case_decide; [discriminate |].
      split; [exact Hq | congruence]. }
    split; [congruence | by apply S6].
  - rewrite Hk. by apply NoDup_filter.
  - intros c0 Hc0. rewrite Hn. by apply S10.
  - intros r0. rewrite Hn, Hr. intros Hr0.
    rewrite lookup_insert_ne; [by apply S11 |].
    intros <-. apply entry_allocated in Hentry as [m Hm].
    rewrite (S11 ref Hr0) in Hm. discriminate.
Qed.

(** The callbacks of [l] run one after the other: what is left are the
    other callbacks and the other entries. *)
Lemma sound_finally_all (l : list (nat * nat * string)) (L : Loop) :
  sound L -> NoDup l -> (forall x, x ∈ l -> x ∈ reactions (world L)) ->
  sound (set_world (fold_left (finally_runs (settled L)) l (world L)) L) /\
  (forall y,
     y ∈ reactions (fold_left (finally_runs (settled L)) l (world L)) <->
     y ∈ reactions (world L) /\ y ∉ l) /\
  (forall ref key p,
     InFlightDeduper.registry_at ref
       (fold_left (finally_runs (settled L)) l (world L)) !! key = Some p <->
     InFlightDeduper.registry_at ref (world L) !! key = Some p /\
     (p, ref, key) ∉ l) /\
  caches (fold_left (finally_runs (settled L)) l (world L))
    = caches (world L) /\
  stores (fold_left (finally_runs (settled L)) l (world L))
    = stores (world L) /\
  transport_calls (fold_left (finally_runs (settled L)) l (world L))
    = transport_calls (world L).
Proof.
  revert L. induction l as [| x l IH]; intros L HS Hnd Hl; simpl.
  - rewrite set_world_same. split; [exact HS |].
    split; [| split; [| by repeat split]].
    + intros y. split; [intros H; split; [exact H | apply not_elem_of_nil] |].
      by intros [H _].
    + intros ref key p.
      split; [intros H; split; [exact H | apply not_elem_of_nil] |].
      by intros [H _].
  - apply NoDup_cons in Hnd as [Hx Hnd].
    assert (x ∈ reactions (world L)) as Hin by (apply Hl; left).
    pose proof (sound_finally L x HS Hin) as HS1.
    destruct (finally_runs_world (settled L) (world L) x)
      as (Hk & Hreg & Hc & Hst & _ & _ & _ & Htc).
    destruct (IH (set_world (finally_runs (settled L) (world L) x) L) HS1 Hnd)
      as (I1 & I2 & I3 & I4 & I5 & I6).
    { intros y Hy. simpl. rewrite Hk. apply list_elem_of_filter.
      split; [intros -> ; contradiction | apply Hl; by right]. }
    simpl in I1, I2, I3, I4, I5, I6.
    split; [exact I1 |].
    split; [| split; [| split; [congruence | split; congruence]]].
    + intros y. rewrite I2, Hk, list_elem_of_filter, not_elem_of_cons.
      tauto.
    + intros ref key p. rewrite I3, Hreg, not_elem_of_cons.
      destruct x as [[q r0] key0]. simpl.
      destruct (sound_callback L HS q r0 key0 Hin) as [Hq _].
      split.
      * intros [He Hp]. case_decide; [subst r0 | repeat split; auto; congruence].
        rewrite lookup_delete in He. case_decide; [discriminate |].
        repeat split; auto; congruence.
      * intros (He & Hne & Hp). split; [| exact Hp].
        case_decide; [subst r0 | exact He].
        rewrite lookup_delete_ne; [exact He |]. intros <-.
        apply Hne. f_equal. f_equal. congruence.
Qed.



(** The end of a turn keeps the invariant; it leaves no callback behind
    whose promise has settled, and exactly the entries whose promise has
    not. *)
Lemma checkpoint_sound (L : Loop) :
  sound L ->
  sound (checkpoint L) /\ live (checkpoint L) /\
  (forall ref key p,
     InFlightDeduper.registry_at ref (world (checkpoint L)) !! key = Some p <->
     InFlightDeduper.registry_at ref (world L) !! key = Some p /\
     settled L !! p = None) /\
  caches (world (checkpoint L)) = caches (world L) /\
  stores (world (checkpoint L)) = stores (world L) /\
  transport_calls (world (checkpoint L)) = transport_calls (world L).
Proof.
  intros HS.
  destruct (sound_finally_all
              (filter (due (settled L)) (reactions (world L))) L HS)
    as (H1 & H2 & H3 & H4 & H5 & H6).
  { apply NoDup_filter, (sound_nodup L HS). }
  { intros x Hx. by apply list_elem_of_filter in Hx as [_ Hx]. }
  split; [exact H1 |]. split; [| split; [| by repeat split]].
  - intros x Hx. simpl in Hx. apply H2 in Hx as [Hx Hnot].
    destruct x as [[p ref] key].
    destruct (sound_callback L HS p ref key Hx) as [_ [Hp | Hp]];
      [exact Hp |].
    destruct Hnot. apply list_elem_of_filter. by split.
  - intros ref key p. simpl. rewrite H3. split.
    + intros [He Hnot]. split; [exact He |].
      destruct (settled L !! p) as [r |] eqn:Hp; [| reflexivity].
      destruct Hnot. apply list_elem_of_filter.
      split; [unfold due; simpl; rewrite Hp; eauto |].
      by apply (sound_entry L HS).
    + intros [He Hp]. split; [exact He |]. intros Hin.
      apply list_elem_of_filter in Hin as [[r Hr] _]. simpl in Hr.
      congruence.
Qed.

(** ** Steps *)

Lemma step_turn (a : Action) (L L' : Loop) :
  step P a L = Some L' ->
  exists L1, turn P a L = Some L1 /\ L' = checkpoint L1.
Proof.
  unfold step. destruct (turn P a L) as [L1 |]; simpl; [| discriminate].
  intros [= <-]. by exists L1.
Qed.

(** Every step keeps the invariant, so every state of the loop has it. *)
Lemma step_sound (a : Action) (L L' : Loop) :
  sound L -> step P a L = Some L' -> sound L'.
Proof.
  intros HS Hstep. apply step_turn in Hstep as (L1 & Ht & ->).
  apply checkpoint_sound. by eapply turn_sound.
Qed.


Lemma reachable_sound (L : Loop) : reachable P L -> sound L.
Proof.
  intros H. induction H as [t | a L L' _ IH Hstep].
  - apply boot_sound.
  - by eapply step_sound.
Qed.


Lemma run_reachable_default (acts : list Action) (L L0 : Loop) :
  reachable P L ->
  match run P acts L with Some _ => true | None => false end = true ->
  reachable P (default L0 (run P acts L)).
Proof.
  revert L. induction acts as [| a acts IH]; intros L HL; [by intros _ |].
  change (run P (a :: acts) L) with (step P a L ≫= run P acts).
  destruct (step P a L) as [L1 |] eqn:Hs; [| discriminate].
  apply IH. by eapply reachable_step.
Qed.

Lemma drive_reachable (n p : nat) (L : Loop) :
  reachable P L -> reachable P (Scenario.drive P n p L).
Proof.
  revert L. induction n as [| n IH]; intros L HL; [exact HL |].
  change (Scenario.drive P (S n) p L)
    with (match step P (Resume p) L with
          | Some L' => Scenario.drive P n p L'
          | None => L
          end).
  destruct (step P (Resume p) L) as [L1 |] eqn:Hs; [| exact HL].
  apply IH. by eapply reachable_step.
Qed.

Lemma drive_chore_reachable (n j : nat) (L : Loop) :
  reachable P L -> reachable P (Scenario.drive_chore P n j L).
Proof.
  revert L. induction n as [| n IH]; intros L HL; [exact HL |].
  change (Scenario.drive_chore P (S n) j L)
    with (match step P (Chore j) L with
          | Some L' => Scenario.drive_chore P n j L'
          | None => L
          end).
  destruct (step P (Chore j) L) as [L1 |] eqn:Hs; [| exact HL].
  apply IH. by eapply reachable_step.
Qed.

(** ** Settled promises *)


(** ** Entries of the registry *)


(** ** Callers of one key *)




End Steps.
End LoopFacts.
(* ===================================================================== *)
(** * Cache keys *)
(* ===================================================================== *)

Module KeyFacts.

Lemma length_append (a b : string) :
  String.length (a +:+ b) = (String.length a + String.length b)%nat.
Proof. induction a as [| c a IH]; simpl; auto. Qed.

Lemma append_cancel_l (s a b : string) : s +:+ a = s +:+ b -> a = b.
Proof. induction s as [| c s IH]; simpl; intros H; [assumption |]. injection H. auto. Qed.

Lemma append_cancel_r (s a b : string) : a +:+ s = b +:+ s -> a = b.
Proof.
  revert b. induction a as [| c a IH]; intros [| d b]; simpl; intros H.
  - reflexivity.
  - apply (f_equal String.length) in H.
    rewrite ?length_append in H. simpl in H. rewrite ?length_append in H. lia.
  - apply (f_equal String.length) in H.
    rewrite ?length_append in H. simpl in H. rewrite ?length_append in H. lia.
  - injection H as -> H. f_equal. by apply IH.
Qed.

(** No method name followed by a colon starts like another. *)
Lemma method_prefix_inj (m1 m2 : HttpMethod) (r1 r2 : string) :
  method_name m1 +:+ ":" +:+ r1 = method_name m2 +:+ ":" +:+ r2 -> m1 = m2.
Proof. destruct m1, m2; simpl; intros H; try reflexivity; discriminate H. Qed.

Lemma key_text (m : HttpMethod) (u : string) (r : ApiRequest) (s : string) :
  req_cacheKey r = None ->
  JSON_stringify (coalesce (req_body r) JNull) = SText s ->
  cacheKey_of m u r = Fulfilled (method_name m +:+ ":" +:+ u +:+ ":" +:+ s).
Proof. intros Hk Hs. unfold cacheKey_of. by rewrite Hk, Hs. Qed.

End KeyFacts.

(** Without an explicit cache key the key is the text
    method : URL : JSON.stringify(body ?? null). Equal method, URL and
    body give equal keys; a different method gives a different key; with
    the method fixed, a different URL under the same serialized body, or
    a different serialized body under the same URL, gives a different
    key. *)
Lemma cacheKey_of_distinguishes (m1 m2 : HttpMethod) (u1 u2 : string)
  (r1 r2 : ApiRequest) (s1 s2 : string) :
  req_cacheKey r1 = None -> req_cacheKey r2 = None ->
  JSON_stringify (coalesce (req_body r1) JNull) = SText s1 ->
  JSON_stringify (coalesce (req_body r2) JNull) = SText s2 ->
  cacheKey_of m1 u1 r1
    = Fulfilled (method_name m1 +:+ ":" +:+ u1 +:+ ":" +:+ s1) /\
  (m1 = m2 -> u1 = u2 -> req_body r1 = req_body r2 ->
   cacheKey_of m1 u1 r1 = cacheKey_of m2 u2 r2) /\
  (m1 <> m2 -> cacheKey_of m1 u1 r1 <> cacheKey_of m2 u2 r2) /\
  (m1 = m2 -> u1 = u2 -> s1 <> s2 ->
   cacheKey_of m1 u1 r1 <> cacheKey_of m2 u2 r2) /\
  (m1 = m2 -> s1 = s2 -> u1 <> u2 ->
   cacheKey_of m1 u1 r1 <> cacheKey_of m2 u2 r2).
Proof.
  intros Hk1 Hk2 Hs1 Hs2.
  rewrite (KeyFacts.key_text m1 u1 r1 s1 Hk1 Hs1).
  rewrite (KeyFacts.key_text m2 u2 r2 s2 Hk2 Hs2).
  split; [reflexivity |]. split; [| split; [| split]].
  - intros -> -> Hb. rewrite Hb in Hs1. congruence.
  - intros Hm H. injection H as H. apply Hm.
    eapply KeyFacts.method_prefix_inj, H.
  - intros -> -> Hs H. injection H as H. apply Hs.
    do 4 apply KeyFacts.append_cancel_l in H. exact H.
  - intros -> -> Hu H. injection H as H. apply Hu.
    do 2 apply KeyFacts.append_cancel_l in H.
    by apply KeyFacts.append_cancel_r in H.
Qed.

(** C6, the code at the failing input. Two uploads to one URL whose
    form data differ are given the same cache key, because
    JSON.stringify of any FormData is the text of an empty object. So
    the second upload is never sent: asked while the first is in flight
    it joins the first, asked when the first has settled it is answered
    from the cache. The transport sees one call, with the form data of
    the first upload, and the caller of the second gets the Result of
    the first. *)
Theorem formdata_uploads_collide :
  Cases.form_a <> Cases.form_b /\
  cacheKey_of FORMDATA "https://api.example.com/upload"
    (Scenario.upload "/upload" Cases.form_a)
  = Fulfilled "FORMDATA:https://api.example.com/upload:{}" /\
  cacheKey_of FORMDATA "https://api.example.com/upload"
    (Scenario.upload "/upload" Cases.form_b)
  = Fulfilled "FORMDATA:https://api.example.com/upload:{}" /\
  (L ← Cases.uploads_together;
   Some (handles L, bodies_on_the_wire (world L), settled L !! 0%nat))
  = Some ([Follows 0; Follows 0], [Some (BodyValue Cases.form_a)],
          Some (Fulfilled Scenario.user_result)) /\
  (L ← Cases.uploads_in_turn;
   Some (handles L, bodies_on_the_wire (world L)))
  = Some ([Follows 0; Settles (Fulfilled Scenario.user_result)],
          [Some (BodyValue Cases.form_a)]).
Proof. split; [discriminate |]. repeat split; vm_compute; reflexivity. Qed.

(* ===================================================================== *)
(** * Streaming *)
(* ===================================================================== *)

(** C8, as the code has it. With handlers that do not throw, over a
    stream that ends gracefully, the relay calls onStart once, and only
    then takes the reader and asks for the first read -- all of this
    before it first suspends; after each read it calls onChunk for the
    chunk the read gave, when that chunk is truthy -- every Uint8Array, a
    zero-length one included -- before it asks for the next read; after
    the read that finds the end it calls onComplete once and releases the
    reader. Without a body it calls onStart and then onComplete, at once
    and without suspending, and takes no reader. A handler that is not
    supplied is not called. *)
Theorem streamResponse_relays (response : Response) (handlers : StreamHandlers)
  (w : World) :
  quiet (onStart handlers) -> quiet (onChunk handlers) ->
  quiet (onComplete handlers) ->
  (forall body, resp_body response = Some body -> failure body = None) ->
  run_alone (streamResponse response handlers) w =
  (emit_all (relayed truthy response handlers) w, Fulfilled tt) /\
  (forall body,
     resp_body response = Some body ->
     (streamResponse response handlers w).1
     = emit_all (heard (onStart handlers)
                       (CallStart (resp_status response)
                                  (resp_headers response))
                 ++ [EvGetReader; EvRead]) w /\
     exists eff next,
       (streamResponse response handlers w).2 = Await eff next) /\
  (resp_body response = None ->
   streamResponse response handlers w
   = (emit_all (heard (onStart handlers)
                      (CallStart (resp_status response)
                                 (resp_headers response))
                ++ heard (onComplete handlers) CallComplete) w,
      Done (Fulfilled tt))).
Proof.
  intros Hs Hc Hd Hend. split; [| split].
  - unfold streamResponse, relayed.
    rewrite AioFacts.run_alone_bind, StreamFacts.run_alone_invoke
      by assumption.
    destruct (resp_body response) as [body |] eqn:Hb.
    + rewrite AioFacts.run_alone_bind, AioFacts.run_alone_modify.
      rewrite AioFacts.run_alone_finally, AioFacts.run_alone_catch.
      rewrite AioFacts.run_alone_bind. rewrite (Hend body eq_refl).
      rewrite StreamFacts.run_alone_read_all by assumption.
      rewrite StreamFacts.run_alone_invoke by assumption. simpl.
      rewrite !TraceFacts.emit_one, !TraceFacts.emit_all_app.
      by rewrite <- ?app_assoc.
    + rewrite StreamFacts.run_alone_invoke by assumption.
      by rewrite TraceFacts.emit_all_app.
  - intros body Hb. unfold streamResponse. rewrite Hb.
    destruct (onStart handlers) as [f |] eqn:Hf.
    + unfold bind at 1. simpl. rewrite (Hs f _ eq_refl). simpl.
      destruct (chunks body); simpl; (split; [| eauto]);
        rewrite !TraceFacts.emit_one, !TraceFacts.emit_all_app;
        by rewrite <- ?app_assoc.
    + unfold bind at 1. simpl.
      destruct (chunks body); simpl; (split; [| eauto]);
        rewrite !TraceFacts.emit_one, !TraceFacts.emit_all_app;
        by rewrite <- ?app_assoc.
  - intros Hb. unfold streamResponse. rewrite Hb.
    destruct (onStart handlers) as [f |] eqn:Hf;
      destruct (onComplete handlers) as [g |] eqn:Hg;
      unfold bind; simpl;
      rewrite ?(Hs f _ eq_refl), ?(Hd g _ eq_refl); simpl;
      rewrite ?(Hd g _ eq_refl); unfold ret; f_equal;
      rewrite ?TraceFacts.emit_one, ?TraceFacts.emit_all_app, <- ?app_assoc;
      try reflexivity.
    unfold emit_all. rewrite app_nil_r. by destruct w.
Qed.

Lemma streamResponse_relays_witness :
  run_alone
    (streamResponse
       (Scenario.streaming [JBytes [Byte.x01]; JBytes [Byte.x02];
                            JBytes [Byte.x03]])
       Scenario.listening) Scenario.world0 =
  (emit_all [EvHandler (CallStart 200 []); EvGetReader;
             EvRead; EvHandler (CallChunk (JBytes [Byte.x01]));
             EvRead; EvHandler (CallChunk (JBytes [Byte.x02]));
             EvRead; EvHandler (CallChunk (JBytes [Byte.x03]));
             EvRead; EvHandler CallComplete; EvReleaseLock] Scenario.world0,
   Fulfilled tt).
Proof.
  apply (streamResponse_relays
           (Scenario.streaming [JBytes [Byte.x01]; JBytes [Byte.x02];
                                JBytes [Byte.x03]])
           Scenario.listening Scenario.world0).
  - intros f x H. injection H as <-. reflexivity.
  - intros f x H. injection H as <-. reflexivity.
  - intros f x H. injection H as <-. reflexivity.
  - intros body H. injection H as <-. reflexivity.
Defined.

(** C8, counterexample. A stream delivers one chunk of zero bytes: the
    relay hands it to onChunk, where the claim has a chunk call for
    non-empty chunks only. *)
Lemma streamResponse_empty_chunk :
  trace (run_alone (streamResponse (Scenario.streaming [JBytes []])
                                   Scenario.listening) Scenario.world0).1
  = [EvHandler (CallStart 200 []); EvGetReader;
     EvRead; EvHandler (CallChunk (JBytes []));
     EvRead; EvHandler CallComplete; EvReleaseLock] /\
  trace (run_alone (streamResponse (Scenario.streaming [JBytes []])
                                   Scenario.listening) Scenario.world0).1
  <> relayed non_empty_chunk (Scenario.streaming [JBytes []])
             Scenario.listening.
Proof. split; [reflexivity | discriminate]. Qed.

(* ===================================================================== *)
(** * Cache hits *)
(* ===================================================================== *)

(** C4, as the code has it. With caching on and an entry for the cache
    key that has not expired, [request] hands back the cached Result at
    once: it starts no execution, so the Auth Coordinator is not asked
    and the transport is not called; the trace, the token storages, the
    registries, the pending callbacks, the clock and every other cache
    are as before, and so is every lookup in the cache that was hit. One
    thing changes: the hit becomes the most recently used entry of its
    cache. *)
Theorem request_cache_hit (P : Platform) (c : ApiClient) (req : ApiRequest)
  (fresh ref : nat) (w : World) (url key : string) (entry : CacheEntry) :
  cache c = Some ref ->
  buildUrl P (baseUrl (options c)) (req_url req) (req_query req)
    = Fulfilled url ->
  cacheKey_of (default GET (req_method req)) url req = Fulfilled key ->
  Lru.find key (lru_entries (cache_at ref w)) = Some entry ->
  LruCacheAdapter.expired (now w) entry = false ->
  exists w',
    request P c req fresh w
      = (w', mkIssued (Settles (Fulfilled (value entry))) None) /\
    trace w' = trace w /\ stores w' = stores w /\
    registries w' = registries w /\ reactions w' = reactions w /\
    now w' = now w /\ entropy w' = entropy w /\ next_ref w' = next_ref w /\
    (forall r, r <> ref -> caches w' !! r = caches w !! r) /\
    lru_max (cache_at ref w') = lru_max (cache_at ref w) /\
    (forall k, Lru.find k (lru_entries (cache_at ref w'))
               = Lru.find k (lru_entries (cache_at ref w))) /\
    lru_entries (cache_at ref w')
    = (key, entry) :: Lru.remove key (lru_entries (cache_at ref w)).
Proof.
  intros Hc Hu Hk Hf He. unfold request, cache_lookup. rewrite Hu, Hk, Hc.
  unfold LruCacheAdapter.get, Lru.get. rewrite Hf, He.
  eexists. split; [reflexivity |]. simpl.
  repeat (split; [reflexivity |]).
  split; [intros r Hr; by rewrite lookup_insert_ne |].
  rewrite CacheFacts.cache_at_insert. simpl.
  split; [reflexivity |]. split; [| reflexivity].
  intros k. by apply CacheFacts.find_touch.
Qed.

Lemma request_cache_hit_witness :
  exists w',
    request Scenario.std Scenario.cached_client (Scenario.get "/users/me") 7
            Scenario.cached_world
      = (w', mkIssued (Settles (Fulfilled Scenario.user_result)) None) /\
    trace w' = trace Scenario.cached_world.
Proof.
  destruct (request_cache_hit Scenario.std Scenario.cached_client
              (Scenario.get "/users/me") 7 1 Scenario.cached_world
              "https://api.example.com/users/me"
              "GET:https://api.example.com/users/me:null"
              (mkEntry Scenario.user_result (Some 11000))
              eq_refl eq_refl eq_refl eq_refl eq_refl)
    as (w' & H1 & H2 & _).
  exists w'. split; [exact H1 | exact H2].
Defined.

(** C4, counterexample. A cache of capacity two holds the answers to
    GET /a and, more recent, to GET /b. A request for /a is a hit, and
    it changes the cache: /a is now the most recently used entry. The
    next write shows it: it evicts /b, where it would have evicted /a
    had the hit not happened. *)
Lemma cache_hit_reorders :
  handle (request Scenario.std Cases.small_cache_client (Scenario.get "/a") 0
                  Cases.small_cache_world).2
    = Settles (Fulfilled Scenario.user_result) /\
  Cases.keys_of 0 Cases.small_cache_world
    = [Cases.key_of "/b"; Cases.key_of "/a"] /\
  Cases.keys_of 0
    (request Scenario.std Cases.small_cache_client (Scenario.get "/a") 0
             Cases.small_cache_world).1
    = [Cases.key_of "/a"; Cases.key_of "/b"] /\
  Cases.keys_of 0
    (cache_set 0 (Cases.key_of "/c") Scenario.user_result (Some 10000)
               Cases.small_cache_world).1
    = [Cases.key_of "/c"; Cases.key_of "/b"] /\
  Cases.keys_of 0
    (cache_set 0 (Cases.key_of "/c") Scenario.user_result (Some 10000)
       (request Scenario.std Cases.small_cache_client (Scenario.get "/a") 0
                Cases.small_cache_world).1).1
    = [Cases.key_of "/c"; Cases.key_of "/a"].
Proof. repeat split; vm_compute; reflexivity. Qed.

(* ===================================================================== *)
(** * The gateway *)
(* ===================================================================== *)

(** C3, the code at the failing input. An encrypting client behind the
    gateway /gateway sends a POST to /users/42 with the header x-api-key.
    The one call handed to the transport goes to the gateway URL, and its
    headers -- the caller's x-api-key among them -- are there in the
    clear, beside the encrypted envelope that also carries them. *)
Theorem gateway_headers_in_clear :
  Scenario.on_the_wire <$> Scenario.gateway_run
  = Some [("https://api.example.com/gateway",
           [("content-type", "application/octet-stream");
            ("accept",
             "application/json, application/octet-stream;q=0.8, */*;q=0.5");
            ("x-api-key", "k-123")])].
Proof. vm_compute. reflexivity. Qed.




(* ===================================================================== *)
(** * Expired tokens *)
(* ===================================================================== *)



(* ===================================================================== *)
(** * Deriving an encrypted variant *)
(* ===================================================================== *)

(** C10. Let the options of a client name no token storage and no
    cache. Its encrypted variant is a new client with the same
    configuration but for the encryption capability, with a token storage
    and a cache of its own, both new and empty; deriving it changes
    nothing that can be seen through the original, nor the trace. The
    two clients share no object, so nothing an operation of one does --
    setting or clearing tokens, a request with its cache writes -- can be
    seen through the other. *)
Theorem withEncryption_isolates (P : Platform) (c : ApiClient)
  (secret : JsValue) (w : World) :
  cfg_storage (auth_config (options c)) = None ->
  cache_option (options c) = CacheUnset ->
  allocated c w ->
  let w' := (withEncryption P c secret w).1 in
  let c' := (withEncryption P c secret w).2 in
  (untouched c w w' /\
   InFlightDeduper.registry_at (inflight c) w'
     = InFlightDeduper.registry_at (inflight c) w /\
   trace w' = trace w) /\
  (baseUrl (options c') = baseUrl (options c) /\
   gatewayPath (options c') = gatewayPath (options c) /\
   defaultHeaders (options c') = defaultHeaders (options c) /\
   cacheTtlMs (options c') = cacheTtlMs (options c) /\
   enableInFlightDedup (options c') = enableInFlightDedup (options c) /\
   encryption (options c') = Some (AesGcmEncryption P secret)) /\
  (MemoryTokenStorage.tokens_at (storage (auth c')) w'
     = MemoryTokenStorage.empty /\
   exists r, cache c' = Some r /\ cache_at r w' = LruCacheAdapter.new None) /\
  apart c c' /\
  ((forall a r, run_within (untouched c') (setTokens P c a r)) /\
   run_within (untouched c') (clearTokens c) /\
   (forall req fresh w1, untouched c' w1 (request P c req fresh w1).1) /\
   (forall url m req key,
      run_within (untouched c') (exec P c url m req key))) /\
  ((forall a r, run_within (untouched c) (setTokens P c' a r)) /\
   run_within (untouched c) (clearTokens c') /\
   (forall req fresh w1, untouched c w1 (request P c' req fresh w1).1) /\
   (forall url m req key,
      run_within (untouched c) (exec P c' url m req key))).
Proof.
  intros Hs Hc (A1 & A2 & A3) w' c'. subst w' c'.
  rewrite (VariantFacts.withEncryption_fresh P c secret w Hs Hc). simpl.
  assert (apart c
            (mkClient
               (mkOptions (baseUrl (options c)) (gatewayPath (options c))
                  (fetch (options c)) (defaultHeaders (options c))
                  (auth_config (options c))
                  (Some (AesGcmEncryption P secret)) CacheUnset
                  (cacheTtlMs (options c)) (enableInFlightDedup (options c)))
               (mkAuth (next_ref w) (cfg_onRefresh (auth_config (options c)))
                  (default defaultIsTokenExpired
                     (cfg_isTokenExpired (auth_config (options c)))))
               (Some (S (next_ref w))) (S (S (next_ref w))))) as Hapart.
  { repeat split; simpl; [lia | | lia].
    intros r r' Hr [= <-]. specialize (A2 r Hr). lia. }
  split; [| split; [| split; [| split; [exact Hapart | split]]]].
  - split; [split |].
    + unfold MemoryTokenStorage.tokens_at. simpl.
      rewrite lookup_insert_ne; [reflexivity | lia].
    + intros r Hr. unfold cache_at. simpl. specialize (A2 r Hr).
      rewrite lookup_insert_ne; [reflexivity | lia].
    + split; [| reflexivity]. unfold InFlightDeduper.registry_at. simpl.
      rewrite lookup_insert_ne; [reflexivity | lia].
  - repeat split.
  - split.
    + unfold MemoryTokenStorage.tokens_at. simpl.
      by rewrite lookup_insert_eq.
    + eexists. split; [reflexivity |]. unfold cache_at. simpl.
      by rewrite lookup_insert_eq.
  - by apply VariantFacts.operations_untouched.
  - by apply VariantFacts.operations_untouched, IsolationFacts.apart_sym.
Qed.

Lemma withEncryption_isolates_witness :
  apart Scenario.cached_client
        (withEncryption Scenario.std Scenario.cached_client (JStr "s3cret")
                        Scenario.cached_world).2 /\
  MemoryTokenStorage.tokens_at 3
    (withEncryption Scenario.std Scenario.cached_client (JStr "s3cret")
                    Scenario.cached_world).1
  = MemoryTokenStorage.empty.
Proof.
  destruct (withEncryption_isolates Scenario.std Scenario.cached_client
              (JStr "s3cret") Scenario.cached_world eq_refl eq_refl)
    as (_ & _ & (H3 & _) & H4 & _).
  - repeat split; simpl; [lia | | lia]. intros r [= <-]. lia.
  - split; [exact H4 | exact H3].
Defined.

(* ===================================================================== *)
(** * Failure paths *)
(* ===================================================================== *)

(** Where a rejection of [request] can come from: URL resolution, the
    serialization of the body for the cache key, or the Auth
    Coordinator. Once the Auth Coordinator has answered, the execution
    ends in a Result under every interleaving: a failure of the
    transport block (payload, encryption, the transport call) is the
    Failure with status 0 and no headers, a failure of the stream relay
    a Failure with the status and headers of the response. *)
Lemma request_failures_converge (P : Platform) (c : ApiClient)
  (req : ApiRequest) (fresh : nat) (w : World) :
  (forall e,
     handle (request P c req fresh w).2 = Settles (Rejected e) ->
     buildUrl P (baseUrl (options c)) (req_url req) (req_query req)
       = Rejected e \/
     exists url,
       buildUrl P (baseUrl (options c)) (req_url req) (req_query req)
         = Fulfilled url /\
       cacheKey_of (default GET (req_method req)) url req = Rejected e) /\
  (forall t r,
     spawned (request P c req fresh w).2 = Some t -> settles t r ->
     fulfilled r \/
     exists e w1,
       r = Rejected e /\
       settles (getValidAccessToken P (auth c) w1).2 (Rejected e)) /\
  (forall url method token,
     run_always fulfilled (execute_with P c url method req token)) /\
  (forall url method token w1 e,
     (run_alone (transport P c url method req
                   (with_bearer token (merged_headers c method req))) w1).2
       = Rejected e ->
     (run_alone (execute_with P c url method req token) w1).2
       = Fulfilled (Failure 0 None
                      (makeErrorShape (toApiError e "ERR_NETWORK")))) /\
  (forall response w1 e,
     (run_alone (streamResponse response
                   (default no_handlers (req_streamHandlers req))) w1).2
       = Rejected e ->
     (run_alone (relay req response) w1).2
       = Fulfilled (Failure (resp_status response)
                      (Some (resp_headers response))
                      (makeErrorShape (toApiError e "ERR_STREAM")))).
Proof.
  split; [| split; [| split; [| split]]].
  - intros e. unfold request.
    destruct (buildUrl P _ _ _) as [url | e0] eqn:Hu; simpl.
    + destruct (cacheKey_of _ url req) as [key | e1] eqn:Hk; simpl.
      * destruct (cache_lookup c key w).2; simpl; [discriminate |].
        destruct (registered c key _); simpl; discriminate.
      * intros [= <-]. right. by exists url.
    + intros [= <-]. by left.
  - intros t r. unfold request.
    destruct (buildUrl P _ _ _) as [url | e0]; simpl; [| discriminate].
    destruct (cacheKey_of _ url req) as [key | e1]; simpl; [| discriminate].
    destruct (cache_lookup c key w).2; simpl; [discriminate |].
    destruct (registered c key _); simpl; [discriminate |].
    intros [= <-] Hr.
    apply SettleFacts.exec_settles in Hr as [Hr | (e & -> & He)];
      [by left |].
    right. exists e, (cache_lookup c key w).1. by split.
  - intros url method token. apply TransportFacts.execute_with_fulfils.
  - intros url method token w1 e. apply SettleFacts.transport_failure.
  - intros response w1 e. apply SettleFacts.relay_failure.
Qed.

(** C1, the code at the failing input. A POST whose body is a BigInt:
    the serialization of the body for the cache key throws, outside any
    [try], and the promise [request] returned rejects with the TypeError;
    no Result is returned. Likewise when the stored token has expired
    and the refresh callback rejects: the promise rejects with what the
    callback threw, and so does the promise [finally] returned when the
    execution was registered, which nobody handles. The same BigInt
    body, asked under a cache key of the caller, gets as far as the [try]
    block of the execution, where the same TypeError becomes the Failure
    with status 0. *)
Theorem request_rejects :
  handle (request Scenario.std Scenario.cached_client
                  (Scenario.post "/ledger" (JBigInt 10)) 0
                  Scenario.cached_world).2
    = Settles (Rejected (type_error "Do not know how to serialize a BigInt"))
  /\
  (L ← Scenario.refused_run; h ← last (handles L); observed L h)
    = Some (Rejected Scenario.refusal) /\
  (L ← Scenario.refused_run; last (trace (world L)))
    = Some (EvUnhandledRejection Scenario.refusal) /\
  (L ← Cases.unsendable_twice; h ← last (handles L); observed L h)
    = Some (Fulfilled Cases.unsendable_result).
Proof. repeat split; vm_compute; reflexivity. Qed.

(* ===================================================================== *)
(** * What the cache holds *)
(* ===================================================================== *)

(** C5. In every state the event loop can reach, every entry of every
    cache holds a Success, so a cache get, for any key and at any time,
    returns a Success or nothing. The write on settlement is the reason:
    for a Failure it leaves the world as it is, for a Success it is the
    one set on the cache of the client. *)
Theorem cache_holds_successes (P : Platform) (L : Loop) :
  reachable P L ->
  caches_ok (world L) /\
  (forall ref t key v,
     (LruCacheAdapter.get t key (cache_at ref (world L))).1 = Some v ->
     ok v = true) /\
  (forall c key res w, ok res = false -> (cache_write c key res w).1 = w) /\
  (forall c key res w ref,
     ok res = true -> cache c = Some ref ->
     (cache_write c key res w).1
     = set_caches
         (insert ref (LruCacheAdapter.set (now w) key res
                        (Some (cacheTtlMs (options c))) (cache_at ref w))) w).
Proof.
  intros HL. pose proof (LoopFacts.reachable_sound P L HL) as HS.
  split; [apply (sound_caches L HS) |]. split; [| split].
  - intros ref t key v Hget.
    apply CacheFacts.get_stored in Hget as (e & He & <-).
    eapply CacheFacts.find_ok; [| exact He].
    apply CacheFacts.cache_at_ok, (sound_caches L HS).
  - intros c key res w Hres. unfold cache_write. rewrite Hres.
    by destruct (cache c).
  - intros c key res w ref Hres Hc. unfold cache_write. by rewrite Hres, Hc.
Qed.

Lemma cache_holds_successes_witness :
  (LruCacheAdapter.get 2000 Scenario.users_me_key
     (cache_at 1 (world Scenario.served_run))).1
    = Some Scenario.user_result /\
  ok Scenario.user_result = true.
Proof.
  assert (reachable Scenario.std Scenario.served_run) as HL.
  { apply LoopFacts.drive_reachable.
    apply LoopFacts.run_reachable_default; [apply (reachable_boot _ 1000) |].
    vm_compute. reflexivity. }
  destruct (cache_holds_successes Scenario.std Scenario.served_run HL)
    as (_ & H & _).
  assert ((LruCacheAdapter.get 2000 Scenario.users_me_key
             (cache_at 1 (world Scenario.served_run))).1
          = Some Scenario.user_result) as Hget by (vm_compute; reflexivity).
  split; [exact Hget | exact (H 1%nat 2000 _ _ Hget)].
Defined.

(* ===================================================================== *)
(** * In-flight deduplication *)
(* ===================================================================== *)




(* ===================================================================== *)
(** * Further properties: the cache adapter *)
(* ===================================================================== *)

Module LruFacts.

Lemma find_remove_eq (key : string) (l : list (string * CacheEntry)) :
  Lru.find key (Lru.remove key l) = None.
Proof.
  induction l as [| [k e] l IH]; simpl; [reflexivity |].
  destruct (String.eqb_spec key k) as [-> | Hne]; [exact IH |].
  simpl. destruct (String.eqb_spec key k); [contradiction | exact IH].
Qed.

Lemma length_remove (key : string) (l : list (string * CacheEntry)) :
  (List.length (Lru.remove key l) <= List.length l)%nat.
Proof.
  induction l as [| [k e] l IH]; simpl; [lia |].
  destruct (String.eqb key k); simpl; lia.
Qed.

Lemma length_remove_found (key : string) (e : CacheEntry)
  (l : list (string * CacheEntry)) :
  Lru.find key l = Some e ->
  (List.length (Lru.remove key l) < List.length l)%nat.
Proof.
  induction l as [| [k e'] l IH]; simpl; [discriminate |].
  destruct (String.eqb key k).
  - intros _. pose proof (length_remove key l). lia.
  - intros H. specialize (IH H). simpl. lia.
Qed.

(** The entry just written is the first one, whatever was there. *)
Lemma find_set (key : string) (e : CacheEntry) (c : LruCache) :
  (0 < lru_max c)%nat ->
  Lru.find key (lru_entries (Lru.set key e c)) = Some e.
Proof.
  unfold Lru.set. simpl. destruct (lru_max c) as [| m]; [lia |]. intros _.
  simpl. by rewrite String.eqb_refl.
Qed.

(** What [get] gives, from the entry under the key. *)
Lemma get_found (t : Z) (key : string) (e : CacheEntry) (c : LruCache) :
  Lru.find key (lru_entries c) = Some e ->
  (LruCacheAdapter.get t key c).1
  = if LruCacheAdapter.expired t e then None else Some (value e).
Proof.
  intros H. unfold LruCacheAdapter.get, Lru.get. rewrite H.
  by destruct (LruCacheAdapter.expired t e).
Qed.

Lemma get_missing (t : Z) (key : string) (c : LruCache) :
  Lru.find key (lru_entries c) = None ->
  LruCacheAdapter.get t key c = (None, c).
Proof. intros H. unfold LruCacheAdapter.get, Lru.get. by rewrite H. Qed.

(** [get] looks at the entry under its key only. *)
Lemma get_agrees (t : Z) (key : string) (c c' : LruCache) :
  Lru.find key (lru_entries c') = Lru.find key (lru_entries c) ->
  (LruCacheAdapter.get t key c').1 = (LruCacheAdapter.get t key c).1.
Proof.
  intros H. unfold LruCacheAdapter.get, Lru.get. rewrite H.
  destruct (Lru.find key (lru_entries c)) as [e |]; [| reflexivity].
  by destruct (LruCacheAdapter.expired t e).
Qed.

(** The entries after a [get], as lookups. *)
Lemma find_after_get (t : Z) (k key : string) (c : LruCache) :
  Lru.find k (lru_entries (LruCacheAdapter.get t key c).2)
  = if String.eqb k key then
      match Lru.find key (lru_entries c) with
      | Some e => if LruCacheAdapter.expired t e then None else Some e
      | None => None
      end
    else Lru.find k (lru_entries c).
Proof.
  unfold LruCacheAdapter.get, Lru.get.
  destruct (Lru.find key (lru_entries c)) as [e |] eqn:Hf.
  - destruct (LruCacheAdapter.expired t e); simpl.
    + destruct (String.eqb_spec k key) as [-> | Hne].
      * rewrite String.eqb_refl. apply find_remove_eq.
      * destruct (String.eqb_spec key key); [| contradiction].
        rewrite !CacheFacts.find_remove_ne by assumption. reflexivity.
    + destruct (String.eqb_spec k key) as [-> | Hne]; [reflexivity |].
      by apply CacheFacts.find_remove_ne.
  - simpl. destruct (String.eqb_spec k key) as [-> | Hne]; [exact Hf |].
    reflexivity.
Qed.

(** A value that was written and has not expired is returned. *)
Lemma get_set_fresh (t t' : Z) (key : string) (v : ApiResponse)
  (ttlMs : option Z) (c : LruCache) :
  (0 < lru_max c)%nat ->
  (ttlMs = None \/ ttlMs = Some 0 \/ exists d, ttlMs = Some d /\ t' < t + d) ->
  (LruCacheAdapter.get t' key (LruCacheAdapter.set t key v ttlMs c)).1
  = Some v.
Proof.
  intros Hmax Httl. unfold LruCacheAdapter.set.
  rewrite (get_found t' key _ _ (find_set key _ c Hmax)).
  unfold LruCacheAdapter.expired. simpl.
  destruct Httl as [-> | [-> | (d & -> & Hd)]]; [reflexivity | reflexivity |].
  destruct (d =? 0); [reflexivity |]. simpl.
  destruct (Z.leb_spec (t + d) t'); [lia |]. by rewrite andb_false_r.
Qed.

End LruFacts.

(** X1. A value written to the cache adapter is what [get] returns for
    its key as long as the entry has not expired: when it was written
    without a ttl, with a ttl of 0 -- which the adapter takes for no ttl
    at all --, or when the clock is still before the time of writing plus
    the ttl. *)
Theorem LruCacheAdapter_get_after_set (t t' : Z) (key : string)
  (v : ApiResponse) (ttlMs : option Z) (c : LruCache) :
  (0 < lru_max c)%nat ->
  (ttlMs = None \/ ttlMs = Some 0 \/ exists d, ttlMs = Some d /\ t' < t + d) ->
  (LruCacheAdapter.get t' key (LruCacheAdapter.set t key v ttlMs c)).1
  = Some v.
Proof. apply LruFacts.get_set_fresh. Qed.

Lemma LruCacheAdapter_get_after_set_witness :
  (LruCacheAdapter.get 10999 "k"
     (LruCacheAdapter.set 1000 "k" Scenario.user_result (Some 10000)
        (LruCacheAdapter.new None))).1
  = Some Scenario.user_result.
Proof.
  apply LruCacheAdapter_get_after_set; [simpl; lia |].
  right; right. exists 10000. split; [reflexivity | lia].
Defined.

(** X2. Once the clock has reached the time of writing plus the ttl, a
    [get] returns nothing and removes the entry: the cache then has no
    entry under the key, so no later [get] finds one, whatever the clock
    shows, while the entries under other keys are as before. (An expiry
    time of 0 counts as none, hence the side condition.) *)
Theorem LruCacheAdapter_get_expired (t t' d : Z) (key : string)
  (v : ApiResponse) (c : LruCache) :
  (0 < lru_max c)%nat -> d <> 0 -> t + d <> 0 -> t + d <= t' ->
  let written := LruCacheAdapter.set t key v (Some d) c in
  (LruCacheAdapter.get t' key written).1 = None /\
  Lru.find key (lru_entries (LruCacheAdapter.get t' key written).2) = None /\
  (forall t'', (LruCacheAdapter.get t'' key
                  (LruCacheAdapter.get t' key written).2).1 = None) /\
  (forall k, k <> key ->
     Lru.find k (lru_entries (LruCacheAdapter.get t' key written).2)
     = Lru.find k (lru_entries written)).
Proof.
  intros Hmax Hd Hx Ht written.
  assert (Lru.find key (lru_entries written)
          = Some (mkEntry v (Some (t + d)))) as Hf.
  { unfold written, LruCacheAdapter.set.
    destruct (Z.eqb_spec d 0); [contradiction |]. by apply LruFacts.find_set. }
  assert (LruCacheAdapter.expired t' (mkEntry v (Some (t + d))) = true) as He.
  { unfold LruCacheAdapter.expired. simpl.
    destruct (Z.eqb_spec (t + d) 0); [contradiction |].
    destruct (Z.leb_spec (t + d) t'); [reflexivity | lia]. }
  assert (Lru.find key (lru_entries (LruCacheAdapter.get t' key written).2)
          = None) as Hgone.
  { rewrite LruFacts.find_after_get, String.eqb_refl, Hf. by rewrite He. }
  split; [| split; [exact Hgone | split]].
  - rewrite (LruFacts.get_found t' key _ _ Hf). by rewrite He.
  - intros t''. by rewrite (LruFacts.get_missing t'' key _ Hgone).
  - intros k Hk. rewrite LruFacts.find_after_get.
    destruct (String.eqb_spec k key); [contradiction | reflexivity].
Qed.

Lemma LruCacheAdapter_get_expired_witness :
  (LruCacheAdapter.get 11000 "k"
     (LruCacheAdapter.set 1000 "k" Scenario.user_result (Some 10000)
        (LruCacheAdapter.new None))).1 = None.
Proof.
  apply (LruCacheAdapter_get_expired 1000 11000 10000 "k" Scenario.user_result
           (LruCacheAdapter.new None)); simpl; lia.
Defined.

(** X3. [delete] removes the entry under its key and no other: a [get]
    of that key then returns nothing, and a [get] of any other key
    returns what it returned before. After [clear] every [get] returns
    nothing. *)
Theorem LruCacheAdapter_delete_and_clear (t : Z) (key : string)
  (c : LruCache) :
  (LruCacheAdapter.get t key (LruCacheAdapter.delete key c)).1 = None /\
  (forall k, k <> key ->
     (LruCacheAdapter.get t k (LruCacheAdapter.delete key c)).1
     = (LruCacheAdapter.get t k c).1) /\
  (forall k, LruCacheAdapter.get t k (LruCacheAdapter.clear c)
             = (None, LruCacheAdapter.clear c)).
Proof.
  split; [| split].
  - rewrite LruFacts.get_missing; [reflexivity |].
    apply LruFacts.find_remove_eq.
  - intros k Hk. apply LruFacts.get_agrees. simpl.
    by apply CacheFacts.find_remove_ne.
  - intros k. by apply LruFacts.get_missing.
Qed.

(** X4. Writing under one key leaves the entries under the other keys
    alone as long as there is room: when the key is already in the
    cache, or the cache holds fewer entries than its capacity. *)
Theorem LruCacheAdapter_set_keeps_others (t t' : Z) (key k : string)
  (v : ApiResponse) (ttlMs : option Z) (c : LruCache) :
  k <> key ->
  (is_Some (Lru.find key (lru_entries c)) /\
   (List.length (lru_entries c) <= lru_max c)%nat \/
   (List.length (lru_entries c) < lru_max c)%nat) ->
  (LruCacheAdapter.get t' k (LruCacheAdapter.set t key v ttlMs c)).1
  = (LruCacheAdapter.get t' k c).1.
Proof.
  intros Hk Hroom. apply LruFacts.get_agrees.
  unfold LruCacheAdapter.set, Lru.set. simpl lru_entries.
  rewrite take_ge.
  - simpl. destruct (String.eqb_spec k key); [contradiction |].
    by apply CacheFacts.find_remove_ne.
  - simpl. destruct Hroom as [[[e He] Hlen] | Hlen].
    + pose proof (LruFacts.length_remove_found key e _ He). lia.
    + pose proof (LruFacts.length_remove key (lru_entries c)). lia.
Qed.

Lemma LruCacheAdapter_set_keeps_others_witness :
  (LruCacheAdapter.get 2000 "a"
     (LruCacheAdapter.set 1500 "b" Scenario.user_result None
        (LruCacheAdapter.set 1000 "a" Scenario.user_result None
           (LruCacheAdapter.new None)))).1
  = (LruCacheAdapter.get 2000 "a"
       (LruCacheAdapter.set 1000 "a" Scenario.user_result None
          (LruCacheAdapter.new None))).1.
Proof.
  apply LruCacheAdapter_set_keeps_others; [discriminate |].
  right. simpl. lia.
Defined.

(* ===================================================================== *)
(** * Further properties: tokens *)
(* ===================================================================== *)

Module ObjFacts.

Lemma obj_get_set (k k' : string) (v : JsValue) (o : JsObj) :
  obj_get k (obj_set k' v o) = if String.eqb k k' then v else obj_get k o.
Proof.
  induction o as [| [k0 v0] o IH]; simpl.
  - reflexivity.
  - destruct (String.eqb_spec k' k0) as [-> | Hne]; simpl.
    + destruct (String.eqb k k0); reflexivity.
    + rewrite IH. destruct (String.eqb_spec k k0) as [-> | Hne'].
      * destruct (String.eqb_spec k0 k'); [congruence | reflexivity].
      * reflexivity.
Qed.

(** A key the second object lacks is read from the first. *)
Lemma obj_get_spread_other (k : string) (a b : JsObj) :
  obj_has k b = false -> obj_get k (spread a b) = obj_get k a.
Proof.
  unfold spread. revert a. induction b as [| [k0 v0] b IH]; intros a; simpl.
  - reflexivity.
  - destruct (String.eqb_spec k k0) as [-> | Hne]; [discriminate |].
    simpl. intros Hb. rewrite IH by assumption. rewrite obj_get_set.
    destruct (String.eqb_spec k k0); [contradiction | reflexivity].
Qed.

(** The metadata depends on the access token only. *)
Lemma token_metadata_of (P : Platform) (tokens tokens' : JsObj) :
  obj_get "accessToken" tokens' = obj_get "accessToken" tokens ->
  token_metadata P tokens' = token_metadata P tokens.
Proof. intros H. unfold token_metadata. by rewrite H. Qed.

End ObjFacts.

Module TokenFacts.
Import AioFacts.

Section TokenFacts.
Context (P : Platform).

Lemma run_alone_AuthManager_setTokens (a : AuthManager) (tokens : JsObj)
  (w : World) :
  run_alone (AuthManager_setTokens P a tokens) w
  = (emit (EvSetTokens (storage a) (spread tokens (token_metadata P tokens)))
       (set_stores
          (insert (storage a)
             (spread (MemoryTokenStorage.tokens_at (storage a) w)
                     (spread tokens (token_metadata P tokens)))) w),
     Fulfilled tt).
Proof.
  unfold AuthManager_setTokens, enrichMetadata.
  by rewrite run_alone_bind, run_alone_await, run_alone_ret, run_alone_await.
Qed.

Lemma tokens_at_stored (ref : nat) (tokens : JsObj) (e : Event) (w : World) :
  MemoryTokenStorage.tokens_at ref
    (emit e (set_stores (insert ref tokens) w)) = tokens.
Proof.
  unfold MemoryTokenStorage.tokens_at. simpl. by rewrite lookup_insert_eq.
Qed.

End TokenFacts.
End TokenFacts.

(** X5. The default expiry test, on the metadata the Auth Coordinator
    derives from a token pair: the access token counts as expired exactly
    when it decodes as a JWT whose [exp] is a number other than 0 and the
    clock has reached [exp] seconds. A token that does not decode, or
    that carries no numeric [exp], never expires. *)
Theorem default_expiry (P : Platform) (t : Z) (tokens : JsObj) :
  defaultIsTokenExpired t (token_metadata P tokens) = true <->
  truthy (obj_get "accessToken" tokens) = true /\
  exists payload n,
    decodeJwt P (obj_get "accessToken" tokens) = Fulfilled payload /\
    obj_get "exp" payload = JNum n /\ n <> 0 /\ n * 1000 <= t.
Proof.
  unfold defaultIsTokenExpired, token_metadata. simpl.
  destruct (truthy (obj_get "accessToken" tokens)); simpl;
    [| split; [discriminate | by intros [? _]]].
  destruct (decodeJwt P (obj_get "accessToken" tokens)) as [payload | e];
    simpl; [| split; [discriminate | by intros (_ & ? & ? & ? & _)]].
  destruct (obj_get "exp" payload) as [| | b | n | n | s | b | parts | data ty | items | props] eqn:Hexp; simpl;
    try (split; [discriminate
               | intros (_ & p0 & m & [= <-] & Hm & _); congruence]).
  destruct (Z.eqb_spec (n * 1000) 0) as [H0 | H0]; simpl.
  - split; [discriminate |].
    intros (_ & p0 & m & [= <-] & Hm & Hm0 & _).
    rewrite Hexp in Hm. injection Hm as <-. lia.
  - destruct (Z.leb_spec (n * 1000) t).
    + split; [| reflexivity]. intros _. split; [reflexivity |].
      exists payload, n. repeat split; auto. lia.
    + split; [discriminate |].
      intros (_ & p0 & m & [= <-] & Hm & _ & Hle).
      rewrite Hexp in Hm. injection Hm as <-. lia.
Qed.

(** X6. After [setTokens] the storage of the client holds the access
    token, the refresh token -- null when none was given -- and the
    metadata of the new access token, which replaces that of the old
    one; and as long as the expiry test does not find the new token
    expired, the Auth Coordinator answers with it. *)
Theorem setTokens_then_getValidAccessToken (P : Platform) (c : ApiClient)
  (accessToken refreshToken : JsValue) (w : World) :
  truthy accessToken = true ->
  isExpired (auth c) (now w)
    (token_metadata P [("accessToken", accessToken)]) = false ->
  let w1 := (run_alone (setTokens P c accessToken refreshToken) w).1 in
  let stored := MemoryTokenStorage.tokens_at (storage (auth c)) w1 in
  (run_alone (setTokens P c accessToken refreshToken) w).2 = Fulfilled tt /\
  obj_get "accessToken" stored = accessToken /\
  obj_get "refreshToken" stored = coalesce refreshToken JNull /\
  obj_get "payload" stored
    = obj_get "payload" (token_metadata P [("accessToken", accessToken)]) /\
  obj_get "accessTokenExpiresAt" stored
    = obj_get "accessTokenExpiresAt"
        (token_metadata P [("accessToken", accessToken)]) /\
  (run_alone (getValidAccessToken P (auth c)) w1).2 = Fulfilled accessToken.
Proof.
  intros Ht He w1 stored.
  assert (run_alone (setTokens P c accessToken refreshToken) w
          = (emit (EvSetTokens (storage (auth c))
                     (spread [("accessToken", accessToken);
                              ("refreshToken", coalesce refreshToken JNull)]
                        (token_metadata P
                           [("accessToken", accessToken);
                            ("refreshToken", coalesce refreshToken JNull)])))
               (set_stores
                  (insert (storage (auth c))
                     (spread (MemoryTokenStorage.tokens_at (storage (auth c)) w)
                        (spread [("accessToken", accessToken);
                                 ("refreshToken", coalesce refreshToken JNull)]
                           (token_metadata P
                              [("accessToken", accessToken);
                               ("refreshToken",
                                coalesce refreshToken JNull)])))) w),
             Fulfilled tt)) as Hrun.
  { unfold setTokens. rewrite AioFacts.run_alone_await.
    apply TokenFacts.run_alone_AuthManager_setTokens. }
  assert (stored
          = spread (MemoryTokenStorage.tokens_at (storage (auth c)) w)
              (spread [("accessToken", accessToken);
                       ("refreshToken", coalesce refreshToken JNull)]
                 (token_metadata P
                    [("accessToken", accessToken);
                     ("refreshToken", coalesce refreshToken JNull)])))
    as Hstored.
  { unfold stored, w1. rewrite Hrun. apply TokenFacts.tokens_at_stored. }
  assert (token_metadata P [("accessToken", accessToken);
                            ("refreshToken", coalesce refreshToken JNull)]
          = token_metadata P [("accessToken", accessToken)]) as Hmeta
    by (by apply ObjFacts.token_metadata_of).
  rewrite Hmeta in Hstored.
  assert (forall k,
            obj_get k stored
            = if String.eqb k "accessTokenExpiresAt" then
                obj_get "accessTokenExpiresAt"
                  (token_metadata P [("accessToken", accessToken)])
              else if String.eqb k "payload" then
                obj_get "payload"
                  (token_metadata P [("accessToken", accessToken)])
              else if String.eqb k "refreshToken" then
                coalesce refreshToken JNull
              else if String.eqb k "accessToken" then accessToken
              else obj_get k
                     (MemoryTokenStorage.tokens_at (storage (auth c)) w))
    as Hget.
  { intros k. rewrite Hstored. unfold spread, token_metadata. simpl.
    rewrite !ObjFacts.obj_get_set. reflexivity. }
  split; [by rewrite Hrun |].
  split; [by rewrite Hget |]. split; [by rewrite Hget |].
  split; [by rewrite Hget |]. split; [by rewrite Hget |].
  rewrite (AuthFacts.live_token P (auth c) w1).
  - simpl. fold stored. by rewrite Hget.
  - fold stored. by rewrite Hget.
  - fold stored.
    rewrite (ObjFacts.token_metadata_of P [("accessToken", accessToken)] stored)
      by (by rewrite Hget).
    unfold w1. rewrite Hrun. exact He.
Qed.

Lemma setTokens_then_getValidAccessToken_witness :
  (run_alone (getValidAccessToken Scenario.std (auth Scenario.stale_client))
     (run_alone (setTokens Scenario.std Scenario.stale_client
                   (JStr "valid.jwt") JUndefined) Scenario.stale_world).1).2
  = Fulfilled (JStr "valid.jwt").
Proof.
  apply (setTokens_then_getValidAccessToken Scenario.std Scenario.stale_client
           (JStr "valid.jwt") JUndefined Scenario.stale_world);
    reflexivity.
Defined.

(** X7. After [clearTokens] the storage of the client holds the empty
    pair -- the metadata is dropped with the tokens -- and the Auth
    Coordinator answers with no token, without consulting the expiry
    test or the refresh callback. *)
Theorem clearTokens_then_no_token (P : Platform) (c : ApiClient) (w : World) :
  let w1 := (run_alone (clearTokens c) w).1 in
  (run_alone (clearTokens c) w).2 = Fulfilled tt /\
  MemoryTokenStorage.tokens_at (storage (auth c)) w1
    = MemoryTokenStorage.empty /\
  trace w1 = (trace w ++ [EvClearTokens (storage (auth c))])%list /\
  run_alone (getValidAccessToken P (auth c)) w1
    = (emit (EvGetTokens (storage (auth c))) w1, Fulfilled JNull).
Proof.
  intros w1.
  assert (run_alone (clearTokens c) w
          = (emit (EvClearTokens (storage (auth c)))
               (set_stores (insert (storage (auth c)) MemoryTokenStorage.empty)
                  w), Fulfilled tt)) as Hrun.
  { unfold clearTokens, AuthManager_clear.
    by rewrite !AioFacts.run_alone_await. }
  assert (MemoryTokenStorage.tokens_at (storage (auth c)) w1
          = MemoryTokenStorage.empty) as Hempty.
  { unfold w1. rewrite Hrun. apply TokenFacts.tokens_at_stored. }
  split; [by rewrite Hrun |]. split; [exact Hempty |].
  split; [unfold w1; by rewrite Hrun |].
  apply AuthFacts.no_token. by rewrite Hempty.
Qed.

(** X8. The stored access token has expired, there is a refresh token
    and the refresh callback answers with a new pair. Then the Auth
    Coordinator asks for the tokens, calls the callback once with the
    stored pair, writes the new pair with its metadata to the storage --
    over the stored tokens, so a key the callback left out keeps its old
    value -- and answers with the new access token, which it does not
    test for expiry. *)
Theorem refresh_replaces_tokens (P : Platform) (a : AuthManager) (w : World)
  (refresh : JsObj -> Outcome JsObj) (updated : JsObj) :
  let tokens := MemoryTokenStorage.tokens_at (storage a) w in
  let current := [("accessToken", obj_get "accessToken" tokens);
                  ("refreshToken", obj_get "refreshToken" tokens)] in
  truthy (obj_get "accessToken" tokens) = true ->
  isExpired a (now w) (token_metadata P tokens) = true ->
  onRefresh a = Some refresh ->
  truthy (obj_get "refreshToken" tokens) = true ->
  refresh current = Fulfilled updated ->
  let w1 := (run_alone (getValidAccessToken P a) w).1 in
  (run_alone (getValidAccessToken P a) w).2
    = Fulfilled (obj_get "accessToken" updated) /\
  trace w1
    = (trace w ++ [EvGetTokens (storage a); EvRefresh current;
                   EvSetTokens (storage a)
                     (spread updated (token_metadata P updated))])%list /\
  MemoryTokenStorage.tokens_at (storage a) w1
    = spread tokens (spread updated (token_metadata P updated)) /\
  (forall k, obj_has k updated = false -> k <> "payload" ->
             k <> "accessTokenExpiresAt" ->
             obj_get k (MemoryTokenStorage.tokens_at (storage a) w1)
             = obj_get k tokens).
Proof.
  intros tokens current H1 H2 H3 H4 H5 w1.
  assert (run_alone (getValidAccessToken P a) w
          = (emit (EvSetTokens (storage a)
                     (spread updated (token_metadata P updated)))
               (set_stores
                  (insert (storage a)
                     (spread tokens (spread updated (token_metadata P updated))))
                  (emit (EvRefresh current) (emit (EvGetTokens (storage a)) w))),
             Fulfilled (obj_get "accessToken" updated))) as Hrun.
  { unfold getValidAccessToken.
    rewrite AioFacts.run_alone_bind, AioFacts.run_alone_await,
      AuthFacts.run_alone_getTokens.
    fold tokens. rewrite H1. simpl negb. cbv iota.
    rewrite AioFacts.run_alone_bind, AioFacts.run_alone_await.
    unfold enrichMetadata.
    rewrite AioFacts.run_alone_ret, AioFacts.run_alone_bind,
      AioFacts.run_alone_gets.
    simpl now. rewrite H2. simpl negb. cbv iota. rewrite H3, H4.
    rewrite AioFacts.run_alone_bind, AioFacts.run_alone_await.
    unfold call_onRefresh at 1. unfold run_alone at 1. simpl finish.
    fold current. rewrite H5.
    rewrite AioFacts.run_alone_bind, AioFacts.run_alone_await.
    rewrite TokenFacts.run_alone_AuthManager_setTokens.
    rewrite AioFacts.run_alone_ret. reflexivity. }
  assert (MemoryTokenStorage.tokens_at (storage a) w1
          = spread tokens (spread updated (token_metadata P updated)))
    as Hstored.
  { unfold w1. rewrite Hrun. apply TokenFacts.tokens_at_stored. }
  split; [by rewrite Hrun |]. split; [| split; [exact Hstored |]].
  - unfold w1. rewrite Hrun. simpl. by rewrite <- !app_assoc.
  - intros k Hk Hp Hx. rewrite Hstored.
    apply ObjFacts.obj_get_spread_other.
    unfold spread at 1. unfold token_metadata. simpl.
    assert (forall k' v o, k <> k' ->
              obj_has k (obj_set k' v o) = obj_has k (o : JsObj)) as Hset.
    { intros k' v o Hne. induction o as [| [k0 v0] o IH]; simpl.
      - destruct (String.eqb_spec k k'); [contradiction | reflexivity].
      - destruct (String.eqb_spec k' k0) as [-> | Hne0]; simpl.
        + destruct (String.eqb_spec k k0); [contradiction | reflexivity].
        + by rewrite IH. }
    by rewrite !Hset.
Qed.

Lemma refresh_replaces_tokens_witness :
  (run_alone (getValidAccessToken Scenario.std RefreshScenario.renewing)
             RefreshScenario.world).2
  = Fulfilled (JStr "valid.jwt") /\
  obj_get "refreshToken"
    (MemoryTokenStorage.tokens_at 0
       (run_alone (getValidAccessToken Scenario.std RefreshScenario.renewing)
                  RefreshScenario.world).1)
  = JStr "refresh-1".
Proof.
  destruct (refresh_replaces_tokens Scenario.std RefreshScenario.renewing
              RefreshScenario.world
              (fun _ => Fulfilled [("accessToken", JStr "valid.jwt")])
              [("accessToken", JStr "valid.jwt")]
              eq_refl eq_refl eq_refl eq_refl eq_refl) as (H1 & _ & _ & H4).
  split; [exact H1 |].
  apply (H4 "refreshToken"); [reflexivity | discriminate | discriminate].
Defined.

(** X9. The stored access token has expired, there is a refresh token,
    and the refresh callback rejects. Then the Auth Coordinator rejects
    with the error of the callback, after asking for the tokens and
    calling the callback once; it writes nothing: the storage holds the
    expired tokens as before. *)
Theorem refresh_failure_keeps_tokens (P : Platform) (a : AuthManager)
  (w : World) (refresh : JsObj -> Outcome JsObj) (e : Thrown) :
  let tokens := MemoryTokenStorage.tokens_at (storage a) w in
  let current := [("accessToken", obj_get "accessToken" tokens);
                  ("refreshToken", obj_get "refreshToken" tokens)] in
  truthy (obj_get "accessToken" tokens) = true ->
  isExpired a (now w) (token_metadata P tokens) = true ->
  onRefresh a = Some refresh ->
  truthy (obj_get "refreshToken" tokens) = true ->
  refresh current = Rejected e ->
  run_alone (getValidAccessToken P a) w
    = (emit (EvRefresh current) (emit (EvGetTokens (storage a)) w),
       Rejected e) /\
  stores (run_alone (getValidAccessToken P a) w).1 = stores w.
Proof.
  intros tokens current H1 H2 H3 H4 H5.
  assert (run_alone (getValidAccessToken P a) w
          = (emit (EvRefresh current) (emit (EvGetTokens (storage a)) w),
             Rejected e)) as Hrun.
  { unfold getValidAccessToken.
    rewrite AioFacts.run_alone_bind, AioFacts.run_alone_await,
      AuthFacts.run_alone_getTokens.
    fold tokens. rewrite H1. simpl negb. cbv iota.
    rewrite AioFacts.run_alone_bind, AioFacts.run_alone_await.
    unfold enrichMetadata.
    rewrite AioFacts.run_alone_ret, AioFacts.run_alone_bind,
      AioFacts.run_alone_gets.
    simpl now. rewrite H2. simpl negb. cbv iota. rewrite H3, H4.
    rewrite AioFacts.run_alone_bind, AioFacts.run_alone_await.
    unfold call_onRefresh at 1. unfold run_alone at 1. simpl finish.
    fold current. by rewrite H5. }
  split; [exact Hrun | by rewrite Hrun].
Qed.

Lemma refresh_failure_keeps_tokens_witness :
  run_alone (getValidAccessToken Scenario.std RefreshScenario.refusing)
            RefreshScenario.world
  = (emit (EvRefresh [("accessToken", JStr "expired.jwt");
                      ("refreshToken", JStr "refresh-1")])
       (emit (EvGetTokens 0) RefreshScenario.world),
     Rejected Scenario.refusal).
Proof.
  apply (refresh_failure_keeps_tokens Scenario.std RefreshScenario.refusing
           RefreshScenario.world (fun _ => Rejected Scenario.refusal)
           Scenario.refusal eq_refl eq_refl eq_refl eq_refl eq_refl).
Defined.


(* ===================================================================== *)
(** * Further properties: the stream relay when something fails *)
(* ===================================================================== *)

Module RelayFacts.
Import AioFacts TraceFacts StreamFacts.

(** A handler call that returns. *)
Lemma run_alone_invoke_at {A} (h : option (Callback A)) (x : A)
  (call : HandlerCall) (w : World) :
  (forall f, h = Some f -> f x = None) ->
  run_alone (invoke h x call) w = (emit_all (heard h call) w, Fulfilled tt).
Proof.
  intros Hq. destruct h as [f |]; simpl.
  - unfold run_alone. simpl. by rewrite (Hq f eq_refl).
  - unfold run_alone. simpl. by rewrite emit_all_nil.
Qed.

(** The read loop over chunks whose handler calls all return. *)
Lemma run_alone_read_all_prefix (onChunk : option (Callback JsValue))
  (pre rest : list JsValue) (ending : option Thrown) (w : World) :
  (forall f x, onChunk = Some f -> x ∈ pre -> f x = None) ->
  run_alone (read_all onChunk (pre ++ rest) ending) w
  = run_alone (read_all onChunk rest ending)
              (emit_all (arrivals truthy onChunk pre) w).
Proof.
  revert w. induction pre as [| v pre IH]; intros w Hq.
  - simpl. by rewrite emit_all_nil.
  - cbn [app read_all]. rewrite run_alone_bind, run_alone_read.
    rewrite run_alone_bind.
    assert (forall f x, onChunk = Some f -> x ∈ pre -> f x = None) as Hq'.
    { intros f x Hf Hx. apply (Hq f x Hf). by right. }
    unfold arrivals. cbn [flat_map]. destruct (truthy v).
    + rewrite run_alone_invoke_at
        by (intros f Hf; apply (Hq f v Hf); by left).
      rewrite IH by assumption. unfold arrivals.
      rewrite emit_one, !emit_all_app. by rewrite <- ?app_assoc.
    + rewrite run_alone_ret. rewrite IH by assumption.
      rewrite emit_one, !emit_all_app. reflexivity.
Qed.

Lemma run_alone_read_all_failing (onChunk : option (Callback JsValue))
  (l : list JsValue) (e : Thrown) (w : World) :
  quiet onChunk ->
  run_alone (read_all onChunk l (Some e)) w
  = (emit_all (arrivals truthy onChunk l ++ [EvRead]) w, Rejected e).
Proof.
  intros Hq. rewrite <- (app_nil_r l) at 1.
  rewrite run_alone_read_all_prefix by (intros f x Hf _; by apply Hq).
  simpl. by rewrite run_alone_read, emit_one, emit_all_app.
Qed.

(** What [invoke] does, for any handler. *)
Lemma run_alone_invoke_any {A} (h : option (Callback A)) (x : A)
  (call : HandlerCall) (w : World) :
  exists r, run_alone (invoke h x call) w = (emit_all (heard h call) w, r).
Proof.
  destruct h as [f |]; simpl.
  - unfold run_alone. simpl. eexists. reflexivity.
  - exists (Fulfilled tt). unfold run_alone. simpl. by rewrite emit_all_nil.
Qed.

Lemma heard_no_release {A} (h : option (Callback A)) (call : HandlerCall) :
  Forall (fun e => is_release e = false) (heard h call).
Proof. destruct h; repeat constructor. Qed.

(** The read loop reads and calls handlers, and does nothing else to the
    world. *)
Lemma read_all_emits (onChunk : option (Callback JsValue))
  (l : list JsValue) (ending : option Thrown) (w : World) :
  exists evs r,
    run_alone (read_all onChunk l ending) w = (emit_all evs w, r) /\
    Forall (fun e => is_release e = false) evs.
Proof.
  revert w. induction l as [| v l IH]; intros w.
  - simpl. rewrite run_alone_read. exists [EvRead].
    destruct ending as [e |]; eexists;
      (split; [by rewrite emit_one | by repeat constructor]).
  - cbn [read_all]. rewrite run_alone_bind, run_alone_read.
    rewrite run_alone_bind. destruct (truthy v).
    + destruct (run_alone_invoke_any onChunk v (CallChunk v) (emit EvRead w))
        as [r Hr].
      rewrite Hr. destruct r as [[] | e].
      * destruct (IH (emit_all (heard onChunk (CallChunk v)) (emit EvRead w)))
          as (evs & r & Hrun & Hevs).
        exists (EvRead :: heard onChunk (CallChunk v) ++ evs)%list, r.
        split; [by rewrite Hrun, emit_one, !emit_all_app |].
        constructor; [reflexivity |].
        apply Forall_app. split; [apply heard_no_release | exact Hevs].
      * exists (EvRead :: heard onChunk (CallChunk v)), (Rejected e).
        split; [by rewrite emit_one, emit_all_app |].
        constructor; [reflexivity | apply heard_no_release].
    + rewrite run_alone_ret.
      destruct (IH (emit EvRead w)) as (evs & r & Hrun & Hevs).
      exists (EvRead :: evs), r.
      split; [by rewrite Hrun, emit_one, emit_all_app |].
      by constructor.
Qed.

End RelayFacts.

(** X10. The body of the response fails with an error after some chunks,
    and no handler throws. The relay calls onStart and takes the reader;
    it reads every chunk that arrived before the failure and hands the
    truthy ones to onChunk, each after its read and in order; after the
    read that fails it calls onError once with that error and never
    onComplete; it releases the reader and rejects with the error. *)
Theorem streamResponse_body_failure (response : Response)
  (handlers : StreamHandlers) (l : list JsValue) (e : Thrown) (w : World) :
  resp_body response = Some (mkBody l (Some e)) ->
  quiet (onStart handlers) -> quiet (onChunk handlers) ->
  quiet (onError handlers) ->
  run_alone (streamResponse response handlers) w
  = (emit_all
       (heard (onStart handlers)
              (CallStart (resp_status response) (resp_headers response)) ++
        EvGetReader :: arrivals truthy (onChunk handlers) l ++
        EvRead :: heard (onError handlers) (CallError e) ++
        [EvReleaseLock])%list w,
     Rejected e).
Proof.
  intros Hb Hs Hc He. unfold streamResponse. rewrite Hb.
  rewrite AioFacts.run_alone_bind, StreamFacts.run_alone_invoke by assumption.
  rewrite AioFacts.run_alone_bind, AioFacts.run_alone_modify.
  rewrite AioFacts.run_alone_finally, AioFacts.run_alone_catch.
  rewrite AioFacts.run_alone_bind. simpl chunks. simpl failure.
  rewrite RelayFacts.run_alone_read_all_failing by assumption.
  rewrite AioFacts.run_alone_bind, StreamFacts.run_alone_invoke by assumption.
  unfold run_alone at 1 2. simpl.
  rewrite !TraceFacts.emit_one, !TraceFacts.emit_all_app.
  by rewrite <- ?app_assoc.
Qed.

Lemma streamResponse_body_failure_witness :
  run_alone
    (streamResponse
       (mkResponse 200 []
          (Some (mkBody [JBytes [Byte.x01]] (Some Scenario.refusal))))
       Scenario.listening) Scenario.world0
  = (emit_all [EvHandler (CallStart 200 []); EvGetReader;
               EvRead; EvHandler (CallChunk (JBytes [Byte.x01]));
               EvRead; EvHandler (CallError Scenario.refusal); EvReleaseLock]
       Scenario.world0,
     Rejected Scenario.refusal).
Proof.
  apply (streamResponse_body_failure
           (mkResponse 200 []
              (Some (mkBody [JBytes [Byte.x01]] (Some Scenario.refusal))))
           Scenario.listening [JBytes [Byte.x01]] Scenario.refusal
           Scenario.world0 eq_refl).
  - intros f x H. injection H as <-. reflexivity.
  - intros f x H. injection H as <-. reflexivity.
  - intros f x H. injection H as <-. reflexivity.
Defined.

(** X11. The chunk handler throws on a chunk. The relay has read the
    chunks before it and handed on the truthy ones, in order; after the
    throw it reads no more, hands no later chunk to the handler and does
    not call onComplete; it calls onError once with what the handler
    threw, releases the reader and rejects with that -- however the
    stream would have ended. *)
Theorem streamResponse_onChunk_throws (response : Response)
  (handlers : StreamHandlers) (f : Callback JsValue)
  (pre post : list JsValue) (v : JsValue) (ending : option Thrown)
  (e : Thrown) (w : World) :
  resp_body response = Some (mkBody (pre ++ v :: post) ending) ->
  onChunk handlers = Some f ->
  (forall x, x ∈ pre -> f x = None) -> truthy v = true -> f v = Some e ->
  quiet (onStart handlers) -> quiet (onError handlers) ->
  run_alone (streamResponse response handlers) w
  = (emit_all
       (heard (onStart handlers)
              (CallStart (resp_status response) (resp_headers response)) ++
        EvGetReader :: arrivals truthy (Some f) pre ++
        [EvRead; EvHandler (CallChunk v)] ++
        heard (onError handlers) (CallError e) ++ [EvReleaseLock])%list w,
     Rejected e).
Proof.
  intros Hb Hf Hpre Hv Hthrow Hs He. unfold streamResponse. rewrite Hb, Hf.
  rewrite AioFacts.run_alone_bind, StreamFacts.run_alone_invoke by assumption.
  rewrite AioFacts.run_alone_bind, AioFacts.run_alone_modify.
  rewrite AioFacts.run_alone_finally, AioFacts.run_alone_catch.
  rewrite AioFacts.run_alone_bind. simpl chunks. simpl failure.
  rewrite RelayFacts.run_alone_read_all_prefix
    by (intros g x [= <-] Hx; by apply Hpre).
  cbn [read_all]. rewrite AioFacts.run_alone_bind, StreamFacts.run_alone_read.
  rewrite AioFacts.run_alone_bind. rewrite Hv.
  assert (forall w0, run_alone (invoke (Some f) v (CallChunk v)) w0
                     = (emit (EvHandler (CallChunk v)) w0, Rejected e)) as Hi.
  { intros w0. unfold run_alone. simpl. by rewrite Hthrow. }
  rewrite Hi.
  rewrite AioFacts.run_alone_bind, StreamFacts.run_alone_invoke by assumption.
  unfold run_alone at 1. simpl.
  rewrite !TraceFacts.emit_one, !TraceFacts.emit_all_app.
  by rewrite <- ?app_assoc.
Qed.

Lemma streamResponse_onChunk_throws_witness :
  run_alone
    (streamResponse
       (Scenario.streaming [JBytes [Byte.x01]; JBytes [Byte.x02];
                            JBytes [Byte.x03]]) choking)
    Scenario.world0
  = (emit_all [EvGetReader;
               EvRead; EvHandler (CallChunk (JBytes [Byte.x01]));
               EvRead; EvHandler (CallChunk (JBytes [Byte.x02]));
               EvHandler (CallError Scenario.refusal); EvReleaseLock]
       Scenario.world0,
     Rejected Scenario.refusal).
Proof.
  apply (streamResponse_onChunk_throws
           (Scenario.streaming [JBytes [Byte.x01]; JBytes [Byte.x02];
                                JBytes [Byte.x03]])
           choking _ [JBytes [Byte.x01]] [JBytes [Byte.x03]]
           (JBytes [Byte.x02]) None Scenario.refusal Scenario.world0
           eq_refl eq_refl).
  - intros x Hx. apply list_elem_of_singleton in Hx as ->. reflexivity.
  - reflexivity.
  - reflexivity.
  - intros g x H. discriminate H.
  - intros g x H. injection H as <-. reflexivity.
Defined.

(** X12. The life of the reader. When onStart throws, the relay rejects
    with what it threw, at once, and nothing else happens: no reader is
    taken and nothing is read from the body, no other handler is called,
    no reader is released. When onStart returns and the response has a
    body, the reader is taken right after onStart and released exactly
    once, as the last thing the relay does, whatever the other handlers
    do and however the stream ends. *)
Theorem streamResponse_reader_lifecycle (response : Response)
  (handlers : StreamHandlers) (w : World) :
  (forall f e,
     onStart handlers = Some f ->
     f (resp_status response, resp_headers response) = Some e ->
     streamResponse response handlers w
     = (emit (EvHandler (CallStart (resp_status response)
                                   (resp_headers response))) w,
        Done (Rejected e))) /\
  (quiet (onStart handlers) -> is_Some (resp_body response) ->
   exists evs,
     trace (run_alone (streamResponse response handlers) w).1
     = (trace w ++
        heard (onStart handlers)
              (CallStart (resp_status response) (resp_headers response)) ++
        EvGetReader :: evs ++ [EvReleaseLock])%list /\
     Forall (fun e => is_release e = false) evs).
Proof.
  split.
  - intros f e Hf He. unfold streamResponse. rewrite Hf.
    unfold bind, invoke. simpl. by rewrite He.
  - intros Hs [body Hb]. unfold streamResponse. rewrite Hb.
    rewrite AioFacts.run_alone_bind, StreamFacts.run_alone_invoke
      by assumption.
    rewrite AioFacts.run_alone_bind, AioFacts.run_alone_modify.
    rewrite AioFacts.run_alone_finally, AioFacts.run_alone_catch.
    rewrite AioFacts.run_alone_bind.
    set (w0 := emit EvGetReader (emit_all (heard (onStart handlers) _) w)).
    destruct (RelayFacts.read_all_emits (onChunk handlers) (chunks body)
                (failure body) w0) as (evs & r & Hrun & Hevs).
    rewrite Hrun.
    assert (forall e,
              exists evs',
                (run_alone (invoke (onError handlers) e (CallError e) ;;;
                            (throw e : Job unit)) (emit_all evs w0)).1
                = emit_all (evs ++ evs') w0 /\
                Forall (fun e => is_release e = false) (evs ++ evs')%list)
      as Hcatch.
    { intros e. rewrite AioFacts.run_alone_bind.
      destruct (RelayFacts.run_alone_invoke_any (onError handlers) e
                  (CallError e) (emit_all evs w0)) as [r' Hr'].
      rewrite Hr'. exists (heard (onError handlers) (CallError e)).
      split; [| apply Forall_app; split;
                  [exact Hevs | apply RelayFacts.heard_no_release]].
      rewrite <- TraceFacts.emit_all_app. by destruct r' as [[] | e']. }
    assert (exists evs',
              (match r with
               | Fulfilled _ =>
                   match run_alone (invoke (onComplete handlers) tt
                                           CallComplete) (emit_all evs w0) with
                   | (w', Fulfilled a) => (w', Fulfilled a)
                   | (w', Rejected e) =>
                       run_alone (invoke (onError handlers) e (CallError e) ;;;
                                  (throw e : Job unit)) w'
                   end
               | Rejected e =>
                   run_alone (invoke (onError handlers) e (CallError e) ;;;
                              (throw e : Job unit)) (emit_all evs w0)
               end).1 = emit_all evs' w0 /\
              Forall (fun e => is_release e = false) evs') as (evs' & Hw & Hf).
    { destruct r as [[] | e].
      - destruct (RelayFacts.run_alone_invoke_any (onComplete handlers) tt
                    CallComplete (emit_all evs w0)) as [r' Hr'].
        rewrite Hr'. destruct r' as [[] | e].
        + exists (evs ++ heard (onComplete handlers) CallComplete)%list.
          split; [by rewrite TraceFacts.emit_all_app |].
          apply Forall_app; split;
            [exact Hevs | apply RelayFacts.heard_no_release].
        + rewrite AioFacts.run_alone_bind.
          destruct (RelayFacts.run_alone_invoke_any (onError handlers) e
                      (CallError e)
                      (emit_all (heard (onComplete handlers) CallComplete)
                         (emit_all evs w0))) as [r'' Hr''].
          rewrite Hr''.
          exists (evs ++ heard (onComplete handlers) CallComplete ++
                  heard (onError handlers) (CallError e))%list.
          split; [rewrite !TraceFacts.emit_all_app;
                  by destruct r'' as [[] | e'] |].
          repeat (apply Forall_app; split);
            [exact Hevs | apply RelayFacts.heard_no_release
             | apply RelayFacts.heard_no_release].
      - destruct (Hcatch e) as (evs' & Hw & Hf). by exists (evs ++ evs')%list. }
    exists evs'. split; [| exact Hf].
    transitivity (trace (emit EvReleaseLock (emit_all evs' w0))).
    + destruct r as [[] | e]; simpl; simpl in Hw; by rewrite Hw.
    + unfold w0. simpl. by rewrite <- !app_assoc.
Qed.
Lemma streamResponse_reader_lifecycle_witness :
  exists evs,
    trace (run_alone
             (streamResponse
                (Scenario.streaming [JBytes [Byte.x01]; JBytes [Byte.x02]])
                choking) Scenario.world0).1
    = (trace Scenario.world0 ++ [] ++
       EvGetReader :: evs ++ [EvReleaseLock])%list /\
    Forall (fun e => is_release e = false) evs.
Proof.
  apply (proj2 (streamResponse_reader_lifecycle
                  (Scenario.streaming [JBytes [Byte.x01]; JBytes [Byte.x02]])
                  choking Scenario.world0)).
  - intros f x H. discriminate H.
  - by eexists.
Defined.


(* ===================================================================== *)
(** * Further properties: Results *)
(* ===================================================================== *)

Module ResultFacts.
Import AioFacts AioTactics.

Section Always.
Context {W E : Type}.

(** [try .. catch] when something is known of what the block returns. *)
Lemma always_catchA_post {A} (Q : Settled E A -> Prop) (t : Async W E A)
  (h : E -> Run W E A) (w : W) :
  always (fun r => match r with
                   | Fulfilled a => Q (Fulfilled a)
                   | Rejected e => run_always Q (h e)
                   end) t ->
  always Q (catchA t h w).2.
Proof.
  revert w. induction t as [[a | e] | eff next IH]; intros w; simpl; intros H.
  - exact H.
  - apply H.
  - intros w'. apply IH, H.
Qed.

Lemma run_always_catch_post {A} (Q : Settled E A -> Prop) (m : Run W E A)
  (h : E -> Run W E A) :
  run_always (fun r => match r with
                       | Fulfilled a => Q (Fulfilled a)
                       | Rejected e => run_always Q (h e)
                       end) m ->
  run_always Q (try_catch m h).
Proof. intros Hm w. unfold try_catch. apply always_catchA_post, Hm. Qed.

End Always.

Section Results.
Context (P : Platform) (c : ApiClient).

Lemma decode_answers (response : Response) :
  run_always (answers (resp_ok response) (fun _ => True) response)
             (decode P c response).
Proof.
  unfold decode. apply run_always_catch_post.
  apply run_always_bind_any.
  - intros data. destruct (resp_ok response) eqn:Hok; simpl.
    + apply run_always_ret. simpl. by repeat split.
    + apply run_always_ret. simpl. repeat split.
      destruct data; try reflexivity.
      destruct (obj_has "code" props) eqn:Hc; [exact Hc | reflexivity].
  - intros e. apply run_always_ret. simpl. repeat split.
Qed.

Lemma relay_answers (req : ApiRequest) (response : Response) :
  run_always (answers true (fun d => d = JUndefined) response)
             (relay req response).
Proof.
  unfold relay. apply run_always_catch_post.
  apply run_always_bind_any.
  - intros _. apply run_always_ret. simpl. by repeat split.
  - intros e. apply run_always_ret. simpl. by repeat split.
Qed.

End Results.
End ResultFacts.


(** X14. Streaming does not look at the status. With handlers that do
    not throw and a body that ends gracefully, the Result of a streamed
    request is a Success with the status and headers of the response and
    no data -- for a 404 or a 500 as for a 200 --, and under every
    interleaving a streamed request ends in a Success without data or in
    a Failure that carries a [code], both with the status and headers of
    the response. *)
Theorem relay_ignores_status (req : ApiRequest) (response : Response)
  (w : World) :
  let handlers := default no_handlers (req_streamHandlers req) in
  quiet (onStart handlers) -> quiet (onChunk handlers) ->
  quiet (onComplete handlers) ->
  (forall body, resp_body response = Some body -> failure body = None) ->
  (run_alone (relay req response) w).2
    = Fulfilled (Success (resp_status response) (resp_headers response)
                         JUndefined) /\
  run_always (answers true (fun d => d = JUndefined) response)
             (relay req response).
Proof.
  intros handlers Hs Hc Hd Hend. split; [| apply ResultFacts.relay_answers].
  unfold relay.
  rewrite AioFacts.run_alone_catch, AioFacts.run_alone_bind,
    AioFacts.run_alone_await.
  fold handlers.
  assert ((run_alone (streamResponse response handlers) w).2 = Fulfilled tt)
    as Hrun.
  { unfold streamResponse.
    rewrite AioFacts.run_alone_bind, StreamFacts.run_alone_invoke
      by assumption.
    destruct (resp_body response) as [body |] eqn:Hb.
    - rewrite AioFacts.run_alone_bind, AioFacts.run_alone_modify.
      rewrite AioFacts.run_alone_finally, AioFacts.run_alone_catch.
      rewrite AioFacts.run_alone_bind. rewrite (Hend body eq_refl).
      rewrite StreamFacts.run_alone_read_all by assumption.
      by rewrite StreamFacts.run_alone_invoke by assumption.
    - by rewrite StreamFacts.run_alone_invoke by assumption. }
  destruct (run_alone (streamResponse response handlers) w) as [w1 r].
  simpl in Hrun. subst r. by rewrite AioFacts.run_alone_ret.
Qed.

Lemma relay_ignores_status_witness :
  (run_alone
     (relay (mkRequest "/events" (Some GET) None None JUndefined None None
                       true (Some Scenario.listening))
            (mkResponse 500 [] (Some (mkBody [JBytes [Byte.x01]] None))))
     Scenario.world0).2
  = Fulfilled (Success 500 [] JUndefined).
Proof.
  apply (relay_ignores_status
           (mkRequest "/events" (Some GET) None None JUndefined None None
                      true (Some Scenario.listening))
           (mkResponse 500 [] (Some (mkBody [JBytes [Byte.x01]] None)))
           Scenario.world0).
  - intros f x H. injection H as <-. reflexivity.
  - intros f x H. injection H as <-. reflexivity.
  - intros f x H. injection H as <-. reflexivity.
  - intros body H. injection H as <-. reflexivity.
Defined.

(** X15. Every Failure an execution returns has an error with a
    [code], and a Failure without headers has the status 0: it is the
    failure of the transport block, and every other Failure carries the
    headers of the response. This holds under every interleaving and
    whatever the Auth Coordinator answered. *)
Theorem failures_carry_a_code (P : Platform) (c : ApiClient) (url : string)
  (method : HttpMethod) (req : ApiRequest) :
  run_always
    (fun r => forall s h e,
       r = Fulfilled (Failure s h e) ->
       obj_has "code" e = true /\ (h = None -> s = 0))
    (execute P c url method req).
Proof.
  unfold execute. apply AioFacts.run_always_bind_any; [| discriminate].
  intros token. unfold execute_with. apply AioFacts.run_always_bind.
  apply ResultFacts.run_always_catch_post.
  apply AioFacts.run_always_bind_any.
  - intros response. apply AioFacts.run_always_ret.
    destruct (req_stream req).
    + eapply AioFacts.run_always_weaken;
        [| apply ResultFacts.relay_answers].
      intros [[s h d | s h e] | e0] Ha s' h' e'; try discriminate.
      intros [= <- <- <-]. destruct Ha as (_ & -> & Hc).
      split; [exact Hc | discriminate].
    + eapply AioFacts.run_always_weaken;
        [| apply (ResultFacts.decode_answers P c)].
      intros [[s h d | s h e] | e0] Ha s' h' e'; try discriminate.
      intros [= <- <- <-]. destruct Ha as (_ & -> & Hc).
      split; [exact Hc | discriminate].
  - intros e. apply AioFacts.run_always_ret, AioFacts.run_always_ret.
    intros s h e' [= <- <- <-]. split; reflexivity.
Qed.

(* ===================================================================== *)
(** * Further properties: what is handed to the transport *)
(* ===================================================================== *)

Module WireFacts.
Import AioFacts AioTactics DoesFacts.

Section WireFacts.
Context (P : Platform) (Φ : Event -> Prop) (c : ApiClient).
Context (quiet_events : forall e, no_fetch e -> Φ e).

(** [seal] replaces a Blob by a Blob of ciphertext and leaves any other
    body as it is. *)
Lemma seal_body (url : string) (method : HttpMethod) (init : RequestInit) :
  run_always
    (fun r => forall a, r = Fulfilled a ->
       init_method a = init_method init /\
       init_signal a = init_signal init /\
       match encryption (options c), as_blob (init_body init) with
       | Some _, Some _ =>
           exists cipher,
             init_body a = Some (BodyBlob cipher "application/octet-stream")
       | _, _ => init_body a = init_body init
       end)
    (seal P c url method init).
Proof.
  unfold seal.
  destruct (encryption (options c)) as [enc |];
    [| apply run_always_ret; by intros a [= <-]].
  destruct (as_blob (init_body init)) as [data |] eqn:Hb;
    [| apply run_always_ret; by intros a [= <-]].
  always_go ltac:(first [ discriminate
                        | intros ? [= <-]; simpl; repeat split; eauto ]).
Qed.

Lemma methodToInit_body (method : HttpMethod) (req : ApiRequest)
  (body : option BodyInit) :
  methodToInit method (req_body req) (encryption (options c)) = Fulfilled body ->
  match method with
  | GET | DELETE => body = None
  | FORMDATA => body = Some (BodyValue (req_body req))
  | _ =>
      match encryption (options c) with
      | Some _ => exists data, body = Some (BodyBlob data "application/octet-stream")
      | None =>
          body = match JSON_stringify (req_body req) with
                 | SText s => Some (BodyText s)
                 | _ => None
                 end
      end
  end.
Proof.
  unfold methodToInit.
  destruct method; try (by intros [= <-]);
    (destruct (encryption (options c)) as [enc |];
     [ destruct (encodeJson (req_body req)) as [data | e];
       [intros [= <-]; eauto | discriminate]
     | destruct (JSON_stringify (req_body req));
       [by intros [= <-] | by intros [= <-] | discriminate] ]).
Qed.

(** The call [prepare] gets ready carries the method, the signal and the
    body of the request as [on_wire_ok] has them. *)
Lemma prepare_body (url : string) (method : HttpMethod) (req : ApiRequest)
  (headers : HeaderMap) :
  run_always
    (fun r => forall a, r = Fulfilled a ->
       on_wire_ok method req (encryption (options c)) a.2)
    (prepare P c url method req headers).
Proof.
  unfold prepare.
  eapply (run_always_bind_post
            (fun body => methodToInit method (req_body req)
                           (encryption (options c)) = Fulfilled body));
    [apply run_always_settle; by intros a Ha | | discriminate].
  intros body Hbody. apply methodToInit_body in Hbody.
  eapply run_always_bind_post; [apply seal_body | | discriminate].
  intros init (Hm & Hs & Hb). simpl in Hm, Hs, Hb.
  apply run_always_bind_any; [| discriminate]. intros target.
  apply run_always_ret. intros a [= <-]. simpl.
  unfold on_wire_ok, wire_method.
  split; [exact Hm | split; [exact Hs |]].
  destruct method; simpl in Hbody |- *;
    destruct (encryption (options c)) as [enc |];
    try match type of Hbody with
        | ex _ => destruct Hbody as [data Hdata]
        end;
    subst body; simpl in Hb;
    first [ exact Hb
          | by destruct (req_body req)
          | by destruct (JSON_stringify (req_body req)) ].
Qed.

Lemma transport_sends (url : string) (method : HttpMethod)
  (req : ApiRequest) (headers : HeaderMap) :
  (forall target init,
     on_wire_ok method req (encryption (options c)) init ->
     Φ (EvFetch target init)) ->
  run_within (does Φ c) (transport P c url method req headers).
Proof.
  intros Hfetch. unfold transport.
  eapply (run_within_bind_post (does Φ c));
    [by apply prepare_does | apply prepare_body |].
  intros call Hcall. simpl in Hcall.
  apply (run_within_await (does Φ c)). unfold call_fetch.
  apply (run_within_once (does Φ c)). intros w. apply does_emit.
  by apply Hfetch.
Qed.

Lemma execute_sends (url : string) (method : HttpMethod) (req : ApiRequest) :
  (forall target init,
     on_wire_ok method req (encryption (options c)) init ->
     Φ (EvFetch target init)) ->
  run_within (does Φ c) (execute P c url method req).
Proof.
  intros Hfetch. unfold execute.
  apply (run_within_bind (does Φ c));
    [by apply (run_within_await (does Φ c)), getValidAccessToken_does |].
  intros token. unfold execute_with.
  apply (run_within_bind (does Φ c)).
  - apply (run_within_catch (does Φ c)).
    + apply (run_within_bind (does Φ c)); [by apply transport_sends |].
      intros response. apply (run_within_ret (does Φ c)).
    + intros e. apply (run_within_ret (does Φ c)).
  - intros [response | failed].
    + destruct (req_stream req); [by apply relay_does | by apply decode_does].
    + apply (run_within_ret (does Φ c)).
Qed.

End WireFacts.
End WireFacts.

(** X16. What an execution hands to the transport, under every
    interleaving. The method is the method of the request, with POST for
    FORMDATA; the abort signal is the one of the request. A GET or a
    DELETE carries no body, whatever body the request has; a FORMDATA
    request carries its body as it is, unless the body is a Blob and the
    client has encryption: then it carries a Blob of ciphertext, of type
    application/octet-stream; any other request carries the JSON text of
    its body -- no body at all when that is undefined -- or, on a client
    with encryption, a Blob of type application/octet-stream. *)
Theorem execute_puts_on_the_wire (P : Platform) (c : ApiClient)
  (url : string) (method : HttpMethod) (req : ApiRequest) :
  run_within
    (fun w w' =>
       exists evs,
         trace w' = (trace w ++ evs)%list /\
         Forall (fun e => forall target init,
                   e = EvFetch target init ->
                   on_wire_ok method req (encryption (options c)) init)
                evs)
    (execute P c url method req).
Proof.
  eapply AioFacts.run_within_weaken; [apply FrameFacts.does_trace |].
  apply WireFacts.execute_sends.
  - intros e He target init ->. discriminate He.
  - intros target init Hok target' init' [= <- <-]. exact Hok.
Qed.
(** X17. A body that cannot be made into a payload -- JSON.stringify
    throws on it, as on a BigInt -- fails the execution before anything
    is sent: the Result is the Failure with status 0 and no headers, its
    error made of what was thrown with the code ERR_NETWORK unless that
    has one of its own, and the world is as the Auth Coordinator left
    it: no call is handed to the transport and the encryption adapter is
    not called. *)
Theorem unserializable_body_fails_unsent (P : Platform) (c : ApiClient)
  (url : string) (method : HttpMethod) (req : ApiRequest) (token : JsValue)
  (e : Thrown) (w : World) :
  methodToInit method (req_body req) (encryption (options c)) = Rejected e ->
  run_alone (execute_with P c url method req token) w
  = (w, Fulfilled (Failure 0 None
                     (makeErrorShape (toApiError e "ERR_NETWORK")))).
Proof.
  intros He. unfold execute_with, transport, prepare, lift.
  rewrite AioFacts.run_alone_bind, AioFacts.run_alone_catch.
  rewrite !AioFacts.run_alone_bind, He, AioFacts.run_alone_settle.
  by rewrite !AioFacts.run_alone_ret.
Qed.

Lemma unserializable_body_fails_unsent_witness :
  run_alone
    (execute_with Scenario.std Scenario.cached_client
       "https://api.example.com/users" POST
       (Scenario.post "/users" (JBigInt 1)) JNull) Scenario.world0
  = (Scenario.world0,
     Fulfilled
       (Failure 0 None
          [("code", JStr "ERR_NETWORK");
           ("message", JStr "Do not know how to serialize a BigInt");
           ("details", JUndefined)])).
Proof.
  apply (unserializable_body_fails_unsent Scenario.std Scenario.cached_client
           "https://api.example.com/users" POST
           (Scenario.post "/users" (JBigInt 1)) JNull
           (type_error "Do not know how to serialize a BigInt")
           Scenario.world0 eq_refl).
Defined.

(* ===================================================================== *)
(** * Further properties: encrypted payloads *)
(* ===================================================================== *)

(** X18. What [execute] makes of a Blob payload -- the one made of the
    JSON body, or a Blob of the caller -- on a client with encryption. Without a gateway the payload is encrypted once and the
    ciphertext is the body. With a gateway the ciphertext of the payload
    is put into an envelope next to a fresh id, the true URL, the method
    and the headers, the envelope is serialized as JSON and encrypted
    again, and that second ciphertext is the body; the adapter is called
    twice, first on the payload and then on the envelope. Method, headers
    and signal of the call are left as they were in either case. *)
Theorem seal_encrypts_payload (P : Platform) (c : ApiClient)
  (enc : EncryptionAdapter) (url : string) (method : HttpMethod)
  (init : RequestInit) (data payload : list byte) (w : World) :
  encryption (options c) = Some enc ->
  as_blob (init_body init) = Some data ->
  encrypt enc data = Fulfilled payload ->
  (nonempty (gatewayPath (options c)) = None ->
   run_alone (seal P c url method init) w
   = (emit (EvEncrypt data) w,
      Fulfilled (mkInit (init_method init) (init_headers init)
                        (init_signal init)
                        (Some (BodyBlob payload "application/octet-stream"))))) /\
  (forall g envelope cipher,
     nonempty (gatewayPath (options c)) = Some g ->
     encodeJson
       (JObj [("id", JStr (nanoid P (entropy w) 12));
              ("url", JStr url);
              ("method", JStr (method_name method));
              ("headers",
               JObj (map (fun kv => (kv.1, JStr kv.2)) (init_headers init)));
              ("payload", JBytes payload)]) = Fulfilled envelope ->
     encrypt enc envelope = Fulfilled cipher ->
     run_alone (seal P c url method init) w
     = (emit (EvEncrypt envelope) (set_entropy S (emit (EvEncrypt data) w)),
        Fulfilled (mkInit (init_method init) (init_headers init)
                          (init_signal init)
                          (Some (BodyBlob cipher "application/octet-stream"))))).
Proof.
  intros Henc Hbody Hpayload.
  assert (forall d w0, run_alone (call_encrypt enc d) w0
                       = (emit (EvEncrypt d) w0, encrypt enc d)) as Hcall
    by reflexivity.
  assert (forall (k : string -> Job RequestInit) w0,
            run_alone (bind (fresh_id P) k) w0
            = run_alone (k (nanoid P (entropy w0) 12)) (set_entropy S w0))
    as Hid by reflexivity.
  assert (forall k : list byte -> Job RequestInit,
            run_alone (arrayBuffer <- await (ret data) ;;
                       encrypted <- await (call_encrypt enc arrayBuffer) ;;
                       k encrypted) w
            = run_alone (k payload) (emit (EvEncrypt data) w)) as Hfirst.
  { intros k.
    rewrite AioFacts.run_alone_bind, AioFacts.run_alone_await,
      AioFacts.run_alone_ret.
    rewrite AioFacts.run_alone_bind, AioFacts.run_alone_await, Hcall.
    by rewrite Hpayload. }
  split.
  - intros Hg. unfold seal. rewrite Henc, Hbody, Hfirst, Hg.
    by rewrite AioFacts.run_alone_ret.
  - intros g envelope cipher Hg Henv Hcipher.
    unfold seal. rewrite Henc, Hbody, Hfirst, Hg, Hid.
    simpl entropy. unfold lift.
    rewrite AioFacts.run_alone_bind, Henv, AioFacts.run_alone_settle.
    rewrite AioFacts.run_alone_bind, AioFacts.run_alone_await, Hcall.
    rewrite Hcipher. by rewrite AioFacts.run_alone_ret.
Qed.

Lemma seal_encrypts_payload_witness :
  exists envelope cipher,
    run_alone
      (seal Scenario.std gateway_client "https://api.example.com/users/42"
            POST
            (mkInit "POST" [("x-api-key", "k-123")] None
                    (Some (BodyBlob [Byte.x01; Byte.x02]
                                    "application/octet-stream"))))
      Scenario.world0
    = (emit (EvEncrypt envelope)
         (set_entropy S (emit (EvEncrypt [Byte.x01; Byte.x02])
                              Scenario.world0)),
       Fulfilled (mkInit "POST" [("x-api-key", "k-123")] None
                         (Some (BodyBlob cipher "application/octet-stream")))).
Proof.
  eexists. eexists.
  apply (proj2 (seal_encrypts_payload Scenario.std gateway_client
                  (Scenario.sealing (JStr "s3cret"))
                  "https://api.example.com/users/42" POST
                  (mkInit "POST" [("x-api-key", "k-123")] None
                          (Some (BodyBlob [Byte.x01; Byte.x02]
                                          "application/octet-stream")))
                  [Byte.x01; Byte.x02]
                  (Scenario.nonce ++ [Byte.x02; Byte.x01])%list
                  Scenario.world0
                  eq_refl eq_refl eq_refl) "/gateway").
  - reflexivity.
  - vm_compute. reflexivity.
  - reflexivity.
Defined.

Module BodyFacts.

(** Reading a body to the end gives its chunks, one after the other. *)
Lemma collect_chunks (parts : list (list byte)) :
  collect (map JBytes parts) None = Fulfilled (List.concat parts).
Proof.
  induction parts as [| b parts IH]; simpl; [reflexivity |].
  by rewrite IH.
Qed.

End BodyFacts.

(** X19. An encrypted reply with a status within 200..299, on a client
    with encryption. However the body is cut into chunks, the client
    decrypts the whole of it in one call and parses the plaintext as
    JSON: the Result is a Success with the parsed value. When decryption
    or parsing fails the Result is a Failure with the status and headers
    of the response -- a status within 200..299 -- and the error made of
    what was thrown, with the code ERR_DECODE unless that has a code of
    its own. *)
Theorem decode_encrypted_reply (P : Platform) (c : ApiClient)
  (enc : EncryptionAdapter) (response : Response) (parts : list (list byte))
  (w : World) :
  encryption (options c) = Some enc ->
  includes "application/octet-stream"
    (default "" (header_get "content-type" (resp_headers response))) = true ->
  resp_body response = Some (mkBody (map JBytes parts) None) ->
  resp_ok response = true ->
  run_alone (decode P c response) w
  = (emit (EvDecrypt (List.concat parts)) w,
     Fulfilled
       match decrypt enc (List.concat parts) with
       | Rejected e =>
           Failure (resp_status response) (Some (resp_headers response))
                   (makeErrorShape (toApiError e "ERR_DECODE"))
       | Fulfilled plain =>
           match decodeJson P plain with
           | Rejected e =>
               Failure (resp_status response) (Some (resp_headers response))
                       (makeErrorShape (toApiError e "ERR_DECODE"))
           | Fulfilled data =>
               Success (resp_status response) (resp_headers response) data
           end
       end).
Proof.
  intros Henc Hct Hbody Hok. unfold decode.
  rewrite AioFacts.run_alone_catch, AioFacts.run_alone_bind.
  rewrite Hct, Henc. unfold lift.
  rewrite AioFacts.run_alone_bind, AioFacts.run_alone_await.
  unfold arrayBuffer. rewrite Hbody. simpl chunks. simpl failure.
  rewrite BodyFacts.collect_chunks, AioFacts.run_alone_settle.
  rewrite AioFacts.run_alone_bind, AioFacts.run_alone_await.
  assert (forall d w0, run_alone (call_decrypt enc d) w0
                       = (emit (EvDecrypt d) w0, decrypt enc d)) as Hcall
    by reflexivity.
  rewrite Hcall.
  destruct (decrypt enc (List.concat parts)) as [plain | e];
    [| by rewrite AioFacts.run_alone_ret].
  rewrite AioFacts.run_alone_settle.
  destruct (decodeJson P plain) as [data | e];
    [| by rewrite AioFacts.run_alone_ret].
  rewrite Hok. simpl negb. cbv iota. by rewrite AioFacts.run_alone_ret.
Qed.

Lemma decode_encrypted_reply_witness :
  (run_alone
     (decode Scenario.std gateway_client
        (mkResponse 200 [("content-type", "application/octet-stream")]
           (Some (mkBody
                    (map JBytes
                       [Scenario.nonce;
                        rev (list_byte_of_string Scenario.user_json)])
                    None))))
     Scenario.world0).2
  = Fulfilled (Success 200 [("content-type", "application/octet-stream")]
                       (JObj [("userId", JStr "u1")])).
Proof.
  exact (f_equal snd
           (decode_encrypted_reply Scenario.std gateway_client
              (Scenario.sealing (JStr "s3cret"))
              (mkResponse 200 [("content-type", "application/octet-stream")]
                 (Some (mkBody
                          (map JBytes
                             [Scenario.nonce;
                              rev (list_byte_of_string Scenario.user_json)])
                          None)))
              [Scenario.nonce; rev (list_byte_of_string Scenario.user_json)]
              Scenario.world0 eq_refl eq_refl eq_refl eq_refl)).
Defined.

(* ===================================================================== *)
(** * Further properties: requests, the cache and the registry *)
(* ===================================================================== *)

Module RequestFacts.
Import AioFacts DoesFacts FrameFacts CacheFacts.

(** The code of a client does not change the capacity of a cache. *)
Lemma prim_lru_max (Φ : Event -> Prop) (c : ApiClient) (w w' : World)
  (ref : nat) :
  prim Φ c w w' -> lru_max (cache_at ref w') = lru_max (cache_at ref w).
Proof.
  intros [e w0 He | w0 | tokens w0 | r key v ttl w0 Hr Hv]; try reflexivity.
  unfold cache_at at 1. simpl. rewrite lookup_insert.
  case_decide; [subst r; reflexivity | reflexivity].
Qed.

Lemma does_lru_max (Φ : Event -> Prop) (c : ApiClient) (w w' : World)
  (ref : nat) :
  does Φ c w w' -> lru_max (cache_at ref w') = lru_max (cache_at ref w).
Proof.
  intros H. induction H as [| w1 w2 w3 H1 _ IH]; [reflexivity |].
  rewrite IH. by eapply prim_lru_max.
Qed.

Section RequestFacts.
Context (P : Platform) (c : ApiClient).

(** The start of an execution, as far as it runs within [request]. *)
Lemma exec_start_framed (url : string) (method : HttpMethod)
  (req : ApiRequest) (key : string) (w : World) :
  framed c w (exec P c url method req key w).1.
Proof.
  eapply does_framed. apply (exec_does P c url method req key w).
Qed.

(** A request that misses the cache of a client without deduplication. *)
Lemma request_plain (req : ApiRequest) (fresh : nat) (w : World)
  (url key : string) :
  enableInFlightDedup (options c) = false ->
  buildUrl P (baseUrl (options c)) (req_url req) (req_query req)
    = Fulfilled url ->
  cacheKey_of (default GET (req_method req)) url req = Fulfilled key ->
  (cache_lookup c key w).2 = None ->
  request P c req fresh w
  = ((exec P c url (default GET (req_method req)) req key
           (cache_lookup c key w).1).1,
     mkIssued (Follows fresh)
       (Some (exec P c url (default GET (req_method req)) req key
                   (cache_lookup c key w).1).2)).
Proof.
  intros Hd Hu Hk Hmiss. unfold request, registered, register.
  by rewrite Hu, Hk, Hmiss, Hd.
Qed.

End RequestFacts.
End RequestFacts.

(** X20. A Success is served from the cache for as long as it is fresh.
    An execution of a client with a cache, run with nothing in between
    so that the clock stands still, ends in a Success. Then, in any later
    world in which the cache is as the execution left it and the clock is
    before the time of the execution plus the ttl of the client -- or at
    any time, when that ttl is 0 --, a request with the same cache key is
    answered at once with the same Result, and starts no execution. *)
Theorem fresh_success_is_served (P : Platform) (c : ApiClient) (ref : nat)
  (url key : string) (method : HttpMethod) (req : ApiRequest)
  (res : ApiResponse) (w : World) :
  cache c = Some ref -> (0 < lru_max (cache_at ref w))%nat ->
  (run_alone (exec P c url method req key) w).2 = Fulfilled res ->
  ok res = true ->
  forall (w2 : World) (req' : ApiRequest) (url' : string) (fresh : nat),
    cache_at ref w2
      = cache_at ref (run_alone (exec P c url method req key) w).1 ->
    (cacheTtlMs (options c) = 0 \/ now w2 < now w + cacheTtlMs (options c)) ->
    buildUrl P (baseUrl (options c)) (req_url req') (req_query req')
      = Fulfilled url' ->
    cacheKey_of (default GET (req_method req')) url' req' = Fulfilled key ->
    (request P c req' fresh w2).2 = mkIssued (Settles (Fulfilled res)) None.
Proof.
  intros Hc Hmax Hrun Hok w2 req' url' fresh Hsame Httl Hu Hk.
  assert (cache_at ref (run_alone (exec P c url method req key) w).1
          = LruCacheAdapter.set (now w) key res
              (Some (cacheTtlMs (options c)))
              (cache_at ref (run_alone (execute P c url method req) w).1)
          /\ lru_max (cache_at ref (run_alone (execute P c url method req) w).1)
             = lru_max (cache_at ref w)) as [Hw1 Hm].
  { pose proof (AioFacts.run_within_alone (does any_event c) _ w
                  (DoesFacts.execute_does P c url method req)) as Hdoes.
    pose proof (FrameFacts.does_framed _ _ _ _ Hdoes) as (Hnow & _).
    split; [| by eapply RequestFacts.does_lru_max].
    revert Hrun. unfold exec.
    rewrite AioFacts.run_alone_bind, AioFacts.run_alone_await.
    destruct (run_alone (execute P c url method req) w) as [w0 [res0 | e]];
      [| discriminate].
    simpl in Hnow. rewrite AioFacts.run_alone_bind.
    unfold cache_write. rewrite Hc.
    destruct (ok res0) eqn:Hok0.
    - unfold cache_set, modify, run_alone at 1. simpl.
      intros [= ->]. rewrite CacheFacts.cache_at_insert. by rewrite Hnow.
    - rewrite !AioFacts.run_alone_ret. intros [= ->]. congruence. }
  unfold request, cache_lookup. rewrite Hu, Hk, Hc. rewrite Hsame, Hw1.
  assert ((LruCacheAdapter.get (now w2) key
             (LruCacheAdapter.set (now w) key res
                (Some (cacheTtlMs (options c)))
                (cache_at ref (run_alone (execute P c url method req) w).1))).1
          = Some res) as Hget.
  { apply LruFacts.get_set_fresh; [by rewrite Hm |].
    destruct Httl as [-> | Httl]; [by right; left |].
    right; right. by eexists. }
  destruct (LruCacheAdapter.get (now w2) key _) as [hit c'].
  simpl in Hget. subst hit. reflexivity.
Qed.

(** X21. Without in-flight deduplication every request that misses the
    cache starts an execution of its own -- also while an execution for
    the same key is under way -- and the registry of the client and the
    pending callbacks are left as they are. *)
Theorem no_dedup_every_miss_executes (P : Platform) (c : ApiClient)
  (req : ApiRequest) (fresh : nat) (w : World) (url key : string) :
  enableInFlightDedup (options c) = false ->
  buildUrl P (baseUrl (options c)) (req_url req) (req_query req)
    = Fulfilled url ->
  cacheKey_of (default GET (req_method req)) url req = Fulfilled key ->
  (cache_lookup c key w).2 = None ->
  handle (request P c req fresh w).2 = Follows fresh /\
  is_Some (spawned (request P c req fresh w).2) /\
  registries (request P c req fresh w).1 = registries w /\
  reactions (request P c req fresh w).1 = reactions w.
Proof.
  intros Hd Hu Hk Hmiss.
  rewrite (RequestFacts.request_plain P c req fresh w url key Hd Hu Hk Hmiss).
  simpl. split; [reflexivity |]. split; [by eexists |].
  destruct (RequestFacts.exec_start_framed P c url
              (default GET (req_method req)) req key (cache_lookup c key w).1)
    as (_ & _ & Hreg & Hrea & _).
  destruct (LoopFacts.cache_lookup_world c key w) as (C1 & C2 & _).
  split; congruence.
Qed.

Lemma fresh_success_is_served_witness :
  (request Scenario.std Scenario.cached_client (Scenario.get "/users/me") 7
     (run_alone
        (exec Scenario.std Scenario.cached_client
              "https://api.example.com/users/me" GET
              (Scenario.get "/users/me") Scenario.users_me_key)
        served_world).1).2
  = mkIssued (Settles (Fulfilled Scenario.user_result)) None.
Proof.
  apply (fresh_success_is_served Scenario.std Scenario.cached_client 1
           "https://api.example.com/users/me" Scenario.users_me_key GET
           (Scenario.get "/users/me") Scenario.user_result served_world
           eq_refl) with (url' := "https://api.example.com/users/me").
  - vm_compute. lia.
  - vm_compute. reflexivity.
  - reflexivity.
  - reflexivity.
  - right. vm_compute. reflexivity.
  - reflexivity.
  - reflexivity.
Defined.

Lemma no_dedup_every_miss_executes_witness :
  handle (request Scenario.std bare_client (Scenario.get "/users/me") 7
            bare_world).2 = Follows 7 /\
  is_Some (spawned (request Scenario.std bare_client
                      (Scenario.get "/users/me") 7 bare_world).2).
Proof.
  destruct (no_dedup_every_miss_executes Scenario.std bare_client
              (Scenario.get "/users/me") 7 bare_world
              "https://api.example.com/users/me" Scenario.users_me_key
              eq_refl eq_refl eq_refl eq_refl) as (H1 & H2 & _).
  split; [exact H1 | exact H2].
Defined.

(** X22. A client created with [cache: false] has no cache, and nothing
    it does touches one: a request reads and writes no cache, and
    neither does an execution, whatever runs in between. *)
Theorem cache_off_touches_no_cache (P : Platform) (opts : ClientOptions)
  (w0 : World) :
  co_cache opts = CacheOff ->
  let c := (ApiClient_new P (Some opts) w0).2 in
  cache c = None /\
  (forall req fresh w, caches (request P c req fresh w).1 = caches w) /\
  (forall url method req key,
     run_within (fun w w' => caches w' = caches w)
                (exec P c url method req key)).
Proof.
  intros Hoff c.
  assert (cache c = None) as Hc.
  { unfold c, ApiClient_new. simpl. rewrite Hoff.
    by destruct (AuthManager_new _ w0). }
  assert (forall w w', framed c w w' -> caches w' = caches w) as Hframe.
  { intros w w' (_ & _ & _ & _ & _ & H). apply map_eq. intros r.
    apply H. by rewrite Hc. }
  split; [exact Hc |]. split.
  - intros req fresh w.
    destruct (LoopFacts.request_cases P c req fresh w)
      as [(e & ->) | [(key & res & -> & _) | [(key & p & -> & _ & _)
         | (url & key & -> & _ & _)]]]; cbn [fst].
    + reflexivity.
    + unfold cache_lookup. by rewrite Hc.
    + unfold cache_lookup. by rewrite Hc.
    + destruct (LoopFacts.register_world c key fresh
                  (exec P c url (default GET (req_method req)) req key
                        (cache_lookup c key w).1).1) as (_ & -> & _).
      rewrite (Hframe _ _ (RequestFacts.exec_start_framed P c url _ req key _)).
      unfold cache_lookup. by rewrite Hc.
  - intros url method req key.
    eapply AioFacts.run_within_weaken; [| apply DoesFacts.exec_does].
    intros w w' H. apply Hframe. by eapply FrameFacts.does_framed.
Qed.

Lemma cache_off_touches_no_cache_witness :
  cache bare_client = None /\
  caches (request Scenario.std bare_client (Scenario.get "/users/me") 7
            bare_world).1 = caches bare_world.
Proof.
  destruct (cache_off_touches_no_cache Scenario.std bare_options
              Scenario.world0 eq_refl) as (H1 & H2 & _).
  split; [exact H1 | apply H2].
Defined.

(** X23. When the options of a client name a token storage and a cache
    adapter, its encrypted variant uses the same two objects: the two
    clients have the same Auth Coordinator, so tokens set or refreshed
    through one are the tokens of the other, and a Result cached by one
    is served to the other. Only the in-flight registry of the variant
    is new. *)
Theorem withEncryption_shares_supplied (P : Platform) (opts : ClientOptions)
  (cfg : AuthConfig) (s r : nat) (secret : JsValue) (w0 w : World) :
  co_auth opts = Some cfg -> cfg_storage cfg = Some s ->
  co_cache opts = CacheGiven r ->
  let c := (ApiClient_new P (Some opts) w0).2 in
  (inflight c < next_ref w)%nat ->
  let c' := (withEncryption P c secret w).2 in
  auth c' = auth c /\ storage (auth c') = s /\
  cache c' = Some r /\ cache c = Some r /\
  inflight c' <> inflight c /\
  (forall key w1, cache_lookup c' key w1 = cache_lookup c key w1) /\
  encryption (options c') = Some (AesGcmEncryption P secret).
Proof.
  intros Ha Hs Hr c Hin c'.
  assert (c = mkClient
                (mkOptions (co_baseUrl opts) (co_gatewayPath opts)
                   (default (global_fetch P) (co_fetch opts))
                   (default [] (co_defaultHeaders opts)) cfg
                   (co_encryption opts) (CacheGiven r)
                   (default 10000 (co_cacheTtlMs opts))
                   (default true (co_enableInFlightDedup opts)))
                (mkAuth s (cfg_onRefresh cfg)
                   (default defaultIsTokenExpired (cfg_isTokenExpired cfg)))
                (Some r) (next_ref w0)) as Hc.
  { unfold c, ApiClient_new, AuthManager_new. simpl.
    rewrite Ha, Hr. simpl. by rewrite Hs. }
  assert (c' = mkClient
                 (mkOptions (co_baseUrl opts) (co_gatewayPath opts)
                    (default (global_fetch P) (co_fetch opts))
                    (default [] (co_defaultHeaders opts)) cfg
                    (Some (AesGcmEncryption P secret)) (CacheGiven r)
                    (default 10000 (co_cacheTtlMs opts))
                    (default true (co_enableInFlightDedup opts)))
                 (mkAuth s (cfg_onRefresh cfg)
                    (default defaultIsTokenExpired (cfg_isTokenExpired cfg)))
                 (Some r) (next_ref w)) as Hc'.
  { unfold c', withEncryption. rewrite Hc.
    unfold ApiClient_new, AuthManager_new, with_encryption_options. simpl.
    by rewrite Hs. }
  rewrite Hc in Hin. simpl in Hin.
  rewrite Hc', Hc. simpl. repeat split; try reflexivity. lia.
Qed.

Lemma withEncryption_shares_supplied_witness :
  auth (withEncryption Scenario.std
          (ApiClient_new Scenario.std (Some sharing_options)
                         Scenario.world0).2
          (JStr "s3cret")
          (ApiClient_new Scenario.std (Some sharing_options)
                         Scenario.world0).1).2
  = auth (ApiClient_new Scenario.std (Some sharing_options)
                        Scenario.world0).2.
Proof.
  apply (withEncryption_shares_supplied Scenario.std sharing_options
           (mkAuthConfig (Some 0%nat) None None) 0 1 (JStr "s3cret")
           Scenario.world0
           (ApiClient_new Scenario.std (Some sharing_options)
                          Scenario.world0).1
           eq_refl eq_refl eq_refl).
  vm_compute. lia.
Defined.

(* ===================================================================== *)
(** * Further properties: URLs and headers *)
(* ===================================================================== *)

Module UrlFacts.

Lemma header_get_app (k : string) (a b : HeaderMap) :
  header_get k (a ++ b)%list
  = match header_get k a with
    | Some v => Some v
    | None => header_get k b
    end.
Proof.
  induction a as [| [k0 v0] a IH]; simpl; [reflexivity |].
  by destruct (String.eqb k k0).
Qed.

(** Spreading [b] over [a]: the value last written under a name in [b],
    or else the value in [a]. *)
Lemma header_get_spread_last (k : string) (a b : HeaderMap) :
  header_get k (spread a b)
  = match last_written k b with
    | Some v => Some v
    | None => header_get k a
    end.
Proof.
  unfold spread, last_written. revert a.
  induction b as [| [k0 v0] b IH]; intros a; simpl; [reflexivity |].
  rewrite IH, header_get_app, HeaderFacts.header_get_set. simpl.
  destruct (header_get k (rev b)); [reflexivity |].
  by destruct (String.eqb k k0).
Qed.

End UrlFacts.


(** X25. The headers of a call, by precedence. Under the name
    [authorization] a call carries the bearer token whenever the Auth
    Coordinator answered with one, whatever the caller or the client
    defaults say. Under any other name -- names are compared as they are
    written, a name in another case is another name -- it carries the
    header of the request if there is one, else the default header of
    the client, else the header the client computes for the method. *)
Theorem header_precedence (c : ApiClient) (method : HttpMethod)
  (req : ApiRequest) (token : JsValue) (name : string) :
  header_get name (with_bearer token (merged_headers c method req))
  = if truthy token && String.eqb name "authorization" then
      Some ("Bearer " +:+ to_string token)
    else
      match last_written name (default [] (req_headers req)) with
      | Some v => Some v
      | None =>
          match last_written name (defaultHeaders (options c)) with
          | Some v => Some v
          | None =>
              header_get name
                (defaultHeadersFor method (encryption (options c)))
          end
      end.
Proof.
  unfold with_bearer, merged_headers.
  destruct (truthy token); simpl.
  - rewrite HeaderFacts.header_get_set.
    destruct (String.eqb name "authorization"); [reflexivity |].
    by rewrite !UrlFacts.header_get_spread_last.
  - by rewrite !UrlFacts.header_get_spread_last.
Qed.

(* ===================================================================== *)
(** * Further properties: crypto.ts *)
(* ===================================================================== *)

Module SliceFacts.

Lemma slice_head (n : nat) (a b : list byte) :
  List.length a = n -> slice 0 (Some n) (a ++ b) = a.
Proof.
  intros <-. unfold slice. simpl. by rewrite take_app_length.
Qed.

Lemma slice_tail (n : nat) (a b : list byte) :
  List.length a = n -> slice n None (a ++ b) = b.
Proof.
  intros <-. unfold slice. simpl. rewrite firstn_all.
  by rewrite drop_app_length.
Qed.

Lemma slice_short_head (n : nat) (a : list byte) :
  (List.length a <= n)%nat -> slice 0 (Some n) a = a.
Proof. intros H. unfold slice. simpl. by rewrite take_ge. Qed.

Lemma slice_short_tail (n : nat) (a : list byte) :
  (List.length a <= n)%nat -> slice n None a = [].
Proof.
  intros H. unfold slice. simpl. rewrite firstn_all. by rewrite drop_ge.
Qed.

End SliceFacts.

Module CryptoFacts.

(** Drawing random bytes, then going on. *)
Lemma run_alone_random {A} (C : WebCrypto) (n : nat)
  (f : list byte -> Job A) (w : World) :
  run_alone (bind (AesGcm.random C n) f) w
  = run_alone (f (getRandomValues C (entropy w) n)) (set_entropy S w).
Proof. reflexivity. Qed.

End CryptoFacts.

(** X26. AES-GCM framing round trip. [encrypt] draws an iv of
    [ivLength] bytes and returns it in front of what WebCrypto made of
    the data under that iv; [decrypt] splits its input at [ivLength] and
    hands the two parts back to WebCrypto. So whenever WebCrypto decrypts
    under the key and that iv what it encrypted, [decrypt] returns the
    data [encrypt] was given. *)
Theorem AesGcm_round_trip (C : WebCrypto) (a : AesGcm.AesGcmEncryption C)
  (key : CryptoKey C) (data buf : list byte) (w : World) :
  let iv := getRandomValues C (entropy w) (AesGcm.ivLength C a) in
  AesGcm.keyPromise C a = Fulfilled key ->
  List.length iv = AesGcm.ivLength C a ->
  subtle_encrypt C key iv data = Fulfilled buf ->
  subtle_decrypt C key iv buf = Fulfilled data ->
  run_alone (AesGcm.encrypt C a data) w
    = (set_entropy S w, Fulfilled (iv ++ buf)%list) /\
  forall w', run_alone (AesGcm.decrypt C a (iv ++ buf)%list) w'
             = (w', Fulfilled data).
Proof.
  intros iv Hkey Hlen Henc Hdec. split.
  - unfold AesGcm.encrypt, lift.
    rewrite AioFacts.run_alone_bind, AioFacts.run_alone_await, Hkey.
    rewrite AioFacts.run_alone_settle, CryptoFacts.run_alone_random.
    fold iv. rewrite AioFacts.run_alone_bind, AioFacts.run_alone_await.
    rewrite Henc.
    by rewrite AioFacts.run_alone_settle, AioFacts.run_alone_ret.
  - intros w'. unfold AesGcm.decrypt, lift.
    rewrite AioFacts.run_alone_bind, AioFacts.run_alone_await, Hkey.
    rewrite AioFacts.run_alone_settle. cbv zeta.
    rewrite SliceFacts.slice_head, SliceFacts.slice_tail by exact Hlen.
    rewrite AioFacts.run_alone_bind, AioFacts.run_alone_await, Hdec.
    by rewrite AioFacts.run_alone_settle, AioFacts.run_alone_ret.
Qed.

Lemma AesGcm_round_trip_witness :
  (run_alone
     (AesGcm.decrypt AesGcm.Toy.crypto
        (AesGcm.new AesGcm.Toy.crypto (SecretText "s3cret"))
        (repeat Byte.x01 12 ++ [Byte.x11; Byte.x12; Byte.x13])%list)
     Scenario.world0).2
  = Fulfilled [Byte.x0a; Byte.x0b; Byte.x0c].
Proof.
  destruct (AesGcm_round_trip AesGcm.Toy.crypto
              (AesGcm.new AesGcm.Toy.crypto (SecretText "s3cret"))
              6%nat [Byte.x0a; Byte.x0b; Byte.x0c]
              [Byte.x11; Byte.x12; Byte.x13] Scenario.world0
              eq_refl eq_refl eq_refl eq_refl) as [_ H].
  exact (f_equal snd (H Scenario.world0)).
Defined.

(** X27. AES-GCM at the edges. When the key could not be derived,
    [encrypt] and [decrypt] reject with the error of the derivation, and
    [encrypt] draws no iv. And [decrypt] does not check the length of its
    input: given no more than [ivLength] bytes it hands them all to
    WebCrypto as the iv, with an empty ciphertext, and returns or rejects
    as WebCrypto does. *)
Theorem AesGcm_edges (C : WebCrypto) (a : AesGcm.AesGcmEncryption C)
  (data : list byte) (w : World) :
  (forall e,
     AesGcm.keyPromise C a = Rejected e ->
     run_alone (AesGcm.encrypt C a data) w = (w, Rejected e) /\
     run_alone (AesGcm.decrypt C a data) w = (w, Rejected e)) /\
  (forall key,
     AesGcm.keyPromise C a = Fulfilled key ->
     (List.length data <= AesGcm.ivLength C a)%nat ->
     run_alone (AesGcm.decrypt C a data) w
     = (w, subtle_decrypt C key data [])).
Proof.
  split.
  - intros e Hkey. unfold AesGcm.encrypt, AesGcm.decrypt, lift.
    by rewrite !AioFacts.run_alone_bind, !AioFacts.run_alone_await, Hkey.
  - intros key Hkey Hlen. unfold AesGcm.decrypt, lift.
    rewrite AioFacts.run_alone_bind, AioFacts.run_alone_await, Hkey.
    rewrite AioFacts.run_alone_settle. cbv zeta.
    rewrite SliceFacts.slice_short_head, SliceFacts.slice_short_tail
      by exact Hlen.
    rewrite AioFacts.run_alone_bind, AioFacts.run_alone_await.
    rewrite AioFacts.run_alone_settle.
    by destruct (subtle_decrypt C key data []).
Qed.

Lemma AesGcm_edges_witness :
  run_alone
    (AesGcm.encrypt AesGcm.Toy.crypto
       (AesGcm.new AesGcm.Toy.crypto (SecretText "")) [Byte.x0a])
    Scenario.world0
  = (Scenario.world0, Rejected (type_error "empty key")) /\
  run_alone
    (AesGcm.decrypt AesGcm.Toy.crypto
       (AesGcm.new AesGcm.Toy.crypto (SecretText "s3cret")) [Byte.x0a])
    Scenario.world0
  = (Scenario.world0, Fulfilled []).
Proof.
  split.
  - apply (AesGcm_edges AesGcm.Toy.crypto
             (AesGcm.new AesGcm.Toy.crypto (SecretText "")) [Byte.x0a]
             Scenario.world0).
    reflexivity.
  - apply (proj2 (AesGcm_edges AesGcm.Toy.crypto
                    (AesGcm.new AesGcm.Toy.crypto (SecretText "s3cret"))
                    [Byte.x0a] Scenario.world0) 6%nat eq_refl).
    simpl. lia.
Defined.

(** X28. [decodeJson] reads back what [encodeJson] wrote: the bytes of
    a value that serializes decode to what JSON.parse makes of the text
    JSON.stringify gave. A value without serialization -- undefined, a
    function -- encodes to no bytes at all, which decode as JSON.parse
    takes the empty text; and [encodeJson] throws exactly when
    JSON.stringify does. *)
Theorem encodeJson_then_decodeJson (P : Platform) (v : JsValue) :
  match JSON_stringify v with
  | SText text =>
      exists bytes, encodeJson v = Fulfilled bytes /\
                    decodeJson P bytes = JSON_parse P text
  | SUndefined =>
      encodeJson v = Fulfilled [] /\ decodeJson P [] = JSON_parse P ""
  | SThrow message => encodeJson v = Rejected (type_error message)
  end.
Proof.
  unfold encodeJson, decodeJson.
  destruct (JSON_stringify v) as [text | | message];
    [| by split | reflexivity].
  eexists. split; [reflexivity |].
  by rewrite string_of_list_byte_of_string.
Qed.
